(** * Determinization of a finite paraconsistent non-deterministic automaton

    A shallow embedding of [main.py] and the verification of its
    specification.

    Modelling choices.
    - A truth value is a pair of Python numbers.  The program only compares
      them ([min], [max], [==], [!=]), which is exact on integers and on
      floats, so a number is modelled as a rational [Q]; the float literals
      of the example are the decimals they are written as (their order is the
      one of the floats).  Python's [==] on numbers is numeric equality
      ([1 == 1.0]), which is [Qeq] here; [min] and [max] return the first
      operand on a tie, as [Qmin] and [Qmax] do.
    - A state is a Python [int], a [Z]; [str] on an [int] is [pretty].
    - A symbol is a one-character Python string, an [ascii]; a word is a
      Python string, a [string].
    - The set [Q] is the list of its members in iteration order; [Sigma] and
      [F] are lists, as in the source.
    - A [dict] is a [gmap], the set of transitions a [gset].
    - A Python exception is a [Raise] in the [result] monad.
    - The module-level variables [Sigma], [Q], [initial], [F] and [delta] are
      explicit parameters of the functions that read them. *)

From Stdlib Require Import QArith Qminmax Ascii String.
From stdpp Require Import gmap strings list pretty sorting.

Local Open Scope Z_scope.

(** ** Truth values *)

Definition TV : Type := (Q * Q)%type.

(** [(0, 1)], the value of an absent transition. *)
Definition bot : TV := (0%Q, 1%Q).
(** [(1, 0)] *)
Definition top : TV := (1%Q, 0%Q).

Definition TwistAnd (pair1 pair2 : TV) : TV :=
  (Qmin (fst pair1) (fst pair2), Qmax (snd pair1) (snd pair2)).

Definition TwistOr (pair1 pair2 : TV) : TV :=
  (Qmax (fst pair1) (fst pair2), Qmin (snd pair1) (snd pair2)).

(** Python's [==] on two pairs of numbers. *)
Definition tv_eq (x y : TV) : Prop := (fst x == fst y)%Q ∧ (snd x == snd y)%Q.

Definition tv_eqb (x y : TV) : bool :=
  Qeq_bool (fst x) (fst y) && Qeq_bool (snd x) (snd y).

(** Membership of the unit square. *)
Definition in_unit (x : TV) : Prop :=
  ((0 <= fst x)%Q ∧ (fst x <= 1)%Q) ∧ ((0 <= snd x)%Q ∧ (snd x <= 1)%Q).

(** ** Exceptions *)

Inductive exn : Set := KeyError | IndexError | ValueError.

Inductive result (A : Type) : Type :=
  | Ok (a : A)
  | Raise (e : exn).
Arguments Ok {A} a.
Arguments Raise {A} e.

Global Instance result_ret : MRet result := λ A a, Ok a.
Global Instance result_bind : MBind result := λ A B f m,
  match m with Ok a => f a | Raise e => Raise e end.

(** A [for x in l: body] loop whose body may raise. *)
Fixpoint for_in {A S : Type} (l : list A) (body : A → S → result S) (s : S)
    : result S :=
  match l with
  | [] => Ok s
  | x :: l' => s' ← body x s; for_in l' body s'
  end.

(** ** The automaton *)

Abbreviation key := (Z * ascii * Z)%type.

(** [delta[k]] *)
Definition delta_get (delta : gmap key TV) (k : key) : result TV :=
  match delta !! k with
  | Some v => Ok v
  | None => Raise KeyError
  end.

Definition complete (Sigma : list ascii) (Q : list Z) (delta : gmap key TV)
    : gmap key TV :=
  foldl (λ delta q1,
    foldl (λ delta q2,
      foldl (λ delta a,
        match delta !! (q1, a, q2) with
        | None => <[(q1, a, q2) := bot]> delta
        | Some _ => delta
        end) delta Sigma) delta Q) delta Q.

(** ** Extended transition function *)

Fixpoint deltastar (Q : list Z) (delta : gmap key TV)
    (q1 : Z) (w : string) (q2 : Z) : result TV :=
  match w with
  | EmptyString => Ok (if decide (q1 = q2) then top else bot)
  | String a w' =>
      for_in Q (λ r result,
        x ← delta_get delta (q1, a, r);
        y ← deltastar Q delta r w' q2;
        let aux := TwistAnd x y in
        Ok (TwistOr result aux)) bot
  end.

(** ** Reachability *)

(** The set comprehension [{q for q in Q if deltastar(p, w, q) != (0, 1)}]:
    the members are collected in iteration order and a member is kept once. *)
Definition reach (Q : list Z) (delta : gmap key TV) (p : Z) (w : string)
    : result (list Z) :=
  for_in Q (λ q acc,
    v ← deltastar Q delta p w q;
    Ok (if negb (tv_eqb v bot) then
          (if decide (q ∈ acc) then acc else acc ++ [q])
        else acc)) [].

(** ** Auxiliary functions *)

(** [w + a], a word followed by a symbol. *)
Definition snoc_letter (w : string) (a : ascii) : string :=
  w +:+ String a EmptyString.

Definition add_letter (Sigma : list ascii) (W : list string) : list string :=
  w ← W; a ← Sigma; [snoc_letter w a].

(** [''.join(map(str, sorted(set_states)))] *)
Definition to_state (set_states : list Z) : string :=
  String.concat "" (pretty <$> merge_sort Z.le set_states).

(** [int(s)] on a one-character string. *)
Definition int_of_char (s : ascii) : result Z :=
  if decide (s = "0"%char) then Ok 0
  else if decide (s = "1"%char) then Ok 1
  else if decide (s = "2"%char) then Ok 2
  else if decide (s = "3"%char) then Ok 3
  else if decide (s = "4"%char) then Ok 4
  else if decide (s = "5"%char) then Ok 5
  else if decide (s = "6"%char) then Ok 6
  else if decide (s = "7"%char) then Ok 7
  else if decide (s = "8"%char) then Ok 8
  else if decide (s = "9"%char) then Ok 9
  else Raise ValueError.

(** [any(int(s) in F for s in state)]: the characters are read from the left
    until one is in [F]. *)
Fixpoint any_final (F : list Z) (state : string) : result bool :=
  match state with
  | EmptyString => Ok false
  | String s rest =>
      n ← int_of_char s;
      if decide (n ∈ F) then Ok true else any_final F rest
  end.

Definition is_final (F : list Z) (set_states : gset string)
    : result (gset string) :=
  for_in (elements set_states) (λ state (acc : gset string),
    b ← any_final F state;
    Ok (if (b : bool) then {[state]} ∪ acc else acc)) ∅.

(** ** Determinization algorithm *)

(** An unweighted transition [(S1, a, S2)] of the determinized automaton. *)
Abbreviation dtrans := (string * ascii * string)%type.

(** [w[-1]] *)
Fixpoint str_last (w : string) : result ascii :=
  match w with
  | EmptyString => Raise IndexError
  | String c EmptyString => Ok c
  | String _ w' => str_last w'
  end.

(** [w[:len(w) - 1]] *)
Fixpoint str_init (w : string) : string :=
  match w with
  | EmptyString => EmptyString
  | String _ EmptyString => EmptyString
  | String c w' => String c (str_init w')
  end.

(** [words.remove(w)]: the first occurrence goes. *)
Fixpoint list_remove (w : string) (words : list string)
    : result (list string) :=
  match words with
  | [] => Raise ValueError
  | x :: words' =>
      if decide (x = w) then Ok words'
      else rest ← list_remove w words'; Ok (x :: rest)
  end.

(** The variables of the loop of [step1]. *)
Record vars : Type := Vars {
  transitions : gset dtrans;
  words : list string;
  words_states : gmap string string
}.

(** The body of [for w in next_words]. *)
Definition step1_body (Q : list Z) (delta : gmap key TV) (initial : Z)
    (w : string) (s : vars) : result vars :=
  let prev_state :=
    match words_states s !! str_init w with
    | Some st => st
    | None => to_state [initial]
    end in
  r ← reach Q delta initial w;
  let new_state := to_state r in
  a ← str_last w;
  let transitions' :=
    if bool_decide ((prev_state, a, new_state) ∉ transitions s)
       && bool_decide (new_state ≠ "")
    then {[(prev_state, a, new_state)]} ∪ transitions s
    else transitions s in
  words' ←
    (if bool_decide (new_state ∈ (map_img (words_states s) : gset string))
        || bool_decide (new_state = "")
     then list_remove w (words s)
     else Ok (words s));
  Ok (Vars transitions' words' (<[w := new_state]> (words_states s))).

(** The loop [while next_words != []], from the values [ts] of [transitions]
    and [ws] of [words_states] at its head; [None] when [fuel] rounds were
    not enough. *)
Fixpoint step1_while (fuel : nat) (Sigma : list ascii) (Q : list Z)
    (delta : gmap key TV) (initial : Z) (ts : gset dtrans)
    (next_words : list string) (ws : gmap string string)
    : option (result (gset dtrans)) :=
  match next_words with
  | [] => Some (Ok ts)
  | _ :: _ =>
      match fuel with
      | O => None
      | S fuel' =>
          match for_in next_words (step1_body Q delta initial)
                  (Vars ts next_words ws) with
          | Raise e => Some (Raise e)
          | Ok s =>
              step1_while fuel' Sigma Q delta initial (transitions s)
                (add_letter Sigma (words s)) (words_states s)
          end
      end
  end.

(** [Sigma.copy()] as the first [next_words]: a symbol is a word of one
    letter. *)
Definition seed (Sigma : list ascii) : list string :=
  (λ a, String a EmptyString) <$> Sigma.

Definition step1 (fuel : nat) (Sigma : list ascii) (Q : list Z)
    (delta : gmap key TV) (initial : Z) : option (result (gset dtrans)) :=
  step1_while fuel Sigma Q delta initial ∅ (seed Sigma) ∅.

(** The words [step1_while] extends: those left in [words] when a round
    ends, the ones [add_letter] is applied to, round after round.  (A ghost of
    the loop; it follows [step1_while] and keeps what that one forgets.) *)
Fixpoint step1_extended (fuel : nat) (Sigma : list ascii) (Q : list Z)
    (delta : gmap key TV) (initial : Z) (ts : gset dtrans)
    (next_words : list string) (ws : gmap string string) : list string :=
  match next_words with
  | [] => []
  | _ :: _ =>
      match fuel with
      | O => []
      | S fuel' =>
          match for_in next_words (step1_body Q delta initial)
                  (Vars ts next_words ws) with
          | Raise e => []
          | Ok s =>
              words s ++
              step1_extended fuel' Sigma Q delta initial (transitions s)
                (add_letter Sigma (words s)) (words_states s)
          end
      end
  end.

(** The weight of one transition: the two inner loops of [step2]. *)
Definition weight (delta : gmap key TV) (S1 : string) (a : ascii)
    (S2 : string) : result TV :=
  for_in (list_ascii_of_string S1) (λ p value,
    for_in (list_ascii_of_string S2) (λ q value,
      ip ← int_of_char p;
      iq ← int_of_char q;
      v ← delta_get delta (ip, a, iq);
      Ok (TwistOr value v)) value) bot.

(** What [step2] computes and prints: the initial state, the set of all
    states, the set of final states and the weights of the transitions. *)
Record FPDA : Type := Fpda {
  initD : string;
  QD : gset string;
  FD : gset string;
  deltaD : gmap dtrans TV
}.

(** The body of [for (S1, a, S2) in transitions], on the pair of [QD] and
    [deltaD]. *)
Definition step2_body (delta : gmap key TV) (t : dtrans)
    (acc : gset string * gmap dtrans TV)
    : result (gset string * gmap dtrans TV) :=
  let '(S1, a, S2) := t in
  value ← weight delta S1 a S2;
  Ok ({[S1; S2]} ∪ acc.1, <[(S1, a, S2) := value]> acc.2).

Definition step2 (delta : gmap key TV) (initial : Z) (F : list Z)
    (ts : gset dtrans) : result FPDA :=
  r ← for_in (elements ts) (step2_body delta) (∅, ∅);
  finals ← is_final F r.1;
  Ok (Fpda (pretty initial) r.1 finals r.2).

(** [determinization()], after [delta = complete()] at module level. *)
Definition determinization (fuel : nat) (Sigma : list ascii) (Q : list Z)
    (initial : Z) (F : list Z) (delta : gmap key TV)
    : option (result FPDA) :=
  let delta := complete Sigma Q delta in
  r ← step1 fuel Sigma Q delta initial;
  Some (t ← r; step2 delta initial F t).

(** ** The automaton of Example 5 *)

Module Example5.
Definition Sigma : list ascii := ["a"; "b"]%char.
Definition Q : list Z := [0; 1; 2; 3].
Definition initial : Z := 0.
Definition F : list Z := [0; 3].
Definition delta0 : gmap key TV :=
  list_to_map
    [ ((0, "b"%char, 0), (1, 0)%Q);
      ((0, "a"%char, 1), (0.5, 0.6)%Q);
      ((0, "a"%char, 2), (0.4, 0.8)%Q);
      ((2, "b"%char, 0), (1, 0)%Q);
      ((1, "b"%char, 3), (0.8, 1)%Q) ].
Abbreviation delta := (complete Sigma Q delta0).

(** The result of the construction on this automaton. *)
Definition transitions : gset dtrans :=
  list_to_set
    [ ("0", "a"%char, "12"); ("0", "b"%char, "0"); ("12", "b"%char, "03");
      ("03", "a"%char, "12"); ("03", "b"%char, "0") ].
Definition fpda : FPDA :=
  Fpda "0" (list_to_set ["0"; "12"; "03"]) (list_to_set ["0"; "03"])
    (list_to_map
       [ (("0", "a"%char, "12"), (0.5, 0.6)%Q);
         (("0", "b"%char, "0"), (1, 0)%Q);
         (("12", "b"%char, "03"), (1, 0)%Q);
         (("03", "a"%char, "12"), (0.5, 0.6)%Q);
         (("03", "b"%char, "0"), (1, 0)%Q) ]).
End Example5.

(** ** An automaton with a state of two digits *)

Module Multidigit.
Definition Sigma : list ascii := ["a"]%char.
Definition Q : list Z := [0; 1; 10].
Definition initial : Z := 0.
Definition F : list Z := [0].
Definition delta0 : gmap key TV :=
  list_to_map [ ((0, "a"%char, 10), (0.5, 0.5)%Q) ].
Abbreviation delta := (complete Sigma Q delta0).

(** The result of the construction on this automaton. *)
Definition transitions : gset dtrans :=
  list_to_set [ ("0", "a"%char, "10") ].
Definition fpda : FPDA :=
  Fpda "0" (list_to_set ["0"; "10"]) (list_to_set ["0"; "10"])
    (list_to_map [ (("0", "a"%char, "10"), (0, 1)%Q) ]).
End Multidigit.

(** * Vocabulary of the specification *)

(** *** Completion *)

(** The assignment guarded by [if (q1,a,q2) not in delta]. *)
Definition fill (delta : gmap key TV) (k : key) : gmap key TV :=
  match delta !! k with
  | None => <[k := bot]> delta
  | Some _ => delta
  end.

(** The triples in the order the three loops of [complete] visit them. *)
Definition triples (Sigma : list ascii) (Q : list Z) : list key :=
  q1 ← Q; q2 ← Q; a ← Sigma; [(q1, a, q2)].

(** The relation is defined on all of [Q × Sigma × Q]. *)
Definition total (Sigma : list ascii) (Q : list Z) (delta : gmap key TV)
    : Prop :=
  ∀ q1 a q2, q1 ∈ Q → a ∈ Sigma → q2 ∈ Q → is_Some (delta !! (q1, a, q2)).

(** *** The extended transition function *)

(** Every symbol of the word belongs to [Sigma]. *)
Fixpoint word_over (Sigma : list ascii) (w : string) : Prop :=
  match w with
  | EmptyString => True
  | String a w' => a ∈ Sigma ∧ word_over Sigma w'
  end.

(** The symbol occurs in the word. *)
Fixpoint occurs (c : ascii) (w : string) : Prop :=
  match w with
  | EmptyString => False
  | String a w' => a = c ∨ occurs c w'
  end.

(** The entry of a relation, [(0,1)] where it has none. *)
Definition entry (delta : gmap key TV) (q1 : Z) (a : ascii) (q2 : Z) : TV :=
  default bot (delta !! (q1, a, q2)).

(** The extended transition function in the words of the specification, over
    a transition function [dl] that is defined everywhere: on the empty word
    [(1,0)] or [(0,1)]; on [a·w'] the result starts as [(0,1)] and every [r]
    of [Q] folds [TwistAnd(dl(q1,a,r), deltastar(r,w',q2))] into it with
    [TwistOr]. *)
Fixpoint deltastar_spec (Q : list Z) (dl : Z → ascii → Z → TV)
    (q1 : Z) (w : string) (q2 : Z) : TV :=
  match w with
  | EmptyString => if decide (q1 = q2) then (1, 0)%Q else (0, 1)%Q
  | String a w' =>
      foldl (λ result r,
        TwistOr result (TwistAnd (dl q1 a r) (deltastar_spec Q dl r w' q2)))
        (0, 1)%Q Q
  end.

(** *** Deterministic states *)

(** The non-empty sublists of a list: the non-empty subsets of [Q], each
    listed in the order of [Q]. *)
Fixpoint nonempty_sublists (l : list Z) : list (list Z) :=
  match l with
  | [] => []
  | x :: l' =>
      [x] :: ((x ::.) <$> nonempty_sublists l') ++ nonempty_sublists l'
  end.

(** A deterministic state: the encoding of a non-empty subset of [Q]. *)
Definition dstates (Q : list Z) : list string :=
  to_state <$> nonempty_sublists Q.

(** *** The structural phase *)

(** The subset a word reaches from the initial state, and its encoding. *)
Definition reached (Q : list Z) (delta : gmap key TV) (initial : Z)
    (w : string) : list Z :=
  match reach Q delta initial w with
  | Ok r => r
  | Raise _ => []
  end.

Definition encode (Q : list Z) (delta : gmap key TV) (initial : Z)
    (w : string) : string :=
  to_state (reached Q delta initial w).

(** A word the loop may meet: not empty, and over [Sigma]. *)
Definition word_ok (Sigma : list ascii) (w : string) : Prop :=
  w ≠ "" ∧ word_over Sigma w.

(** [words_states] holds, for words the loop has met, what they reach. *)
Definition cache_ok (Sigma : list ascii) (Q : list Z) (delta : gmap key TV)
    (initial : Z) (ws : gmap string string) : Prop :=
  ∀ w v, ws !! w = Some v → v = encode Q delta initial w ∧ word_ok Sigma w.

(** The prefix [w[:len(w)-1]] is empty or cached with a non-empty state. *)
Definition src_ok (ws : gmap string string) (w : string) : Prop :=
  str_init w = "" ∨ ∃ v, ws !! str_init w = Some v ∧ v ≠ "".

(** The transitions link deterministic states on symbols of [Sigma]. *)
Definition trans_ok (Sigma : list ascii) (Q : list Z) (ts : gset dtrans)
    : Prop :=
  ∀ S1 a S2, (S1, a, S2) ∈ ts →
    S1 ∈ dstates Q ∧ a ∈ Sigma ∧ S2 ∈ dstates Q.

(** The pieces of the body of the [for] loop of [step1]. *)
Definition prev_of (initial : Z) (ws : gmap string string) (w : string)
    : string :=
  match ws !! str_init w with
  | Some st => st
  | None => to_state [initial]
  end.

Definition pruned (Q : list Z) (delta : gmap key TV) (initial : Z)
    (ws : gmap string string) (w : string) : bool :=
  bool_decide (encode Q delta initial w ∈ (map_img ws : gset string))
  || bool_decide (encode Q delta initial w = "").

Definition found (Q : list Z) (delta : gmap key TV) (initial : Z)
    (ts : gset dtrans) (ws : gmap string string) (w : string) (a : ascii)
    : gset dtrans :=
  if bool_decide
       ((prev_of initial ws w, a, encode Q delta initial w) ∉ ts)
     && bool_decide (encode Q delta initial w ≠ "")
  then {[(prev_of initial ws w, a, encode Q delta initial w)]} ∪ ts
  else ts.

(** One round of the [for] loop.  [ws0] is [words_states] when the round
    starts, [l] the words the loop still has to visit; [kept] are the visited
    words that stayed in [words]. *)
Record round_inv (Sigma : list ascii) (Q : list Z) (delta : gmap key TV)
    (initial : Z) (ws0 : gmap string string) (l : list string) (s : vars)
    : Prop := RoundInv {
  ri_cache : cache_ok Sigma Q delta initial (words_states s);
  ri_mono : (map_img ws0 : gset string) ⊆ map_img (words_states s);
  ri_pending : ∀ w, w ∈ l → word_ok Sigma w ∧ src_ok (words_states s) w;
  ri_trans : trans_ok Sigma Q (transitions s);
  ri_words : ∃ kept,
    words s ≡ₚ kept ++ l
    ∧ NoDup (encode Q delta initial <$> kept)
    ∧ ∀ u, u ∈ kept →
        word_ok Sigma u ∧ encode Q delta initial u ≠ ""
        ∧ (encode Q delta initial u ∉ (map_img ws0 : gset string))
        ∧ words_states s !! u = Some (encode Q delta initial u)
}.

(** The head of the [while] loop. *)
Record while_inv (Sigma : list ascii) (Q : list Z) (delta : gmap key TV)
    (initial : Z) (ts : gset dtrans) (nw : list string)
    (ws : gmap string string) : Prop := WhileInv {
  wi_cache : cache_ok Sigma Q delta initial ws;
  wi_pending : ∀ w, w ∈ nw → word_ok Sigma w ∧ src_ok ws w;
  wi_trans : trans_ok Sigma Q ts
}.

(** The deterministic states that [words_states] does not hold yet. *)
Definition unseen (Q : list Z) (ws : gmap string string) : gset string :=
  list_to_set (dstates Q) ∖ map_img ws.

(** *** The weighting phase *)

(** The states that occur in a set of transitions. *)
Definition states_of (ts : gset dtrans) : gset string :=
  set_map (λ t : dtrans, t.1.1) ts ∪ set_map (λ t : dtrans, t.2) ts.

(** The weight [step2] computes for a transition, if it computes one. *)
Definition weight_of (delta : gmap key TV) (t : dtrans) : option TV :=
  match weight delta t.1.1 t.1.2 t.2 with
  | Ok v => Some v
  | Raise _ => None
  end.

(** *** States of one digit *)

(** Every state of the list is one of [0], ..., [9]. *)
Definition digits (l : list Z) : Prop := ∀ q, q ∈ l → 0 ≤ q ≤ 9.

(** The character [str] gives a digit. *)
Definition digit_char (q : Z) : ascii :=
  match q with
  | 0 => "0" | 1 => "1" | 2 => "2" | 3 => "3" | 4 => "4"
  | 5 => "5" | 6 => "6" | 7 => "7" | 8 => "8" | _ => "9"
  end%char.

(** The aggregated weight in the words of the specification: from [(0,1)],
    the value [delta(p, a, q)] of every pair of a [p] of [X] and a [q] of [Y]
    is folded in with [TwistOr]. *)
Definition aggregate (delta : gmap key TV) (X : list Z) (a : ascii)
    (Y : list Z) : TV :=
  foldl (λ value pq, TwistOr value (entry delta pq.1 a pq.2)) (0, 1)%Q
    (p ← X; q ← Y; [(p, q)]).

(** [determinization()] returned, and raised nothing. *)
Definition returns (o : option (result FPDA)) : bool :=
  match o with
  | Some (Ok _) => true
  | _ => false
  end.

(** *** Further vocabulary *)

(** Every transition is the move from what a word [u] reaches to what
    [u + a] reaches, and its target is not the empty state. *)
Definition witnessed (Sigma : list ascii) (Q : list Z) (delta : gmap key TV)
    (initial : Z) (ts : gset dtrans) : Prop :=
  ∀ S1 a S2, (S1, a, S2) ∈ ts →
    ∃ u, word_over Sigma u ∧ a ∈ Sigma
         ∧ S1 = encode Q delta initial u
         ∧ S2 = encode Q delta initial (snoc_letter u a) ∧ S2 ≠ "".

(** The transition of every cached word that reaches something is in the
    set. *)
Definition recorded (Q : list Z) (delta : gmap key TV) (initial : Z)
    (ts : gset dtrans) (ws : gmap string string) : Prop :=
  ∀ w v, ws !! w = Some v → v ≠ "" →
    ∃ a, str_last w = Ok a
         ∧ (encode Q delta initial (str_init w), a, v) ∈ ts.

(** The states one gets to from the initial state along transitions of the
    set. *)
Inductive linked (initial : Z) (ts : gset dtrans) : string → Prop :=
  | linked_init : linked initial ts (to_state [initial])
  | linked_step S0 b S :
      linked initial ts S0 → (S0, b, S) ∈ ts → linked initial ts S.

(** Every source of a transition is such a state. *)
Definition rooted (initial : Z) (ts : gset dtrans) : Prop :=
  ∀ S1 a S2, (S1, a, S2) ∈ ts → linked initial ts S1.

(** [TwistOr] folded over the states of a list, from [bot]: the loop of
    [deltastar]. *)
Definition bigor (f : Z → TV) (l : list Z) : TV :=
  foldl (λ result r, TwistOr result (f r)) bot l.

(** Every value of the relation lies in the unit square. *)
Definition unit_valued (delta : gmap key TV) : Prop :=
  ∀ k v, delta !! k = Some v → in_unit v.

(** A value with a positive first degree. *)
Definition live (v : TV) : Prop := (0 < fst v)%Q.

(** Every value of the relation is [(0, 1)] or has a positive first
    degree. *)
Definition positive_or_bot (delta : gmap key TV) : Prop :=
  ∀ k v, delta !! k = Some v → tv_eq v bot ∨ live v.

(** What the loop of [step1] still owes: every symbol is cached or pending,
    and every state of the cache has a word whose one-letter extensions are
    cached or pending, or that is among the words kept for the next round. *)
Definition covered (Sigma : list ascii) (ws : gmap string string)
    (pending kept : list string) : Prop :=
  (∀ a, a ∈ Sigma → is_Some (ws !! String a "") ∨ String a "" ∈ pending)
  ∧ ∀ w v, ws !! w = Some v → v ≠ "" →
      ∃ u, ws !! u = Some v
           ∧ (u ∈ kept
              ∨ ∀ a, a ∈ Sigma →
                  is_Some (ws !! snoc_letter u a) ∨ snoc_letter u a ∈ pending).

(** An automaton with contradictory degrees: [(0, 0.5)] and [(0.5, 1)] meet
    in [(0, 1)]. *)
Module Branching.
Definition Sigma : list ascii := ["a"; "b"]%char.
Definition Q : list Z := [0; 1].
Definition initial : Z := 0.
Definition delta0 : gmap key TV :=
  list_to_map
    [ ((0, "a"%char, 0), (0, 0.5)%Q);
      ((0, "b"%char, 0), (0.5, 1)%Q);
      ((0, "b"%char, 1), (0.5, 0.5)%Q) ].
Abbreviation delta := (complete Sigma Q delta0).
Definition transitions : gset dtrans :=
  list_to_set
    [ ("0", "a"%char, "0"); ("0", "b"%char, "01"); ("0", "b"%char, "1");
      ("01", "b"%char, "01") ].
End Branching.

(** * Verification *)

(** Closed decidable goals are settled by evaluation. *)
Global Instance exn_eq_dec : EqDecision exn.
Proof. solve_decision. Defined.
Global Instance result_eq_dec `{EqDecision A} : EqDecision (result A).
Proof. solve_decision. Defined.
Global Instance Q_eq_dec : EqDecision Q.
Proof. solve_decision. Defined.
Global Instance FPDA_eq_dec : EqDecision FPDA.
Proof. solve_decision. Defined.

Ltac by_compute := apply (bool_decide_unpack _); vm_compute; exact I.

(** ** The truth algebra *)

Section Algebra.
Implicit Types x y z : TV.

Lemma TwistAnd_comm x y : tv_eq (TwistAnd x y) (TwistAnd y x).
Proof. split; [apply Q.min_comm | apply Q.max_comm]. Qed.

Lemma TwistOr_comm x y : tv_eq (TwistOr x y) (TwistOr y x).
Proof. split; [apply Q.max_comm | apply Q.min_comm]. Qed.

Lemma TwistAnd_assoc x y z :
  tv_eq (TwistAnd x (TwistAnd y z)) (TwistAnd (TwistAnd x y) z).
Proof. split; [apply Q.min_assoc | apply Q.max_assoc]. Qed.

Lemma TwistOr_assoc x y z :
  tv_eq (TwistOr x (TwistOr y z)) (TwistOr (TwistOr x y) z).
Proof. split; [apply Q.max_assoc | apply Q.min_assoc]. Qed.

Lemma TwistAnd_idemp x : tv_eq (TwistAnd x x) x.
Proof. split; [apply Q.min_id | apply Q.max_id]. Qed.

Lemma TwistOr_idemp x : tv_eq (TwistOr x x) x.
Proof. split; [apply Q.max_id | apply Q.min_id]. Qed.

Lemma TwistOr_bot x : in_unit x → tv_eq (TwistOr x bot) x.
Proof.
  intros [[H0 _] [_ H1]]. split; simpl.
  - by apply Q.max_l.
  - by apply Q.min_l.
Qed.

Lemma TwistAnd_bot x : in_unit x → tv_eq (TwistAnd x bot) bot.
Proof.
  intros [[H0 _] [_ H1]]. split; simpl.
  - by apply Q.min_r.
  - by apply Q.max_r.
Qed.

Lemma TwistAnd_top x : in_unit x → tv_eq (TwistAnd x top) x.
Proof.
  intros [[_ H1] [H0 _]]. split; simpl.
  - by apply Q.min_l.
  - by apply Q.max_l.
Qed.

Lemma TwistOr_top x : in_unit x → tv_eq (TwistOr x top) top.
Proof.
  intros [[_ H1] [H0 _]]. split; simpl.
  - by apply Q.max_r.
  - by apply Q.min_r.
Qed.

Lemma Qmin_between (lo hi a b : Q) :
  (lo <= a)%Q ∧ (a <= hi)%Q → (lo <= b)%Q ∧ (b <= hi)%Q →
  (lo <= Qmin a b)%Q ∧ (Qmin a b <= hi)%Q.
Proof.
  intros [??] [??]. split.
  - by apply Q.min_glb.
  - apply Qle_trans with a; [apply Q.le_min_l | done].
Qed.

Lemma Qmax_between (lo hi a b : Q) :
  (lo <= a)%Q ∧ (a <= hi)%Q → (lo <= b)%Q ∧ (b <= hi)%Q →
  (lo <= Qmax a b)%Q ∧ (Qmax a b <= hi)%Q.
Proof.
  intros [??] [??]. split.
  - apply Qle_trans with a; [done | apply Q.le_max_l].
  - by apply Q.max_lub.
Qed.

Lemma TwistAnd_in_unit x y : in_unit x → in_unit y → in_unit (TwistAnd x y).
Proof.
  intros [??] [??]. split; [by apply Qmin_between | by apply Qmax_between].
Qed.

Lemma TwistOr_in_unit x y : in_unit x → in_unit y → in_unit (TwistOr x y).
Proof.
  intros [??] [??]. split; [by apply Qmax_between | by apply Qmin_between].
Qed.
End Algebra.

(** C4. On the unit square [TwistAnd] and [TwistOr] are commutative,
    associative and idempotent, [(0,1)] is neutral for [TwistOr] and absorbing
    for [TwistAnd], [(1,0)] is neutral for [TwistAnd] and absorbing for
    [TwistOr], and both operators stay in the unit square.  Equality is
    Python's [==] on pairs of numbers. *)
Theorem twist_algebra_laws (x y z : TV) :
  in_unit x → in_unit y → in_unit z →
  (tv_eq (TwistAnd x y) (TwistAnd y x) ∧ tv_eq (TwistOr x y) (TwistOr y x))
  ∧ (tv_eq (TwistAnd x (TwistAnd y z)) (TwistAnd (TwistAnd x y) z)
     ∧ tv_eq (TwistOr x (TwistOr y z)) (TwistOr (TwistOr x y) z))
  ∧ (tv_eq (TwistAnd x x) x ∧ tv_eq (TwistOr x x) x)
  ∧ (tv_eq (TwistOr x bot) x ∧ tv_eq (TwistAnd x bot) bot)
  ∧ (tv_eq (TwistAnd x top) x ∧ tv_eq (TwistOr x top) top)
  ∧ (in_unit (TwistAnd x y) ∧ in_unit (TwistOr x y)).
Proof.
  intros Hx Hy Hz.
  refine (conj (conj (TwistAnd_comm x y) (TwistOr_comm x y))
         (conj (conj (TwistAnd_assoc x y z) (TwistOr_assoc x y z))
         (conj (conj (TwistAnd_idemp x) (TwistOr_idemp x))
         (conj (conj (TwistOr_bot x Hx) (TwistAnd_bot x Hx))
         (conj (conj (TwistAnd_top x Hx) (TwistOr_top x Hx))
               (conj (TwistAnd_in_unit x y Hx Hy)
                     (TwistOr_in_unit x y Hx Hy))))))).
Qed.

Lemma twist_algebra_laws_witness :
  let x : TV := (0.5, 0.6)%Q in
  let y : TV := (0.4, 0.8)%Q in
  let z : TV := (1, 1)%Q in
  (tv_eq (TwistAnd x y) (TwistAnd y x) ∧ tv_eq (TwistOr x y) (TwistOr y x))
  ∧ (tv_eq (TwistAnd x (TwistAnd y z)) (TwistAnd (TwistAnd x y) z)
     ∧ tv_eq (TwistOr x (TwistOr y z)) (TwistOr (TwistOr x y) z))
  ∧ (tv_eq (TwistAnd x x) x ∧ tv_eq (TwistOr x x) x)
  ∧ (tv_eq (TwistOr x bot) x ∧ tv_eq (TwistAnd x bot) bot)
  ∧ (tv_eq (TwistAnd x top) x ∧ tv_eq (TwistOr x top) top)
  ∧ (in_unit (TwistAnd x y) ∧ in_unit (TwistOr x y)).
Proof.
  apply twist_algebra_laws; repeat split; simpl; by vm_compute.
Defined.

(** ** Completion of the transition relation *)

Section Completion.
Variables (Sigma : list ascii) (Q : list Z).
Implicit Types (delta : gmap key TV) (k : key).

Lemma elem_of_triples q1 a q2 :
  (q1, a, q2) ∈ triples Sigma Q ↔ q1 ∈ Q ∧ a ∈ Sigma ∧ q2 ∈ Q.
Proof.
  unfold triples. split.
  - intros (x1 & H & ?)%list_elem_of_bind.
    apply list_elem_of_bind in H as (x2 & H & ?).
    apply list_elem_of_bind in H as (x & H & ?).
    apply list_elem_of_singleton in H. by simplify_eq.
  - intros (? & ? & ?).
    apply list_elem_of_bind. exists q1. split; [|done].
    apply list_elem_of_bind. exists q2. split; [|done].
    apply list_elem_of_bind. exists a. split; [|done].
    by apply list_elem_of_singleton.
Qed.

Lemma foldl_fill_lookup (l : list key) delta k :
  foldl fill delta l !! k =
    match delta !! k with
    | Some v => Some v
    | None => if decide (k ∈ l) then Some bot else None
    end.
Proof.
  revert delta. induction l as [|k' l IH]; intros delta; cbn [foldl].
  - destruct (delta !! k); [done|].
    case_decide as Hin; [|done]. by apply elem_of_nil in Hin.
  - rewrite IH. clear IH. unfold fill.
    destruct (delta !! k') as [v'|] eqn:Hk'.
    + destruct (delta !! k) as [v|] eqn:Hk; [done|].
      assert (k ≠ k') by congruence.
      destruct (decide (k ∈ l)), (decide (k ∈ k' :: l)); try done;
        exfalso; rewrite elem_of_cons in *; tauto.
    + destruct (decide (k = k')) as [->|Hne].
      * rewrite lookup_insert_eq, Hk'. by rewrite decide_True by left.
      * rewrite lookup_insert_ne by done.
        destruct (delta !! k); [done|].
        destruct (decide (k ∈ l)), (decide (k ∈ k' :: l)); try done;
        exfalso; rewrite elem_of_cons in *; tauto.
Qed.

Lemma foldl_fill_symbols q1 q2 (S : list ascii) delta :
  foldl (λ delta a, fill delta (q1, a, q2)) delta S
  = foldl fill delta (a ← S; [(q1, a, q2)]).
Proof.
  revert delta. induction S as [|a S IH]; intros delta; [done|].
  cbn. apply IH.
Qed.

Lemma foldl_fill_targets q1 (Q2 : list Z) delta :
  foldl (λ delta q2, foldl (λ delta a, fill delta (q1, a, q2)) delta Sigma)
    delta Q2
  = foldl fill delta (q2 ← Q2; a ← Sigma; [(q1, a, q2)]).
Proof.
  revert delta. induction Q2 as [|q2 Q2 IH]; intros delta; [done|].
  cbn [foldl]. rewrite bind_cons, foldl_app, IH.
  by rewrite foldl_fill_symbols.
Qed.

Lemma foldl_fill_sources (Q1 : list Z) delta :
  foldl (λ delta q1,
    foldl (λ delta q2,
      foldl (λ delta a, fill delta (q1, a, q2)) delta Sigma) delta Q)
    delta Q1
  = foldl fill delta (q1 ← Q1; q2 ← Q; a ← Sigma; [(q1, a, q2)]).
Proof.
  revert delta. induction Q1 as [|q1 Q1 IH]; intros delta; [done|].
  cbn [foldl]. rewrite bind_cons, foldl_app, IH.
  by rewrite foldl_fill_targets.
Qed.

Lemma complete_triples delta :
  complete Sigma Q delta = foldl fill delta (triples Sigma Q).
Proof. apply foldl_fill_sources. Qed.

Lemma complete_lookup delta k :
  complete Sigma Q delta !! k =
    match delta !! k with
    | Some v => Some v
    | None => if decide (k ∈ triples Sigma Q) then Some bot else None
    end.
Proof. rewrite complete_triples. apply foldl_fill_lookup. Qed.

Lemma complete_total delta : total Sigma Q (complete Sigma Q delta).
Proof.
  intros q1 a q2 H1 Ha H2. rewrite complete_lookup.
  destruct (delta !! _); [done|].
  rewrite decide_True; [done|]. by apply elem_of_triples.
Qed.

Lemma complete_of_total delta :
  total Sigma Q delta → complete Sigma Q delta = delta.
Proof.
  intros Htot. apply map_eq. intros [[q1 a] q2]. rewrite complete_lookup.
  destruct (delta !! _) eqn:Hk; [done|].
  case_decide as Hin; [|done].
  apply elem_of_triples in Hin as (? & ? & ?).
  destruct (Htot q1 a q2) as [? ?]; congruence.
Qed.
End Completion.

(** C7. [complete()] gives the value [(0,1)] to every triple of
    [Q × Sigma × Q] that has none, adds nothing else, and keeps every entry
    the relation had; the result is total over [Q × Sigma × Q], and
    completing a relation that is total already (in particular a completed
    one) changes nothing. *)
Theorem complete_spec (Sigma : list ascii) (Q : list Z) (delta : gmap key TV) :
  (∀ q1 a q2, q1 ∈ Q → a ∈ Sigma → q2 ∈ Q → delta !! (q1, a, q2) = None →
     complete Sigma Q delta !! (q1, a, q2) = Some bot)
  ∧ (∀ q1 a q2, ¬ (q1 ∈ Q ∧ a ∈ Sigma ∧ q2 ∈ Q) → delta !! (q1, a, q2) = None →
     complete Sigma Q delta !! (q1, a, q2) = None)
  ∧ (∀ k v, delta !! k = Some v → complete Sigma Q delta !! k = Some v)
  ∧ total Sigma Q (complete Sigma Q delta)
  ∧ (total Sigma Q delta → complete Sigma Q delta = delta)
  ∧ complete Sigma Q (complete Sigma Q delta) = complete Sigma Q delta.
Proof.
  split_and!.
  - intros q1 a q2 ? ? ? Hk. rewrite complete_lookup, Hk.
    rewrite decide_True; [done|]. by apply elem_of_triples.
  - intros q1 a q2 Hn Hk. rewrite complete_lookup, Hk.
    rewrite decide_False; [done|]. by rewrite elem_of_triples.
  - intros k v Hk. by rewrite complete_lookup, Hk.
  - apply complete_total.
  - apply complete_of_total.
  - apply complete_of_total, complete_total.
Qed.

Lemma complete_spec_witness :
  complete Example5.Sigma Example5.Q Example5.delta0 !! (3, "a"%char, 1)
    = Some bot
  ∧ complete Example5.Sigma Example5.Q Example5.delta0 !! (4, "a"%char, 1)
    = None
  ∧ complete Example5.Sigma Example5.Q Example5.delta0 !! (0, "a"%char, 1)
    = Some (0.5, 0.6)%Q
  ∧ complete Example5.Sigma Example5.Q Example5.delta = Example5.delta.
Proof.
  destruct (complete_spec Example5.Sigma Example5.Q Example5.delta0)
    as (Hnew & Hout & Hold & Htot & _ & _).
  destruct (complete_spec Example5.Sigma Example5.Q Example5.delta)
    as (_ & _ & _ & _ & Hid & _).
  split_and!.
  - apply Hnew; by_compute.
  - apply Hout; [|by_compute]. intros [Hin _]. revert Hin. by_compute.
  - apply Hold. by_compute.
  - apply Hid, Htot.
Defined.

(** ** The extended transition function *)

Lemma for_in_ok {A S} (f : S → A → S) (l : list A) (body : A → S → result S) s :
  (∀ x s, x ∈ l → body x s = Ok (f s x)) →
  for_in l body s = Ok (foldl f s l).
Proof.
  revert s. induction l as [|x l IH]; intros s Hbody; [done|].
  cbn. rewrite Hbody by left. cbn. apply IH.
  intros ???. apply Hbody. by right.
Qed.

Section Deltastar.
Variables (Sigma : list ascii) (Q : list Z) (delta : gmap key TV).
Hypothesis delta_total : total Sigma Q delta.

Lemma delta_get_total q1 a r :
  q1 ∈ Q → a ∈ Sigma → r ∈ Q →
  delta_get delta (q1, a, r) = Ok (entry delta q1 a r).
Proof.
  intros H1 Ha Hr. unfold delta_get, entry.
  by destruct (delta_total q1 a r H1 Ha Hr) as [v ->].
Qed.

Lemma deltastar_refines w : ∀ q1 q2,
  q1 ∈ Q → word_over Sigma w →
  deltastar Q delta q1 w q2 = Ok (deltastar_spec Q (entry delta) q1 w q2).
Proof.
  induction w as [|a w IH]; intros q1 q2 H1 Hw; [done|].
  destruct Hw as [Ha Hw]. cbn [deltastar deltastar_spec].
  apply for_in_ok. intros r result Hr.
  rewrite delta_get_total by done. cbn.
  by rewrite IH.
Qed.
End Deltastar.

(** C1. After completion, for states of [Q] and a word over [Sigma],
    [deltastar] returns [(1,0)] on the empty word when [q1 = q2] and [(0,1)]
    when [q1 ≠ q2]; on [a·w'] it returns the [TwistOr]-fold, from [(0,1)],
    over the [r] of [Q] of [TwistAnd(delta(q1,a,r), deltastar(r,w',q2))],
    where each inner call returns its value too.  Altogether [deltastar]
    computes the function the specification describes. *)
Theorem deltastar_correct (Sigma : list ascii) (Q : list Z)
    (delta0 : gmap key TV) (q1 q2 : Z) (w : string) :
  let delta := complete Sigma Q delta0 in
  q1 ∈ Q → q2 ∈ Q → word_over Sigma w →
  deltastar Q delta q1 w q2 = Ok (deltastar_spec Q (entry delta) q1 w q2)
  ∧ (w = EmptyString → q1 = q2 → deltastar Q delta q1 w q2 = Ok (1, 0)%Q)
  ∧ (w = EmptyString → q1 ≠ q2 → deltastar Q delta q1 w q2 = Ok (0, 1)%Q)
  ∧ (∀ a w', w = String a w' →
       ∃ value : Z → TV,
         (∀ r, r ∈ Q → deltastar Q delta r w' q2 = Ok (value r))
         ∧ (∀ r, r ∈ Q → delta !! (q1, a, r) = Some (entry delta q1 a r))
         ∧ deltastar Q delta q1 w q2
           = Ok (foldl (λ result r,
                   TwistOr result (TwistAnd (entry delta q1 a r) (value r)))
                   (0, 1)%Q Q)).
Proof.
  intros delta H1 H2 Hw.
  assert (Htot : total Sigma Q delta) by apply complete_total.
  split_and!.
  - by apply (deltastar_refines Sigma).
  - intros -> ->. cbn. by rewrite decide_True.
  - intros -> ?. cbn. by rewrite decide_False.
  - intros a w' ->. destruct Hw as [Ha Hw].
    exists (λ r, deltastar_spec Q (entry delta) r w' q2). split_and!.
    + intros r Hr. by apply (deltastar_refines Sigma).
    + intros r Hr. unfold entry.
      by destruct (Htot q1 a r H1 Ha Hr) as [v ->].
    + by rewrite (deltastar_refines Sigma) by done.
Qed.

Lemma deltastar_correct_witness :
  deltastar Example5.Q Example5.delta 0 "ab" 3 = Ok (0.5, 1)%Q.
Proof.
  assert (Hw : word_over Example5.Sigma "ab").
  { cbn. split_and!; [by_compute..|done]. }
  destruct (deltastar_correct Example5.Sigma Example5.Q Example5.delta0
              0 3 "ab" ltac:(by_compute) ltac:(by_compute) Hw) as [-> _].
  by_compute.
Defined.

(** A symbol that no key of the relation carries makes the first lookup that
    reaches it fail, whatever the states. *)
Lemma deltastar_missing_key (Q : list Z) (delta : gmap key TV) (c : ascii) :
  Q ≠ [] → (∀ p r, delta !! (p, c, r) = None) →
  ∀ w q1 q2, occurs c w → deltastar Q delta q1 w q2 = Raise KeyError.
Proof.
  intros HQ Hc. destruct Q as [|r0 Q']; [done|].
  induction w as [|a w IH]; intros q1 q2 Hocc; [done|].
  cbn [deltastar for_in]. unfold delta_get.
  destruct (delta !! (q1, a, r0)) as [v|] eqn:Hk; [|done].
  destruct Hocc as [->|Hocc]; [by rewrite Hc in Hk|].
  cbn. by rewrite IH.
Qed.

(** C10. After completion every lookup of [deltastar(q1, w, q2)] finds its
    key, so the call returns a value, when [q1] and [q2] are states of [Q]
    and [w] is a word over [Sigma].  When [Q] is not empty and [w] contains a
    symbol that is neither in [Sigma] nor in a key of the raw relation, the
    call raises [KeyError]. *)
Theorem deltastar_lookups (Sigma : list ascii) (Q : list Z)
    (delta0 : gmap key TV) (q1 q2 : Z) (w : string) :
  let delta := complete Sigma Q delta0 in
  (q1 ∈ Q → q2 ∈ Q → word_over Sigma w →
     ∃ v, deltastar Q delta q1 w q2 = Ok v)
  ∧ (∀ c, Q ≠ [] → occurs c w → c ∉ Sigma →
       (∀ p r, delta0 !! (p, c, r) = None) →
       deltastar Q delta q1 w q2 = Raise KeyError).
Proof.
  intros delta. split.
  - intros H1 _ Hw. eexists.
    apply (deltastar_refines Sigma); [apply complete_total|done..].
  - intros c HQ Hocc Hc Hraw.
    apply (deltastar_missing_key Q delta c); [done| |done].
    intros p r. unfold delta. rewrite complete_lookup, Hraw.
    rewrite decide_False; [done|]. rewrite elem_of_triples. tauto.
Qed.

Lemma deltastar_lookups_witness :
  (∃ v, deltastar Example5.Q Example5.delta 0 "ab" 3 = Ok v)
  ∧ deltastar Example5.Q Example5.delta 0 "ac" 3 = Raise KeyError.
Proof.
  split.
  - apply (deltastar_lookups Example5.Sigma Example5.Q Example5.delta0 0 3 "ab");
      [by_compute..|].
    cbn. split_and!; [by_compute..|done].
  - pose proof (deltastar_lookups Example5.Sigma Example5.Q Example5.delta0
                  0 3 "ac") as H.
    cbv zeta in H. destruct H as [_ H]. apply (H "c"%char).
    + discriminate.
    + cbn. tauto.
    + by_compute.
    + intros p r. apply not_elem_of_list_to_map_1. cbn.
      rewrite !not_elem_of_cons. split_and!; try discriminate.
      apply not_elem_of_nil.
Defined.

(** ** The worked example *)

(** C2. On the automaton of Example 5, [step1] finds the transition from the
    encoding of [{0}] on [a] to the encoding of [{1,2}] and the one from
    [{0}] on [b] back to [{0}], and [step2] gives the first one the weight
    [TwistOr((0.5,0.6),(0.4,0.8)) = (0.5,0.6)]. *)
Theorem example5_determinization :
  step1 10 Example5.Sigma Example5.Q Example5.delta Example5.initial
    = Some (Ok Example5.transitions)
  ∧ step2 Example5.delta Example5.initial Example5.F Example5.transitions
    = Ok Example5.fpda
  ∧ reach Example5.Q Example5.delta Example5.initial "a" = Ok [1; 2]
  ∧ reach Example5.Q Example5.delta Example5.initial "b" = Ok [0]
  ∧ (to_state [0], "a"%char, to_state [1; 2]) ∈ Example5.transitions
  ∧ (to_state [0], "b"%char, to_state [0]) ∈ Example5.transitions
  ∧ deltaD Example5.fpda !! (to_state [0], "a"%char, to_state [1; 2])
    = Some (TwistOr (0.5, 0.6)%Q (0.4, 0.8)%Q)
  ∧ TwistOr (0.5, 0.6)%Q (0.4, 0.8)%Q = (0.5, 0.6)%Q
  ∧ initD Example5.fpda = to_state [0].
Proof.
  split_and!.
  - by_compute.
  - by_compute.
  - by_compute.
  - by_compute.
  - by_compute.
  - by_compute.
  - by_compute.
  - by_compute.
  - by_compute.
Qed.

(** ** Subsets of [Q] and their encodings *)

Lemma length_nonempty_sublists l :
  length (nonempty_sublists l) = (2 ^ length l - 1)%nat.
Proof.
  induction l as [|x l IH]; [done|].
  cbn [nonempty_sublists length]. rewrite length_app, length_fmap, IH.
  rewrite Nat.pow_succ_r'.
  assert (2 ^ length l ≠ 0)%nat by (apply Nat.pow_nonzero; lia). lia.
Qed.

Lemma elem_of_nonempty_sublists X l :
  X `sublist_of` l → X ≠ [] → X ∈ nonempty_sublists l.
Proof.
  induction 1 as [|x X l Hsub IH|x X l Hsub IH]; intros HX; [done| |].
  - cbn [nonempty_sublists]. destruct X as [|y X].
    + left.
    + right. apply elem_of_app. left. apply list_elem_of_fmap.
      exists (y :: X). split; [done|]. by apply IH.
  - cbn [nonempty_sublists]. right. apply elem_of_app. right. by apply IH.
Qed.

Lemma nonempty_sublists_sound X l :
  X ∈ nonempty_sublists l → X ≠ [] ∧ X `sublist_of` l.
Proof.
  revert X. induction l as [|x l IH]; intros X; cbn [nonempty_sublists].
  - by intros ?%elem_of_nil.
  - rewrite elem_of_cons, elem_of_app, list_elem_of_fmap.
    intros [->|[(Y & -> & HY)|HX]].
    + split; [done|]. apply sublist_skip, sublist_nil_l.
    + split; [done|]. apply sublist_skip. by apply IH.
    + split; [by apply IH|]. apply sublist_cons. by apply IH.
Qed.

Lemma length_dstates Q : length (dstates Q) = (2 ^ length Q - 1)%nat.
Proof. unfold dstates. by rewrite length_fmap, length_nonempty_sublists. Qed.

Lemma to_state_nil : to_state [] = "".
Proof. done. Qed.

(** ** Reachability *)

Lemma reach_loop_sublist (Q : list Z) (delta : gmap key TV) p w :
  ∀ l acc r,
    for_in l (λ q acc,
      v ← deltastar Q delta p w q;
      Ok (if negb (tv_eqb v bot) then
            (if decide (q ∈ acc) then acc else acc ++ [q])
          else acc)) acc = Ok r →
    ∃ r', r = acc ++ r' ∧ r' `sublist_of` l.
Proof.
  induction l as [|q l IH]; intros acc r; cbn [for_in].
  - intros [= <-]. exists []. by rewrite app_nil_r.
  - destruct (deltastar Q delta p w q) as [v|e]; [|done]. cbn.
    intros (r' & -> & Hsub)%IH.
    destruct (negb (tv_eqb v bot)); [destruct (decide (q ∈ acc))|].
    + exists r'. split; [done|]. by apply sublist_cons.
    + exists (q :: r'). split; [by rewrite <-app_assoc|]. by apply sublist_skip.
    + exists r'. split; [done|]. by apply sublist_cons.
Qed.

Lemma reach_sublist (Q : list Z) (delta : gmap key TV) p w r :
  reach Q delta p w = Ok r → r `sublist_of` Q.
Proof. intros (r' & -> & ?)%reach_loop_sublist. done. Qed.

Lemma for_in_total {A S} (l : list A) (body : A → S → result S) s :
  (∀ x s, x ∈ l → ∃ s', body x s = Ok s') → ∃ s', for_in l body s = Ok s'.
Proof.
  revert s. induction l as [|x l IH]; intros s Hbody; [by eexists|].
  cbn. destruct (Hbody x s) as [s' ->]; [left|]. cbn.
  apply IH. intros ???. apply Hbody. by right.
Qed.

Lemma reach_total (Sigma : list ascii) (Q : list Z) (delta : gmap key TV) p w :
  total Sigma Q delta → p ∈ Q → word_over Sigma w →
  ∃ r, reach Q delta p w = Ok r.
Proof.
  intros Htot Hp Hw. apply for_in_total. intros q acc _.
  rewrite (deltastar_refines Sigma) by done. by eexists.
Qed.

(** ** Words *)

Lemma str_init_snoc w a : str_init (snoc_letter w a) = w.
Proof.
  unfold snoc_letter. induction w as [|c w IH]; [done|].
  change (String c w +:+ String a "") with (String c (w +:+ String a "")).
  destruct (w +:+ String a "") as [|c' w'] eqn:E; [by destruct w|].
  change (String c (str_init (String c' w')) = String c w). by rewrite IH.
Qed.

Lemma str_last_snoc w a : str_last (snoc_letter w a) = Ok a.
Proof.
  unfold snoc_letter. induction w as [|c w IH]; [done|].
  change (String c w +:+ String a "") with (String c (w +:+ String a "")).
  destruct (w +:+ String a "") as [|c' w'] eqn:E; [by destruct w|].
  change (str_last (String c' w') = Ok a). by rewrite IH.
Qed.

Lemma snoc_letter_nonempty w a : snoc_letter w a ≠ "".
Proof. by destruct w. Qed.

Lemma word_over_snoc Sigma w a :
  word_over Sigma w → a ∈ Sigma → word_over Sigma (snoc_letter w a).
Proof.
  intros Hw Ha. unfold snoc_letter. induction w as [|c w IH]; [done|].
  destruct Hw as [? ?]. split; [done|]. by apply IH.
Qed.

Lemma str_last_ok Sigma w :
  w ≠ "" → word_over Sigma w → ∃ a, str_last w = Ok a ∧ a ∈ Sigma.
Proof.
  induction w as [|c w IH]; [done|]. intros _ [Hc Hw].
  destruct w as [|c' w]; [by exists c|].
  destruct IH as (a & Ha & ?); [done..|]. by exists a.
Qed.

Lemma elem_of_add_letter Sigma W w :
  w ∈ add_letter Sigma W ↔ ∃ u a, u ∈ W ∧ a ∈ Sigma ∧ w = snoc_letter u a.
Proof.
  unfold add_letter. rewrite list_elem_of_bind. split.
  - intros (u & (a & Hw & ?)%list_elem_of_bind & ?).
    apply list_elem_of_singleton in Hw. by exists u, a.
  - intros (u & a & ? & ? & ->). exists u. split; [|done].
    apply list_elem_of_bind. exists a. split; [|done].
    by apply list_elem_of_singleton.
Qed.

Lemma list_remove_ok w l :
  w ∈ l → ∃ l', list_remove w l = Ok l' ∧ l ≡ₚ w :: l'.
Proof.
  induction l as [|x l IH]; [by intros ?%elem_of_nil|].
  intros Hin. cbn [list_remove]. destruct (decide (x = w)) as [->|Hne].
  - by exists l.
  - destruct IH as (l' & -> & Hp).
    { by apply elem_of_cons in Hin as [?|?]. }
    exists (x :: l'). split; [done|]. rewrite Hp. apply Permutation_swap.
Qed.

Lemma singleton_sublist (x : Z) l : x ∈ l → [x] `sublist_of` l.
Proof.
  intros (l1 & l2 & ->)%list_elem_of_split.
  apply sublist_inserts_l, sublist_skip, sublist_nil_l.
Qed.

(** ** The structural phase *)

Section Step1.
Variables (Sigma : list ascii) (Q : list Z) (delta : gmap key TV).
Variable initial : Z.
Hypothesis delta_total : total Sigma Q delta.
Hypothesis initial_valid : initial ∈ Q.

Lemma reach_reached w :
  word_over Sigma w → reach Q delta initial w = Ok (reached Q delta initial w).
Proof.
  intros Hw. unfold reached.
  by destruct (reach_total Sigma Q delta initial w) as [r ->].
Qed.

Lemma reached_sublist w : reached Q delta initial w `sublist_of` Q.
Proof.
  unfold reached. destruct (reach Q delta initial w) as [r|e] eqn:E.
  - by apply reach_sublist in E.
  - apply sublist_nil_l.
Qed.

Lemma encode_dstate w :
  encode Q delta initial w ≠ "" → encode Q delta initial w ∈ dstates Q.
Proof.
  intros Hne. apply list_elem_of_fmap.
  exists (reached Q delta initial w). split; [done|].
  apply elem_of_nonempty_sublists; [apply reached_sublist|].
  intros Hnil. apply Hne. unfold encode. by rewrite Hnil.
Qed.

Lemma initial_dstate : to_state [initial] ∈ dstates Q.
Proof.
  apply list_elem_of_fmap. exists [initial]. split; [done|].
  apply elem_of_nonempty_sublists; [|done]. by apply singleton_sublist.
Qed.

Lemma step1_body_eq w a s :
  word_over Sigma w → str_last w = Ok a →
  step1_body Q delta initial w s =
    words' ← (if pruned Q delta initial (words_states s) w
              then list_remove w (words s) else Ok (words s));
    Ok (Vars (found Q delta initial (transitions s) (words_states s) w a) words'
          (<[w := encode Q delta initial w]> (words_states s))).
Proof.
  intros Hw Ha. unfold step1_body. rewrite reach_reached by done.
  cbn. rewrite Ha. done.
Qed.

Lemma cache_ok_no_empty ws :
  cache_ok Sigma Q delta initial ws → ws !! "" = None.
Proof.
  intros Hws. destruct (ws !! "") as [v|] eqn:E; [|done].
  by destruct (Hws _ _ E) as [_ [? _]].
Qed.

Lemma cache_ok_insert ws w :
  cache_ok Sigma Q delta initial ws → word_ok Sigma w →
  cache_ok Sigma Q delta initial (<[w := encode Q delta initial w]> ws).
Proof.
  intros Hws Hw u v. rewrite lookup_insert.
  case_decide as Hu; [|apply Hws]. intros [= <-]. by subst.
Qed.

Lemma lookup_insert_cached ws w u v :
  cache_ok Sigma Q delta initial ws → ws !! u = Some v →
  <[w := encode Q delta initial w]> ws !! u = Some v.
Proof.
  intros Hws Hu. rewrite lookup_insert. case_decide as Heq; [|done].
  subst. by destruct (Hws _ _ Hu) as [-> _].
Qed.

Lemma map_img_insert_cached ws w :
  cache_ok Sigma Q delta initial ws →
  (map_img ws : gset string) ⊆ map_img (<[w := encode Q delta initial w]> ws).
Proof.
  intros Hws v (u & Hu)%elem_of_map_img.
  apply elem_of_map_img. exists u. by apply lookup_insert_cached.
Qed.

Lemma src_ok_insert ws w u :
  cache_ok Sigma Q delta initial ws → src_ok ws u →
  src_ok (<[w := encode Q delta initial w]> ws) u.
Proof.
  intros Hws [?|(v & Hv & ?)]; [by left|].
  right. exists v. split; [|done]. by apply lookup_insert_cached.
Qed.

Lemma prev_of_dstate ws w :
  cache_ok Sigma Q delta initial ws → src_ok ws w →
  prev_of initial ws w ∈ dstates Q.
Proof.
  intros Hws [Hnil|(v & Hv & Hne)]; unfold prev_of.
  - rewrite Hnil, cache_ok_no_empty by done. apply initial_dstate.
  - rewrite Hv. destruct (Hws _ _ Hv) as [-> _]. by apply encode_dstate.
Qed.

Lemma found_ok ts ws w a :
  cache_ok Sigma Q delta initial ws → src_ok ws w → a ∈ Sigma →
  trans_ok Sigma Q ts →
  trans_ok Sigma Q (found Q delta initial ts ws w a).
Proof.
  intros Hws Hsrc Ha Hts. unfold found.
  destruct (bool_decide (_ ∉ ts)
            && bool_decide (encode Q delta initial w ≠ "")) eqn:E;
    [|done].
  apply andb_true_iff in E as [_ Hne%bool_decide_eq_true].
  intros S1 b S2 [Heq%elem_of_singleton|?]%elem_of_union; [|by apply Hts].
  simplify_eq. split_and!; [by apply prev_of_dstate|done|].
  by apply encode_dstate.
Qed.

Lemma round_step ws0 w l s :
  round_inv Sigma Q delta initial ws0 (w :: l) s →
  ∃ s', step1_body Q delta initial w s = Ok s'
        ∧ round_inv Sigma Q delta initial ws0 l s'.
Proof.
  intros [Hws Hmono Hpend Hts (kept & Hperm & Hnd & Hkept)].
  destruct (Hpend w) as [[Hne Hover] Hsrc]; [left|].
  destruct (str_last_ok Sigma w) as (a & Ha & HaS); [done..|].
  rewrite (step1_body_eq w a) by done.
  assert (Hpend' : ∀ u, u ∈ l →
    word_ok Sigma u ∧ src_ok (<[w := encode Q delta initial w]> (words_states s)) u).
  { intros u Hu. destruct (Hpend u) as [? ?]; [by right|].
    split; [done|]. by apply src_ok_insert. }
  assert (Hmono' : (map_img ws0 : gset string)
                   ⊆ map_img (<[w := encode Q delta initial w]> (words_states s))).
  { etrans; [done|]. by apply map_img_insert_cached. }
  destruct (pruned Q delta initial (words_states s) w) eqn:Hpr.
  - destruct (list_remove_ok w (words s)) as (l' & -> & Hl').
    { rewrite Hperm. apply elem_of_app. right. left. }
    eexists. split; [done|]. split; cbn.
    + by apply cache_ok_insert.
    + done.
    + done.
    + by apply found_ok.
    + exists kept. split_and!; [|done|].
      * apply (Permutation_cons_inv (a := w)). rewrite <-Hl', Hperm.
        by rewrite Permutation_middle.
      * intros u Hu. destruct (Hkept u Hu) as (? & ? & ? & ?).
        split_and!; [done..|]. by apply lookup_insert_cached.
  - apply orb_false_iff in Hpr as [Himg%bool_decide_eq_false
                                     Hnil%bool_decide_eq_false].
    eexists. split; [done|]. split; cbn.
    + by apply cache_ok_insert.
    + done.
    + done.
    + by apply found_ok.
    + exists (kept ++ [w]). split_and!.
      * by rewrite Hperm, <-app_assoc.
      * rewrite fmap_app. apply NoDup_app. split_and!; [done| |].
        -- intros v (u & -> & Hu)%list_elem_of_fmap Hv.
           apply list_elem_of_singleton in Hv.
           destruct (Hkept u Hu) as (_ & _ & _ & Hlook).
           apply Himg. rewrite <-Hv. apply elem_of_map_img. by exists u.
        -- apply NoDup_singleton.
      * intros u [Hu| ->%list_elem_of_singleton]%elem_of_app.
        -- destruct (Hkept u Hu) as (? & ? & ? & ?).
           split_and!; [done..|]. by apply lookup_insert_cached.
        -- split_and!; [done|done| |by rewrite lookup_insert_eq].
           intros Hin. by apply Himg, Hmono.
Qed.

Lemma round_run ws0 l : ∀ s,
  round_inv Sigma Q delta initial ws0 l s →
  ∃ s', for_in l (step1_body Q delta initial) s = Ok s'
        ∧ round_inv Sigma Q delta initial ws0 [] s'.
Proof.
  induction l as [|w l IH]; intros s Hinv; [by exists s|].
  destruct (round_step ws0 w l s Hinv) as (s1 & Hs1 & Hinv1).
  destruct (IH s1 Hinv1) as (s' & Hs' & Hinv').
  exists s'. split; [|done]. cbn [for_in]. by rewrite Hs1.
Qed.

Lemma while_inv_init :
  while_inv Sigma Q delta initial ∅ (seed Sigma) ∅.
Proof.
  split.
  - intros w v. by rewrite lookup_empty.
  - intros w (a & -> & Ha)%list_elem_of_fmap.
    split; [by split|]. by left.
  - intros S1 a S2 ?%not_elem_of_empty. done.
Qed.

Lemma while_inv_round ts nw ws :
  while_inv Sigma Q delta initial ts nw ws →
  round_inv Sigma Q delta initial ws nw (Vars ts nw ws).
Proof.
  intros [Hws Hpend Hts]. split; cbn; [done..|].
  exists []. split_and!; [done|constructor|].
  by intros u ?%elem_of_nil.
Qed.

Lemma round_inv_while ws0 s :
  round_inv Sigma Q delta initial ws0 [] s →
  while_inv Sigma Q delta initial (transitions s)
    (add_letter Sigma (words s)) (words_states s).
Proof.
  intros [Hws _ _ Hts (kept & Hperm & _ & Hkept)]. split; [done| |done].
  intros w (u & a & Hu & Ha & ->)%elem_of_add_letter.
  rewrite Hperm, app_nil_r in Hu.
  destruct (Hkept u Hu) as ([? ?] & Hne & _ & Hlook). split.
  - split; [apply snoc_letter_nonempty|by apply word_over_snoc].
  - right. rewrite str_init_snoc. eauto.
Qed.

Lemma round_progress ws0 s :
  round_inv Sigma Q delta initial ws0 [] s → words s ≠ [] →
  (size (unseen Q (words_states s)) < size (unseen Q ws0))%nat.
Proof.
  intros [Hws Hmono _ _ (kept & Hperm & _ & Hkept)] Hne.
  rewrite app_nil_r in Hperm.
  destruct (words s) as [|u rest] eqn:E; [done|].
  destruct (Hkept u) as (_ & Hnil & Hnew & Hlook).
  { rewrite <-Hperm. left. }
  apply subset_size. unfold unseen. split.
  - intros v [Hv Hv']%elem_of_difference. apply elem_of_difference.
    split; [done|]. intros ?. by apply Hv', Hmono.
  - intros Hsub. specialize (Hsub (encode Q delta initial u)).
    rewrite !elem_of_difference in Hsub. destruct Hsub as [_ Hsub].
    + split; [|done]. apply elem_of_list_to_set. by apply encode_dstate.
    + apply Hsub. apply elem_of_map_img. by exists u.
Qed.

Lemma step1_while_ok n : ∀ ts nw ws,
  while_inv Sigma Q delta initial ts nw ws → (size (unseen Q ws) < n)%nat →
  ∃ out, trans_ok Sigma Q out ∧ ∀ fuel, (n ≤ fuel)%nat →
    step1_while fuel Sigma Q delta initial ts nw ws = Some (Ok out).
Proof.
  induction n as [|n IH]; intros ts nw ws Hinv Hsize; [lia|].
  destruct (decide (nw = [])) as [->|Hnw].
  { exists ts. split; [apply Hinv|]. by intros [|?] _. }
  destruct (round_run ws nw (Vars ts nw ws)) as (s' & Hrun & Hinv');
    [by apply while_inv_round|].
  destruct (decide (words s' = [])) as [Hnil|Hne].
  - exists (transitions s'). split; [apply Hinv'|].
    intros [|fuel] ?; [lia|]. destruct nw as [|w nw']; [done|].
    cbn [step1_while]. rewrite Hrun, Hnil. by destruct fuel.
  - destruct (IH (transitions s') (add_letter Sigma (words s'))
                (words_states s')) as (out & Hout & Hfuel).
    + by eapply round_inv_while.
    + pose proof (round_progress ws s' Hinv' Hne). lia.
    + exists out. split; [done|].
      intros [|fuel] ?; [lia|]. destruct nw as [|w nw']; [done|].
      cbn [step1_while]. rewrite Hrun. apply Hfuel. lia.
Qed.

Lemma step1_extended_distinct fuel : ∀ ts nw ws,
  while_inv Sigma Q delta initial ts nw ws →
  NoDup (encode Q delta initial
           <$> step1_extended fuel Sigma Q delta initial ts nw ws)
  ∧ ∀ u, u ∈ step1_extended fuel Sigma Q delta initial ts nw ws →
      word_ok Sigma u ∧ encode Q delta initial u ≠ ""
      ∧ encode Q delta initial u ∉ (map_img ws : gset string).
Proof.
  induction fuel as [|fuel IH]; intros ts nw ws Hinv.
  { destruct nw; (split; [constructor|by intros u ?%elem_of_nil]). }
  destruct nw as [|w nw'].
  { split; [constructor|by intros u ?%elem_of_nil]. }
  destruct (round_run ws (w :: nw') (Vars ts (w :: nw') ws))
    as (s' & Hrun & Hinv'); [by apply while_inv_round|].
  cbn [step1_extended]. rewrite Hrun.
  destruct (IH (transitions s') (add_letter Sigma (words s'))
              (words_states s')) as [Hnd Hrest];
    [by eapply round_inv_while|].
  destruct Hinv' as [Hws Hmono _ _ (kept & Hperm & Hkd & Hkept)].
  rewrite app_nil_r in Hperm. split.
  - rewrite fmap_app. apply NoDup_app. split_and!; [by rewrite Hperm| |done].
    intros v (u & -> & Hu)%list_elem_of_fmap (u' & Hv & Hu')%list_elem_of_fmap.
    rewrite Hperm in Hu. destruct (Hkept u Hu) as (_ & _ & _ & Hlook).
    destruct (Hrest u' Hu') as (_ & _ & Hnew). apply Hnew.
    rewrite <-Hv. apply elem_of_map_img. by exists u.
  - intros u [Hu|Hu]%elem_of_app.
    + rewrite Hperm in Hu. destruct (Hkept u Hu) as (? & ? & ? & _). done.
    + destruct (Hrest u Hu) as (? & ? & Hnew). split_and!; [done..|].
      intros ?. by apply Hnew, Hmono.
Qed.

Lemma step1_while_sound fuel : ∀ ts nw ws out,
  while_inv Sigma Q delta initial ts nw ws →
  step1_while fuel Sigma Q delta initial ts nw ws = Some (Ok out) →
  trans_ok Sigma Q out.
Proof.
  induction fuel as [|fuel IH]; intros ts nw ws out Hinv.
  { destruct nw; [|done]. intros [= <-]. apply Hinv. }
  destruct nw as [|w nw']; [intros [= <-]; apply Hinv|].
  destruct (round_run ws (w :: nw') (Vars ts (w :: nw') ws))
    as (s' & Hrun & Hinv'); [by apply while_inv_round|].
  cbn [step1_while]. rewrite Hrun. apply IH. by eapply round_inv_while.
Qed.

Lemma step1_sound fuel out :
  step1 fuel Sigma Q delta initial = Some (Ok out) → trans_ok Sigma Q out.
Proof. apply step1_while_sound, while_inv_init. Qed.

End Step1.

Lemma size_list_to_set_le (l : list string) :
  (size (list_to_set l : gset string) ≤ length l)%nat.
Proof.
  induction l as [|x l IH]; cbn [list_to_set length].
  - by rewrite size_empty.
  - rewrite size_union_alt, size_singleton.
    assert (size (list_to_set l ∖ {[x]} : gset string)
            ≤ size (list_to_set l : gset string))%nat; [|lia].
    apply subseteq_size. apply subseteq_difference_l. done.
Qed.

(** ** The weighting phase *)

Lemma elem_of_states_of (ts : gset dtrans) S :
  S ∈ states_of ts ↔ ∃ S1 a S2, (S1, a, S2) ∈ ts ∧ (S = S1 ∨ S = S2).
Proof.
  unfold states_of. rewrite elem_of_union, !elem_of_map. split.
  - intros [([[S1 a] S2] & -> & ?)|([[S1 a] S2] & -> & ?)];
      exists S1, a, S2; auto.
  - intros (S1 & a & S2 & ? & [->| ->]);
      [left|right]; by exists (S1, a, S2).
Qed.

Section Step2.
Variables (delta : gmap key TV).

Lemma step2_loop_sound (l : list dtrans) : ∀ acc r,
  for_in l (step2_body delta) acc = Ok r →
  (∀ S, S ∈ r.1 ↔
     S ∈ acc.1 ∨ ∃ S1 a S2, (S1, a, S2) ∈ l ∧ (S = S1 ∨ S = S2))
  ∧ (∀ t, r.2 !! t = if decide (t ∈ l) then weight_of delta t
                     else acc.2 !! t).
Proof.
  induction l as [|[[S1 a] S2] l IH]; intros acc r; cbn [for_in].
  - intros [= <-]. split.
    + intros S. split; [auto|]. intros [?|(? & ? & ? & []%elem_of_nil & _)].
      done.
    + intros t. by rewrite decide_False by apply not_elem_of_nil.
  - change (step2_body delta (S1, a, S2) acc)
      with (value ← weight delta S1 a S2;
            Ok ({[S1; S2]} ∪ acc.1, <[(S1, a, S2) := value]> acc.2)).
    destruct (weight delta S1 a S2) as [v|e] eqn:Hw; [|done].
    intros [HQ HD]%IH. cbn in HQ, HD. split.
    + intros S. rewrite HQ. rewrite elem_of_union, elem_of_union.
      rewrite !elem_of_singleton. split.
      * intros [[[->| ->]|?]|(T1 & b & T2 & ? & ?)]; try auto.
        -- right. exists S1, a, S2. split; [left|auto].
        -- right. exists S1, a, S2. split; [left|auto].
        -- right. exists T1, b, T2. split; [by right|done].
      * intros [?|(T1 & b & T2 & [Heq|?]%elem_of_cons & Hor)]; [auto| |].
        -- simplify_eq. destruct Hor; auto.
        -- right. by exists T1, b, T2.
    + intros t. rewrite HD. clear HD HQ IH.
      destruct (decide (t ∈ l)) as [Hin|Hin].
      * rewrite decide_True; [done|by right].
      * rewrite lookup_insert.
        destruct (decide ((S1, a, S2) = t)) as [<-|Hne].
        -- rewrite decide_True by left. unfold weight_of.
           cbn [fst snd]. by rewrite Hw.
        -- rewrite decide_False; [done|].
           by intros [?|?]%elem_of_cons.
Qed.

Lemma is_final_loop_sound (F : list Z) (l : list string) :
  ∀ (acc r : gset string),
    for_in l (λ state (acc : gset string),
      b ← any_final F state;
      Ok (if (b : bool) then {[state]} ∪ acc else acc)) acc = Ok r →
    ∀ S, S ∈ r ↔ S ∈ acc ∨ (S ∈ l ∧ any_final F S = Ok true).
Proof.
  induction l as [|x l IH]; intros acc r; cbn [for_in].
  - intros [= <-] S. split; [auto|]. by intros [?|[?%elem_of_nil _]].
  - destruct (any_final F x) as [b|e] eqn:Hb; cbn; [|done].
    intros Hr S. rewrite (IH _ _ Hr S). rewrite elem_of_cons.
    destruct b.
    + rewrite elem_of_union, elem_of_singleton. split.
      * intros [[->|?]|[? ?]]; auto.
      * intros [?|[[->|?] ?]]; auto.
    + split; [intros [?|[? ?]]; auto|].
      intros [?|[[->|?] ?]]; [auto|congruence|auto].
Qed.

Lemma is_final_sound (F : list Z) (X Y : gset string) :
  is_final F X = Ok Y → ∀ S, S ∈ Y ↔ S ∈ X ∧ any_final F S = Ok true.
Proof.
  intros H S. rewrite (is_final_loop_sound F _ _ _ H S).
  rewrite elem_of_elements. split; [|auto].
  by intros [?%not_elem_of_empty|?].
Qed.

Lemma step2_sound (initial : Z) (F : list Z) (ts : gset dtrans) fpda :
  step2 delta initial F ts = Ok fpda →
  initD fpda = pretty initial
  ∧ QD fpda = states_of ts
  ∧ (∀ S, S ∈ FD fpda ↔ S ∈ states_of ts ∧ any_final F S = Ok true)
  ∧ (∀ t, deltaD fpda !! t
          = if decide (t ∈ ts) then weight_of delta t else None).
Proof.
  unfold step2.
  destruct (for_in (elements ts) _ (∅, ∅)) as [r|e] eqn:Hloop; cbn; [|done].
  destruct (is_final F r.1) as [Y|e] eqn:Hfin; cbn; [|done].
  intros [= <-]. cbn.
  apply (step2_loop_sound (elements ts) (∅, ∅) r) in Hloop as [HQ HD].
  assert (r.1 = states_of ts) as HQD.
  { apply set_eq. intros S. rewrite HQ, elem_of_states_of. cbn.
    setoid_rewrite elem_of_elements. split; [|auto].
    by intros [?%not_elem_of_empty|?]. }
  split_and!; [done|done| |].
  - intros S. rewrite <-HQD. by apply is_final_sound.
  - intros t. rewrite HD. cbn. rewrite lookup_empty.
    destruct (decide (t ∈ elements ts)) as [Hin|Hin];
      rewrite elem_of_elements in Hin.
    + by rewrite decide_True.
    + by rewrite decide_False.
Qed.
End Step2.

(** ** Termination and the size of the result *)

Lemma size_dstates_bound (Q : list Z) (X : gset string) :
  (∀ S, S ∈ X → S ∈ dstates Q) → (size X ≤ 2 ^ length Q - 1)%nat.
Proof.
  intros HX. rewrite <-length_dstates.
  etrans; [|apply size_list_to_set_le].
  apply subseteq_size. intros S HS. apply elem_of_list_to_set. by apply HX.
Qed.

Lemma step1_ok (Sigma : list ascii) (Q : list Z) (delta : gmap key TV)
    (initial : Z) :
  total Sigma Q delta → initial ∈ Q →
  ∃ ts, trans_ok Sigma Q ts ∧ ∀ fuel, (2 ^ length Q ≤ fuel)%nat →
    step1 fuel Sigma Q delta initial = Some (Ok ts).
Proof.
  intros Htot Hinit.
  apply (step1_while_ok Sigma Q delta initial Htot Hinit);
    [apply while_inv_init|].
  unfold unseen. eapply Nat.le_lt_trans.
  - apply subseteq_size, subseteq_difference_l. reflexivity.
  - eapply Nat.le_lt_trans; [apply size_list_to_set_le|].
    rewrite length_dstates.
    assert (2 ^ length Q ≠ 0)%nat by (apply Nat.pow_nonzero; lia). lia.
Qed.

(** C5 (amended). For a completed relation and an initial state of [Q],
    [step1] terminates: [2^|Q|] rounds are enough, and it returns a set of
    transitions.  The words that survive a round and are handed to
    [add_letter] reach non-empty subsets of [Q] whose encodings are pairwise
    different, so that no subset is extended from twice by such words; the
    seeding of the frontier with the symbols of [Sigma], which extends
    [{initial}], is not among them.  The states of the transitions [step1]
    returns, which are the states [step2] registers, are at most
    [2^|Q| - 1]. *)
Theorem step1_terminates (Sigma : list ascii) (Q : list Z)
    (delta0 : gmap key TV) (initial : Z) :
  let delta := complete Sigma Q delta0 in
  initial ∈ Q →
  ∃ ts,
    (∀ fuel, (2 ^ length Q ≤ fuel)%nat →
       step1 fuel Sigma Q delta initial = Some (Ok ts))
    ∧ (∀ fuel,
         let extended :=
           step1_extended fuel Sigma Q delta initial ∅ (seed Sigma) ∅ in
         NoDup (to_state <$> (reached Q delta initial <$> extended))
         ∧ ∀ u, u ∈ extended →
             ∃ r, reach Q delta initial u = Ok r ∧ r ≠ []
                  ∧ r `sublist_of` Q)
    ∧ (size (states_of ts) ≤ 2 ^ length Q - 1)%nat
    ∧ (∀ F fpda, step2 delta initial F ts = Ok fpda →
         (size (QD fpda) ≤ 2 ^ length Q - 1)%nat).
Proof.
  intros delta Hinit.
  assert (Htot : total Sigma Q delta) by apply complete_total.
  pose proof (while_inv_init Sigma Q delta initial) as Hinv.
  destruct (step1_ok Sigma Q delta initial Htot Hinit) as (ts & Hts & Hfuel).
  assert (Hstates : ∀ S, S ∈ states_of ts → S ∈ dstates Q).
  { intros S (S1 & a & S2 & Hin & HS)%elem_of_states_of.
    destruct (Hts _ _ _ Hin) as (? & _ & ?). by destruct HS as [-> | ->]. }
  exists ts. split_and!.
  - done.
  - intros fuel extended.
    destruct (step1_extended_distinct Sigma Q delta initial Htot Hinit fuel
                ∅ (seed Sigma) ∅ Hinv) as [Hnd Hex].
    split.
    + by rewrite <-list_fmap_compose.
    + intros u Hu. destruct (Hex u Hu) as ([_ Hw] & Hne & _).
      exists (reached Q delta initial u). split_and!.
      * by apply (reach_reached Sigma).
      * intros Hnil. apply Hne. unfold encode. by rewrite Hnil.
      * apply reached_sublist.
  - by apply size_dstates_bound.
  - intros F fpda (_ & -> & _)%step2_sound. by apply size_dstates_bound.
Qed.

Lemma step1_terminates_witness :
  ∃ ts,
    step1 16 Example5.Sigma Example5.Q Example5.delta Example5.initial
      = Some (Ok ts)
    ∧ (size (states_of ts) ≤ 15)%nat.
Proof.
  destruct (step1_terminates Example5.Sigma Example5.Q Example5.delta0
              Example5.initial ltac:(by_compute))
    as (ts & Hfuel & _ & Hsize & _).
  exists ts. split; [|exact Hsize].
  apply Hfuel. cbn. lia.
Defined.

(** On Example 5 the subset [{0}] is extended from twice.  The seed holds the
    extensions [a] and [b] of the empty word, and the loop reads them from the
    state [to_state({initial})], the encoding of [{0}]; the word [b] reaches
    [{0}] again, survives the first round and is handed to [add_letter], so
    that [ba] and [bb] are read from the encoding of [{0}] a second time. *)
Lemma step1_terminates_counterexample :
  seed Example5.Sigma = add_letter Example5.Sigma [""]
  ∧ prev_of Example5.initial ∅ "a" = to_state [0]
  ∧ prev_of Example5.initial ∅ "b" = to_state [0]
  ∧ reach Example5.Q Example5.delta Example5.initial "" = Ok [0]
  ∧ reach Example5.Q Example5.delta Example5.initial "b" = Ok [0]
  ∧ step1_extended 10 Example5.Sigma Example5.Q Example5.delta
      Example5.initial ∅ (seed Example5.Sigma) ∅ = ["a"; "b"; "ab"]
  ∧ ¬ NoDup (to_state <$>
              (reached Example5.Q Example5.delta Example5.initial <$>
                 "" :: step1_extended 10 Example5.Sigma Example5.Q
                         Example5.delta Example5.initial ∅
                         (seed Example5.Sigma) ∅)).
Proof.
  split_and!; by_compute.
Qed.

(** ** An automaton without transitions from the initial state *)

Lemma dead_round (Q : list Z) (delta : gmap key TV) (initial : Z)
    (l : list string) :
  (∀ w, w ∈ l → ∃ a, w = String a EmptyString
                     ∧ reach Q delta initial w = Ok []) →
  ∀ s, words s ≡ₚ l → transitions s = ∅ →
    ∃ s', for_in l (step1_body Q delta initial) s = Ok s'
          ∧ words s' = [] ∧ transitions s' = ∅.
Proof.
  induction l as [|w l IH]; intros Hl s Hperm Hts.
  - exists s. split_and!; [done| |done]. by apply Permutation_nil_r.
  - destruct (Hl w) as (a & -> & Hreach); [left|].
    destruct (list_remove_ok (String a "") (words s)) as (l' & Hrem & Hl').
    { rewrite Hperm. left. }
    assert (Hbody : step1_body Q delta initial (String a "") s
      = Ok (Vars (transitions s) l' (<[String a "" := ""]> (words_states s)))).
    { unfold step1_body. rewrite Hreach. cbn.
      by rewrite orb_true_r, andb_false_r, Hrem. }
    cbn [for_in]. rewrite Hbody. cbn.
    apply IH; cbn; [|by eapply Permutation_cons_inv; rewrite <-Hl'|done].
    intros w Hw. apply Hl. by right.
Qed.

(** C8. When no symbol leads anywhere from the initial state, [step1]
    returns the empty set of transitions, and [step2] then registers no
    state at all: the set of states it builds is empty, it does not hold the
    initial state. *)
Theorem no_transition_no_state (Sigma : list ascii) (Q : list Z)
    (delta : gmap key TV) (initial : Z) (F : list Z) (fuel : nat) :
  (∀ a, a ∈ Sigma → reach Q delta initial (String a EmptyString) = Ok []) →
  step1 (S fuel) Sigma Q delta initial = Some (Ok ∅)
  ∧ step2 delta initial F ∅ = Ok (Fpda (pretty initial) ∅ ∅ ∅)
  ∧ (∀ fpda, step2 delta initial F ∅ = Ok fpda →
       initD fpda = to_state [initial] ∧ QD fpda = ∅
       ∧ to_state [initial] ∉ QD fpda).
Proof.
  intros Hdead. split_and!; [|done|].
  2: { intros fpda [= <-]. split_and!; [done..|apply not_elem_of_empty]. }
  unfold step1. destruct Sigma as [|a Sigma']; [done|].
  destruct (dead_round Q delta initial (seed (a :: Sigma')))
    with (s := Vars ∅ (seed (a :: Sigma')) ∅) as (s' & Hrun & Hw & Ht);
    [|done|done|].
  { intros w (b & -> & Hb)%list_elem_of_fmap. exists b. split; [done|].
    by apply Hdead. }
  unfold seed in *. cbn [fmap list_fmap] in *. cbn [step1_while].
  rewrite Hrun, Hw, Ht. by destruct fuel.
Qed.

Lemma no_transition_no_state_witness :
  step1 1 ["a"%char] [0] (complete ["a"%char] [0] ∅) 0 = Some (Ok ∅)
  ∧ step2 (complete ["a"%char] [0] ∅) 0 [0] ∅ = Ok (Fpda "0" ∅ ∅ ∅).
Proof.
  destruct (no_transition_no_state ["a"%char] [0]
              (complete ["a"%char] [0] ∅) 0 [0] 0) as (Hs1 & Hs2 & _).
  - intros a ->%list_elem_of_singleton. by_compute.
  - by split.
Defined.

(** ** States that are decimal digits *)

Lemma pretty_digit q :
  0 ≤ q ≤ 9 →
  pretty q = String (digit_char q) "" ∧ int_of_char (digit_char q) = Ok q.
Proof.
  intros Hq.
  assert (q = 0 ∨ q = 1 ∨ q = 2 ∨ q = 3 ∨ q = 4 ∨ q = 5 ∨ q = 6 ∨ q = 7
          ∨ q = 8 ∨ q = 9) as Hcases by lia.
  repeat (destruct Hcases as [->|Hcases]; [split; by vm_compute|]).
  subst. split; by vm_compute.
Qed.

Lemma concat_empty_cons (x : string) (xs : list string) :
  String.concat "" (x :: xs) = x +:+ String.concat "" xs.
Proof.
  destruct xs as [|y xs]; [|done].
  change (x = x +:+ "").
  induction x as [|c x IH]; [done|].
  change (String c x = String c (x +:+ "")). by f_equal.
Qed.

Lemma concat_pretty_digits (l : list Z) :
  digits l →
  list_ascii_of_string (String.concat "" (pretty <$> l)) = digit_char <$> l.
Proof.
  induction l as [|q l IH]; intros Hl; [done|].
  rewrite fmap_cons, concat_empty_cons.
  destruct (pretty_digit q) as [-> _]; [apply Hl; left|].
  change (digit_char q :: list_ascii_of_string (String.concat "" (pretty <$> l))
          = digit_char q :: (digit_char <$> l)).
  f_equal. apply IH. intros ??. apply Hl. by right.
Qed.

Lemma digits_sorted (l : list Z) : digits l → digits (merge_sort Z.le l).
Proof.
  intros Hl q Hq. apply Hl. by rewrite merge_sort_Permutation in Hq.
Qed.

Lemma to_state_digits (X : list Z) :
  digits X →
  list_ascii_of_string (to_state X) = digit_char <$> merge_sort Z.le X.
Proof. intros HX. by apply concat_pretty_digits, digits_sorted. Qed.

Lemma string_of_list_ascii_inj (s1 s2 : string) :
  list_ascii_of_string s1 = list_ascii_of_string s2 → s1 = s2.
Proof.
  intros H. rewrite <-(string_of_list_ascii_of_string s1).
  rewrite <-(string_of_list_ascii_of_string s2). by rewrite H.
Qed.

Lemma for_in_fmap_ok {A B S} (g : A → B) (f : S → A → S) (l : list A)
    (body : B → S → result S) s :
  (∀ x s, x ∈ l → body (g x) s = Ok (f s x)) →
  for_in (g <$> l) body s = Ok (foldl f s l).
Proof.
  revert s. induction l as [|x l IH]; intros s Hbody; [done|].
  cbn. rewrite Hbody by left. cbn. apply IH.
  intros ???. apply Hbody. by right.
Qed.

Lemma aggregate_nested (delta : gmap key TV) (a : ascii) (X Y : list Z) v0 :
  foldl (λ value p,
    foldl (λ value q, TwistOr value (entry delta p a q)) value Y) v0 X
  = foldl (λ value pq, TwistOr value (entry delta pq.1 a pq.2)) v0
      (p ← X; q ← Y; [(p, q)]).
Proof.
  revert v0. induction X as [|p X IH]; intros v0; [done|].
  cbn [foldl]. rewrite bind_cons, foldl_app, IH. f_equal.
  generalize v0. clear. induction Y as [|q Y IH]; intros v0; [done|].
  cbn. apply IH.
Qed.

Section Digits.
Variables (Sigma : list ascii) (Q : list Z) (delta : gmap key TV).
Hypothesis delta_total : total Sigma Q delta.
Hypothesis Q_digits : digits Q.

Lemma subset_digits (X : list Z) : X ⊆ Q → digits X.
Proof. intros HX q Hq. by apply Q_digits, HX. Qed.

Lemma weight_digits (X Y : list Z) (a : ascii) :
  a ∈ Sigma → X ⊆ Q → Y ⊆ Q →
  weight delta (to_state X) a (to_state Y)
  = Ok (aggregate delta (merge_sort Z.le X) a (merge_sort Z.le Y)).
Proof.
  intros Ha HX HY. unfold weight, aggregate.
  rewrite !to_state_digits by by apply subset_digits.
  rewrite <-aggregate_nested.
  apply for_in_fmap_ok. intros p value Hp.
  apply for_in_fmap_ok. intros q value' Hq.
  rewrite merge_sort_Permutation in Hp, Hq.
  destruct (pretty_digit p) as [_ ->]; [by apply Q_digits, HX|].
  destruct (pretty_digit q) as [_ ->]; [by apply Q_digits, HY|].
  cbn. rewrite (delta_get_total Sigma Q) by auto. done.
Qed.

Lemma any_final_digits (F : list Z) (L : list Z) : ∀ s,
  list_ascii_of_string s = digit_char <$> L → digits L →
  any_final F s = Ok (bool_decide (Exists (λ q, q ∈ F) L)).
Proof.
  induction L as [|q L IH]; intros s Hs HL.
  - by destruct s.
  - destruct s as [|c s]; [done|]. cbn in Hs. injection Hs as -> Hs.
    cbn [any_final].
    destruct (pretty_digit q) as [_ ->]; [apply HL; left|]. cbn.
    destruct (decide (q ∈ F)) as [Hq|Hq].
    + by rewrite bool_decide_eq_true_2 by by left.
    + rewrite (IH s Hs) by (intros ??; apply HL; by right).
      f_equal. apply bool_decide_ext. rewrite Exists_cons. tauto.
Qed.

Lemma any_final_to_state (F : list Z) (X : list Z) :
  X ⊆ Q →
  any_final F (to_state X) = Ok (bool_decide (Exists (λ q, q ∈ F) X)).
Proof.
  intros HX.
  rewrite (any_final_digits F (merge_sort Z.le X)).
  - f_equal. apply bool_decide_ext. rewrite !Exists_exists.
    by setoid_rewrite merge_sort_Permutation.
  - by apply to_state_digits, subset_digits.
  - by apply digits_sorted, subset_digits.
Qed.

Lemma dstate_subset S :
  S ∈ dstates Q → ∃ X, X ≠ [] ∧ X `sublist_of` Q ∧ S = to_state X.
Proof.
  intros (X & -> & [? ?]%nonempty_sublists_sound)%list_elem_of_fmap.
  by exists X.
Qed.

Lemma step2_total (initial : Z) (F : list Z) (ts : gset dtrans) :
  trans_ok Sigma Q ts → ∃ fpda, step2 delta initial F ts = Ok fpda.
Proof.
  intros Hts. unfold step2.
  destruct (for_in_total (elements ts) (step2_body delta) (∅, ∅))
    as [r Hr].
  { intros [[S1 a] S2] acc Hin%elem_of_elements.
    destruct (Hts _ _ _ Hin) as (H1 & Ha & H2).
    apply dstate_subset in H1 as (X & _ & HX%sublist_subseteq & ->).
    apply dstate_subset in H2 as (Y & _ & HY%sublist_subseteq & ->).
    unfold step2_body. rewrite weight_digits by done. by eexists. }
  rewrite Hr. cbn.
  destruct (for_in_total (elements r.1) (λ state (acc : gset string),
              b ← any_final F state;
              Ok (if (b : bool) then {[state]} ∪ acc else acc)) ∅)
    as [Y HY].
  { intros S acc HS%elem_of_elements.
    apply (step2_loop_sound delta _ _ _ Hr) in HS
      as [?%not_elem_of_empty|(S1 & a & S2 & Hin%elem_of_elements & HS)];
      [done|].
    destruct (Hts _ _ _ Hin) as (H1 & _ & H2).
    assert (S ∈ dstates Q) as (X & _ & HX%sublist_subseteq & ->)%dstate_subset
      by (by destruct HS as [-> | ->]).
    rewrite any_final_to_state by done. by eexists. }
  unfold is_final. rewrite HY. by eexists.
Qed.
End Digits.

(** ** Weights and final states *)

(** C3.  On the automaton with the states [0], [1] and [10] and
    [delta(0, a, 10) = (0.5, 0.5)], [step1] returns the transition from the
    encoding of [{0}] to the encoding of [{10}] on [a], and the weight
    [step2] gives it is [(0, 1)], not the [TwistOr]-fold [(0.5, 0.5)] of
    [delta(p, a, q)] over the [p] of [{0}] and the [q] of [{10}]: [step2]
    reads the encoding ["10"] of [{10}] as the states [1] and [0]. *)
Theorem step2_weights_multidigit :
  step1 10 Multidigit.Sigma Multidigit.Q Multidigit.delta Multidigit.initial
    = Some (Ok Multidigit.transitions)
  ∧ step2 Multidigit.delta Multidigit.initial Multidigit.F
      Multidigit.transitions = Ok Multidigit.fpda
  ∧ reach Multidigit.Q Multidigit.delta Multidigit.initial "a" = Ok [10]
  ∧ (to_state [0], "a"%char, to_state [10]) ∈ Multidigit.transitions
  ∧ deltaD Multidigit.fpda !! (to_state [0], "a"%char, to_state [10])
    = Some (0, 1)%Q
  ∧ aggregate Multidigit.delta [0] "a" [10] = (0.5, 0.5)%Q
  ∧ deltaD Multidigit.fpda !! (to_state [0], "a"%char, to_state [10])
    ≠ Some (aggregate Multidigit.delta [0] "a" [10]).
Proof.
  split_and!.
  - by_compute.
  - by_compute.
  - by_compute.
  - by_compute.
  - by_compute.
  - by_compute.
  - by_compute.
Qed.

(** X23.  When the initial state is in [Q] and every state of [Q] is a
    decimal digit, [step2]
    returns, every transition [(S1, a, S2)] that [step1] produced links the
    encodings of two subsets of [Q], and for subsets [X] and [Y] that [S1] and
    [S2] encode the weight [step2] gives the transition is the [TwistOr]-fold,
    from [(0,1)], of [delta(p, a, q)] over the pairs of a [p] of [X] and a
    [q] of [Y], taken in increasing order. *)
Theorem step2_weights (Sigma : list ascii) (Q : list Z)
    (delta0 : gmap key TV) (initial : Z) (F : list Z) (fuel : nat)
    (ts : gset dtrans) :
  let delta := complete Sigma Q delta0 in
  initial ∈ Q → digits Q →
  step1 fuel Sigma Q delta initial = Some (Ok ts) →
  ∃ fpda,
    step2 delta initial F ts = Ok fpda
    ∧ ∀ S1 a S2, (S1, a, S2) ∈ ts →
        (∃ X Y, X ⊆ Q ∧ Y ⊆ Q ∧ S1 = to_state X ∧ S2 = to_state Y)
        ∧ ∀ X Y, X ⊆ Q → Y ⊆ Q → S1 = to_state X → S2 = to_state Y →
            deltaD fpda !! (S1, a, S2)
            = Some (aggregate delta (merge_sort Z.le X) a (merge_sort Z.le Y)).
Proof.
  intros delta Hinit Hdig Hstep1.
  assert (Htot : total Sigma Q delta) by apply complete_total.
  pose proof (step1_sound Sigma Q delta initial Htot Hinit fuel ts Hstep1)
    as Hts.
  destruct (step2_total Sigma Q delta Htot Hdig initial F ts Hts)
    as [fpda Hfpda].
  exists fpda. split; [done|].
  apply step2_sound in Hfpda as (_ & _ & _ & HD).
  intros S1 a S2 Hin. destruct (Hts _ _ _ Hin) as (H1 & Ha & H2). split.
  - apply dstate_subset in H1 as (X & _ & HX%sublist_subseteq & ->).
    apply dstate_subset in H2 as (Y & _ & HY%sublist_subseteq & ->).
    by exists X, Y.
  - intros X Y HX HY -> ->. rewrite HD, decide_True by done.
    unfold weight_of. cbn [fst snd].
    by rewrite (weight_digits Sigma Q).
Qed.

Lemma example5_step1 :
  step1 10 Example5.Sigma Example5.Q Example5.delta Example5.initial
  = Some (Ok Example5.transitions).
Proof. by_compute. Qed.

Lemma example5_digits : digits Example5.Q.
Proof.
  intros q Hq. unfold Example5.Q in Hq.
  repeat (apply elem_of_cons in Hq as [->|Hq]; [lia|]).
  by apply elem_of_nil in Hq.
Qed.

Lemma step2_weights_witness :
  ∃ fpda,
    step2 Example5.delta Example5.initial Example5.F Example5.transitions
      = Ok fpda
    ∧ deltaD fpda !! ("12", "b"%char, "03")
      = Some (aggregate Example5.delta [1; 2] "b" [0; 3]).
Proof.
  destruct (step2_weights Example5.Sigma Example5.Q Example5.delta0
              Example5.initial Example5.F 10 Example5.transitions
              ltac:(by_compute) example5_digits example5_step1)
    as (fpda & Hfpda & Hw).
  exists fpda. split; [done|].
  destruct (Hw "12" "b"%char "03" ltac:(by_compute)) as [_ Hagg].
  apply (Hagg [1; 2] [0; 3]).
  - apply sublist_subseteq. repeat constructor.
  - apply sublist_subseteq. repeat constructor.
  - by_compute.
  - by_compute.
Defined.

(** C6.  On the automaton with the states [0], [1] and [10], [F = [0]] and
    [delta(0, a, 10) = (0.5, 0.5)], the encoding ["10"] of [{10}] is
    registered in the state set and marked final, although [{10}] holds no
    state of [F]: [is_final] reads the characters of ["10"] as the states [1]
    and [0], and [0] is in [F]. *)
Theorem final_states_multidigit :
  step1 10 Multidigit.Sigma Multidigit.Q Multidigit.delta Multidigit.initial
    = Some (Ok Multidigit.transitions)
  ∧ step2 Multidigit.delta Multidigit.initial Multidigit.F
      Multidigit.transitions = Ok Multidigit.fpda
  ∧ reach Multidigit.Q Multidigit.delta Multidigit.initial "a" = Ok [10]
  ∧ to_state [10] ∈ QD Multidigit.fpda
  ∧ to_state [10] ∈ FD Multidigit.fpda
  ∧ ¬ ∃ q, q ∈ [10] ∧ q ∈ Multidigit.F.
Proof.
  split_and!; [by_compute..|].
  intros (q & ->%list_elem_of_singleton & Hq). revert Hq. by_compute.
Qed.

(** X24.  When the initial state is in [Q] and every state of [Q] is a
    decimal digit, [step2]
    returns, every state [S] it registers is the encoding of a non-empty
    subset of [Q], and for a subset [X] that [S] encodes, [S] is among the
    final states if and only if a member of [X] is in [F].  On Example 5 the
    encoding of [{0}] is final and the encoding of [{1,2}] is registered and
    not final. *)
Theorem final_states :
  (∀ (Sigma : list ascii) (Q : list Z) (delta0 : gmap key TV) (initial : Z)
     (F : list Z) (fuel : nat) (ts : gset dtrans),
     let delta := complete Sigma Q delta0 in
     initial ∈ Q → digits Q →
     step1 fuel Sigma Q delta initial = Some (Ok ts) →
     ∃ fpda,
       step2 delta initial F ts = Ok fpda
       ∧ ∀ S, S ∈ QD fpda →
           (∃ X, X ≠ [] ∧ X ⊆ Q ∧ S = to_state X)
           ∧ ∀ X, X ⊆ Q → S = to_state X →
               (S ∈ FD fpda ↔ ∃ q, q ∈ X ∧ q ∈ F))
  ∧ (step1 10 Example5.Sigma Example5.Q Example5.delta Example5.initial
       = Some (Ok Example5.transitions)
     ∧ step2 Example5.delta Example5.initial Example5.F Example5.transitions
       = Ok Example5.fpda
     ∧ to_state [0] ∈ QD Example5.fpda
     ∧ to_state [1; 2] ∈ QD Example5.fpda
     ∧ to_state [0] ∈ FD Example5.fpda
     ∧ to_state [1; 2] ∉ FD Example5.fpda).
Proof.
  split; [|split_and!; by_compute].
  intros Sigma Q delta0 initial F fuel ts delta Hinit Hdig Hstep1.
  assert (Htot : total Sigma Q delta) by apply complete_total.
  pose proof (step1_sound Sigma Q delta initial Htot Hinit fuel ts Hstep1)
    as Hts.
  destruct (step2_total Sigma Q delta Htot Hdig initial F ts Hts)
    as [fpda Hfpda].
  exists fpda. split; [done|].
  apply step2_sound in Hfpda as (_ & HQD & HFD & _).
  intros S HS. rewrite HQD in HS. split.
  - apply elem_of_states_of in HS as (S1 & a & S2 & Hin & HS).
    destruct (Hts _ _ _ Hin) as (H1 & _ & H2).
    assert (S ∈ dstates Q) as (X & ? & HX%sublist_subseteq & ->)%dstate_subset
      by (by destruct HS as [-> | ->]).
    by exists X.
  - intros X HX ->. rewrite HFD.
    rewrite (any_final_to_state Q Hdig) by done.
    rewrite <-Exists_exists. split.
    + intros [_ [= Hb]]. by apply bool_decide_eq_true in Hb.
    + intros Hex. split; [done|]. f_equal. by apply bool_decide_eq_true.
Qed.

Lemma final_states_witness :
  ∃ fpda,
    step2 Example5.delta Example5.initial Example5.F Example5.transitions
      = Ok fpda
    ∧ ("03" ∈ FD fpda ↔ ∃ q, q ∈ [0; 3] ∧ q ∈ Example5.F).
Proof.
  destruct final_states as [Hgen _].
  destruct (Hgen Example5.Sigma Example5.Q Example5.delta0
              Example5.initial Example5.F 10%nat Example5.transitions
              ltac:(by_compute) example5_digits example5_step1)
    as (fpda & Hfpda & Hfin).
  exists fpda. split; [done|].
  destruct (Hfin "03") as [_ HX].
  { destruct (step2_sound _ _ _ _ _ Hfpda) as (_ & -> & _). by_compute. }
  apply (HX [0; 3]); [|by_compute].
  apply sublist_subseteq. repeat constructor.
Defined.

(** ** Ill-formed input *)

(** Nothing is refused: a truth value outside the unit square, a final state
    outside [Q] and a key outside [Q] and [Sigma] go through, and an initial
    state outside [Q] makes [step1] raise [KeyError]. *)
Lemma input_validation_counterexample :
  (returns (determinization 10 ["a"%char] [0; 1] 0 [0]
              (list_to_map [((0, "a"%char, 1), (2, -1)%Q)])) = true
   ∧ ¬ in_unit (2, -1)%Q)
  ∧ returns (determinization 10 ["a"%char] [0; 1] 0 [0; 5]
               (list_to_map [((0, "a"%char, 1), (1, 0)%Q)])) = true
  ∧ returns (determinization 10 ["a"%char] [0; 1] 0 [0]
               (list_to_map [((0, "a"%char, 1), (1, 0)%Q);
                             ((7, "z"%char, 8), (1, 0)%Q)])) = true
  ∧ determinization 10 ["a"%char] [0; 1] 7 [0]
      (list_to_map [((0, "a"%char, 1), (1, 0)%Q)]) = Some (Raise KeyError)
  ∧ step1 10 ["a"%char] [0; 1]
      (complete ["a"%char] [0; 1]
         (list_to_map [((0, "a"%char, 1), (1, 0)%Q)])) 7
    = Some (Raise KeyError).
Proof.
  split_and!; try by_compute.
  intros [[_ H] _]. by vm_compute in H.
Qed.

Lemma deltastar_bad_source (Q : list Z) (delta : gmap key TV)
    (q1 : Z) (a : ascii) (w : string) (q2 r0 : Z) (Q' : list Z) :
  Q = r0 :: Q' → delta !! (q1, a, r0) = None →
  deltastar Q delta q1 (String a w) q2 = Raise KeyError.
Proof.
  intros -> Hk. cbn [deltastar for_in]. unfold delta_get. by rewrite Hk.
Qed.

Lemma step1_bad_initial (Sigma : list ascii) (Q : list Z)
    (delta : gmap key TV) (initial : Z) (fuel : nat) :
  Sigma ≠ [] → Q ≠ [] → (∀ a r, delta !! (initial, a, r) = None) →
  step1 (S fuel) Sigma Q delta initial = Some (Raise KeyError).
Proof.
  intros HS HQ Hk.
  destruct Sigma as [|a Sigma']; [done|]. destruct Q as [|r0 Q']; [done|].
  assert (Hbody : ∀ s, step1_body (r0 :: Q') delta initial (String a "") s
                       = Raise KeyError).
  { intros s. unfold step1_body, reach. cbn [for_in].
    by rewrite (deltastar_bad_source _ _ _ _ _ _ r0 Q'). }
  unfold step1, seed. cbn [fmap list_fmap step1_while for_in].
  by rewrite Hbody.
Qed.

(** C9 (amended). The program does not check its input.  Whatever the final
    states, the truth values and the keys of the raw relation are,
    [determinization] runs to its end and returns an automaton when the
    initial state is in [Q] and the states are decimal digits.  An initial
    state that is not in [Q], and starts no raw transition, is not refused
    before the algorithm runs when [Sigma] and [Q] are not empty: [step1]
    raises [KeyError]. *)
Theorem no_input_validation (Sigma : list ascii) (Q : list Z)
    (delta0 : gmap key TV) (initial : Z) (F : list Z) :
  (initial ∈ Q → digits Q →
     ∃ fpda, ∀ fuel, (2 ^ length Q ≤ fuel)%nat →
       determinization fuel Sigma Q initial F delta0 = Some (Ok fpda))
  ∧ (initial ∉ Q → Sigma ≠ [] → Q ≠ [] →
       (∀ a r, delta0 !! (initial, a, r) = None) →
       ∀ fuel,
         step1 (S fuel) Sigma Q (complete Sigma Q delta0) initial
           = Some (Raise KeyError)
         ∧ determinization (S fuel) Sigma Q initial F delta0
           = Some (Raise KeyError)).
Proof.
  split.
  - intros Hinit Hdig.
    assert (Htot : total Sigma Q (complete Sigma Q delta0))
      by apply complete_total.
    destruct (step1_ok Sigma Q _ initial Htot Hinit) as (ts & Hts & Hfuel).
    destruct (step2_total Sigma Q _ Htot Hdig initial F ts Hts)
      as [fpda Hfpda].
    exists fpda. intros fuel Hle. unfold determinization.
    rewrite (Hfuel fuel Hle). cbn. by rewrite Hfpda.
  - intros Hinit HS HQ Hraw fuel.
    assert (Hstep1 : step1 (S fuel) Sigma Q (complete Sigma Q delta0) initial
                     = Some (Raise KeyError)).
    { apply step1_bad_initial; [done..|]. intros a r.
      rewrite complete_lookup, Hraw. rewrite decide_False; [done|].
      rewrite elem_of_triples. tauto. }
    split; [done|]. unfold determinization. by rewrite Hstep1.
Qed.

Lemma no_input_validation_witness :
  (∃ fpda, determinization 16 Example5.Sigma Example5.Q Example5.initial
             Example5.F Example5.delta0 = Some (Ok fpda))
  ∧ step1 1 Example5.Sigma Example5.Q Example5.delta 7
    = Some (Raise KeyError).
Proof.
  split.
  - destruct (no_input_validation Example5.Sigma Example5.Q Example5.delta0
                Example5.initial Example5.F) as [Hok _].
    destruct (Hok ltac:(by_compute) example5_digits) as [fpda Hfpda].
    exists fpda. apply Hfpda. cbn. lia.
  - destruct (no_input_validation Example5.Sigma Example5.Q Example5.delta0
                7 Example5.F) as [_ Hbad].
    apply (Hbad ltac:(by_compute) ltac:(discriminate) ltac:(discriminate)).
    intros a r. apply not_elem_of_list_to_map_1. cbn.
    rewrite !not_elem_of_cons. split_and!; try discriminate.
    apply not_elem_of_nil.
Defined.

(** * Further properties of the code *)


(** ** More on the truth algebra *)

Lemma TwistAnd_TwistOr_distr (x y z : TV) :
  tv_eq (TwistAnd x (TwistOr y z)) (TwistOr (TwistAnd x y) (TwistAnd x z)).
Proof.
  split; cbn.
  - apply Q.min_max_distr.
  - apply Q.max_min_distr.
Qed.

(** X1.  For all pairs of rationals, inside the unit square or not,
    [TwistAnd] and [TwistOr] absorb each other
    ([TwistOr x (TwistAnd x y) == x], [TwistAnd x (TwistOr x y) == x]) and
    distribute over each other. *)
Theorem twist_lattice (x y z : TV) :
  (tv_eq (TwistOr x (TwistAnd x y)) x ∧ tv_eq (TwistAnd x (TwistOr x y)) x)
  ∧ (tv_eq (TwistAnd x (TwistOr y z)) (TwistOr (TwistAnd x y) (TwistAnd x z))
     ∧ tv_eq (TwistOr x (TwistAnd y z)) (TwistAnd (TwistOr x y) (TwistOr x z))).
Proof.
  split; split; split; cbn.
  - apply Q.min_max_absorption.
  - apply Q.max_min_absorption.
  - apply Q.max_min_absorption.
  - apply Q.min_max_absorption.
  - apply Q.min_max_distr.
  - apply Q.max_min_distr.
  - apply Q.max_min_distr.
  - apply Q.min_max_distr.
Qed.

Lemma Qmin_select (a b : Q) : Qmin a b = a ∨ Qmin a b = b.
Proof.
  unfold Qmin, GenericMinMax.gmin. destruct (a ?= b)%Q; auto.
Qed.

Lemma Qmax_select (a b : Q) : Qmax a b = a ∨ Qmax a b = b.
Proof.
  unfold Qmax, GenericMinMax.gmax. destruct (a ?= b)%Q; auto.
Qed.

Lemma Qmin_same (a : Q) : Qmin a a = a.
Proof. destruct (Qmin_select a a); done. Qed.

Lemma Qmax_same (a : Q) : Qmax a a = a.
Proof. destruct (Qmax_select a a); done. Qed.

(** X2.  [TwistAnd] and [TwistOr] never make a new degree: each component
    of the result is the same component of one of the two operands; and
    [TwistAnd x x] and [TwistOr x x] are [x] itself. *)
Theorem twist_selects (x y : TV) :
  ((fst (TwistAnd x y) = fst x ∨ fst (TwistAnd x y) = fst y)
   ∧ (snd (TwistAnd x y) = snd x ∨ snd (TwistAnd x y) = snd y))
  ∧ ((fst (TwistOr x y) = fst x ∨ fst (TwistOr x y) = fst y)
     ∧ (snd (TwistOr x y) = snd x ∨ snd (TwistOr x y) = snd y))
  ∧ TwistAnd x x = x ∧ TwistOr x x = x.
Proof.
  split_and!; cbn;
    try first [apply Qmin_select | apply Qmax_select].
  - destruct x. unfold TwistAnd. cbn. by rewrite Qmin_same, Qmax_same.
  - destruct x. unfold TwistOr. cbn. by rewrite Qmin_same, Qmax_same.
Qed.

(** ** More on reachability *)

Lemma for_in_invariant {A S} (P : S → Prop) (l : list A)
    (body : A → S → result S) :
  (∀ x s s', x ∈ l → P s → body x s = Ok s' → P s') →
  ∀ s r, P s → for_in l body s = Ok r → P r.
Proof.
  induction l as [|x l IH]; intros Hbody s r Hs; cbn [for_in].
  - by intros [= <-].
  - destruct (body x s) as [s'|e] eqn:Hx; cbn; [|done].
    apply IH; [|by eapply Hbody; [left|..]].
    intros ?????. eapply Hbody; [by right|done..].
Qed.

Lemma reach_empty_loop (Q : list Z) (delta : gmap key TV) (p : Z) :
  ∀ l acc, acc = [] ∨ acc = [p] →
    for_in l (λ q acc,
      v ← deltastar Q delta p "" q;
      Ok (if negb (tv_eqb v bot) then
            (if decide (q ∈ acc) then acc else acc ++ [q])
          else acc)) acc
    = Ok (if decide (p ∈ acc ++ l) then [p] else []).
Proof.
  induction l as [|q l IH]; intros acc Hacc; cbn [for_in deltastar].
  - rewrite app_nil_r. destruct Hacc as [-> | ->].
    + by rewrite decide_False by apply not_elem_of_nil.
    + by rewrite decide_True by left.
  - cbn. destruct (decide (p = q)) as [<-|Hne].
    + cbn. rewrite IH.
      * rewrite decide_True; [|by destruct (decide (p ∈ acc)); set_solver].
        rewrite decide_True; [done|]. set_solver.
      * destruct Hacc as [-> | ->]; [by right|].
        by rewrite decide_True by left; right.
    + cbn. rewrite IH by done. f_equal.
      apply decide_ext. set_solver.
Qed.

(** X3.  On the empty word [reach] never raises: [reach(p, '')] is [{p}]
    when [p] is a state of [Q], and the empty set when it is not. *)
Theorem reach_empty_word (Q : list Z) (delta : gmap key TV) (p : Z) :
  reach Q delta p "" = Ok (if decide (p ∈ Q) then [p] else []).
Proof. unfold reach. rewrite reach_empty_loop by auto. done. Qed.

Lemma reach_loop_members (Q : list Z) (delta : gmap key TV) p w :
  ∀ l acc r,
    NoDup acc →
    for_in l (λ q acc,
      v ← deltastar Q delta p w q;
      Ok (if negb (tv_eqb v bot) then
            (if decide (q ∈ acc) then acc else acc ++ [q])
          else acc)) acc = Ok r →
    NoDup r
    ∧ ∀ q, q ∈ r ↔
        q ∈ acc
        ∨ (q ∈ l ∧ ∃ v, deltastar Q delta p w q = Ok v ∧ tv_eqb v bot = false).
Proof.
  induction l as [|x l IH]; intros acc r Hnd; cbn [for_in].
  - intros [= <-]. split; [done|]. intros q. split; [auto|].
    by intros [?|[?%elem_of_nil _]].
  - destruct (deltastar Q delta p w x) as [v|e] eqn:Hv; cbn; [|done].
    intros Hr. apply IH in Hr as [Hr Hmem].
    + split; [done|]. intros q. rewrite Hmem. clear Hmem.
      assert (HE : (∃ v', deltastar Q delta p w x = Ok v'
                          ∧ tv_eqb v' bot = false) ↔ tv_eqb v bot = false).
      { rewrite Hv. split; [by intros (v' & [= <-] & ?)|eauto]. }
      rewrite elem_of_cons.
      destruct (tv_eqb v bot) eqn:Hb; cbn.
      * split; [naive_solver|].
        intros [?|[[->|?] Hq]]; [auto| |auto]. by apply HE in Hq.
      * destruct (decide (x ∈ acc)).
        -- split; [naive_solver|]. intros [?|[[->|?] Hq]]; auto.
        -- rewrite elem_of_app, list_elem_of_singleton. split.
           ++ intros [[?| ->]|[? ?]]; [auto| |auto].
              right. split; [by left|]. by apply HE.
           ++ intros [?|[[->|?] ?]]; auto.
    + destruct (negb (tv_eqb v bot)); [|done].
      destruct (decide (x ∈ acc)); [done|].
      apply NoDup_app. split_and!; [done| |apply NoDup_singleton].
      by intros y Hy ->%list_elem_of_singleton.
Qed.

Lemma reach_members (Q : list Z) (delta : gmap key TV) (p : Z) (w : string)
    (r : list Z) :
  reach Q delta p w = Ok r →
  NoDup r
  ∧ ∀ q, q ∈ r ↔
      q ∈ Q ∧ ∃ v, deltastar Q delta p w q = Ok v ∧ tv_eqb v bot = false.
Proof.
  intros Hr.
  apply reach_loop_members in Hr as [Hnd Hmem]; [|constructor].
  split; [done|]. intros q. rewrite Hmem. split; [|auto].
  by intros [?%elem_of_nil|?].
Qed.

(** X4.  When [reach(p, w)] returns, its result lists states of [Q] in the
    order of [Q] and without repetition, and [q] is in it exactly when [q] is
    in [Q] and [deltastar(p, w, q)] returned a value different from
    [(0, 1)]. *)
Theorem reach_result (Q : list Z) (delta : gmap key TV) (p : Z) (w : string)
    (r : list Z) :
  reach Q delta p w = Ok r →
  r `sublist_of` Q ∧ NoDup r
  ∧ ∀ q, q ∈ r ↔
      q ∈ Q ∧ ∃ v, deltastar Q delta p w q = Ok v ∧ tv_eqb v bot = false.
Proof.
  intros Hr. split; [by eapply reach_sublist|]. by apply reach_members.
Qed.

Lemma reach_result_witness :
  [1; 2] `sublist_of` Example5.Q ∧ NoDup [1; 2]
  ∧ ∀ q, q ∈ [1; 2] ↔
      q ∈ Example5.Q
      ∧ ∃ v, deltastar Example5.Q Example5.delta 0 "a" q = Ok v
             ∧ tv_eqb v bot = false.
Proof.
  apply (reach_result Example5.Q Example5.delta 0 "a" [1; 2]). by_compute.
Defined.

(** ** More on the auxiliary functions *)

Lemma length_snoc_letter (u : string) (a : ascii) :
  String.length (snoc_letter u a) = S (String.length u).
Proof.
  unfold snoc_letter. induction u as [|c u IH]; [done|].
  change (S (String.length (u +:+ String a "")) = S (S (String.length u))).
  by rewrite IH.
Qed.

(** X5.  [add_letter(W)] has [len(W) * len(Sigma)] words; they are exactly
    the words [u + a] with [u] in [W] and [a] in [Sigma]; each is not empty,
    one symbol longer than the [u] it comes from, and gives [u] back as
    [w[:len(w)-1]]; the result is empty when [W] or [Sigma] is. *)
Theorem add_letter_words (Sigma : list ascii) (W : list string) :
  length (add_letter Sigma W) = (length W * length Sigma)%nat
  ∧ (∀ w, w ∈ add_letter Sigma W ↔
       ∃ u a, u ∈ W ∧ a ∈ Sigma ∧ w = snoc_letter u a)
  ∧ (∀ w, w ∈ add_letter Sigma W →
       w ≠ "" ∧ ∃ u, u ∈ W ∧ String.length w = S (String.length u)
                     ∧ str_init w = u)
  ∧ add_letter Sigma [] = [] ∧ add_letter [] W = [].
Proof.
  split_and!.
  - unfold add_letter. induction W as [|u W IH]; [done|].
    rewrite bind_cons, length_app, IH.
    assert (length (Sigma ≫= λ a, [snoc_letter u a]) = length Sigma) as ->.
    { clear. induction Sigma as [|a Sigma IH]; [done|]. cbn. by f_equal. }
    cbn [length]. lia.
  - apply elem_of_add_letter.
  - intros w (u & a & Hu & Ha & ->)%elem_of_add_letter.
    split; [apply snoc_letter_nonempty|]. exists u.
    by rewrite length_snoc_letter, str_init_snoc.
  - done.
  - unfold add_letter. induction W as [|u W IH]; [done|].
    by rewrite bind_cons, IH.
Qed.

(** ** The encoding of subsets *)

Lemma to_state_perm (X Y : list Z) : X ≡ₚ Y → to_state X = to_state Y.
Proof.
  intros HXY. unfold to_state. do 2 f_equal.
  apply (Sorted_unique Z.le).
  - apply (Sorted_merge_sort Z.le).
  - apply (Sorted_merge_sort Z.le).
  - by rewrite !merge_sort_Permutation.
Qed.

(** X6.  [to_state] does not depend on the order in which the states of a
    set are met: two lists without repetition that hold the same states get
    the same string. *)
Theorem to_state_canonical (X Y : list Z) :
  NoDup X → NoDup Y → (∀ q, q ∈ X ↔ q ∈ Y) → to_state X = to_state Y.
Proof.
  intros HX HY Hsame. by apply to_state_perm, NoDup_Permutation.
Qed.

Lemma to_state_canonical_witness : to_state [2; 1] = to_state [1; 2].
Proof.
  apply to_state_canonical.
  - by_compute.
  - by_compute.
  - intros q. rewrite !elem_of_cons, !elem_of_nil. tauto.
Defined.

Lemma pretty_N_go_nonempty (x : N) (s : string) :
  s ≠ "" → pretty_N_go x s ≠ "".
Proof.
  revert s. induction (N.lt_wf_0 x) as [x _ IH]; intros s Hs.
  destruct (decide (x = 0)%N) as [->|Hx].
  - by rewrite pretty_N_go_0.
  - rewrite pretty_N_go_step by lia. apply IH; [|done].
    apply N.div_lt; lia.
Qed.

Lemma pretty_N_nonempty (x : N) : pretty x ≠ "".
Proof.
  unfold pretty, pretty_N. case_decide as Hx; [done|].
  rewrite pretty_N_go_step by lia. by apply pretty_N_go_nonempty.
Qed.

Lemma pretty_Z_nonempty (x : Z) : pretty x ≠ "".
Proof.
  destruct x as [|p|p]; [done| |done].
  apply (pretty_N_nonempty (Npos p)).
Qed.

Lemma to_state_nil_inv (X : list Z) : to_state X = "" → X = [].
Proof.
  unfold to_state. intros HX.
  destruct (merge_sort Z.le X) as [|q l] eqn:E.
  - apply Permutation_nil_r. by rewrite <-E, merge_sort_Permutation.
  - exfalso. rewrite fmap_cons, concat_empty_cons in HX.
    pose proof (pretty_Z_nonempty q) as Hq.
    by destruct (pretty q).
Qed.

(** X7.  [to_state] gives the empty string for the empty set only; so the
    test [new_state != ''] of [step1] is the test that [reach] found a
    state. *)
Theorem to_state_empty (X : list Z) : to_state X = "" ↔ X = [].
Proof. split; [apply to_state_nil_inv|by intros ->]. Qed.

Lemma digit_char_inj (p q : Z) :
  0 ≤ p ≤ 9 → 0 ≤ q ≤ 9 → digit_char p = digit_char q → p = q.
Proof.
  intros Hp Hq Heq.
  destruct (pretty_digit p Hp) as [_ Hdp].
  destruct (pretty_digit q Hq) as [_ Hdq].
  rewrite Heq in Hdp. congruence.
Qed.

Lemma fmap_digit_char_inj (l1 l2 : list Z) :
  digits l1 → digits l2 → digit_char <$> l1 = digit_char <$> l2 → l1 = l2.
Proof.
  revert l2. induction l1 as [|p l1 IH]; intros [|q l2] H1 H2 Heq;
    try done.
  cbn in Heq. injection Heq as Hpq Heq. f_equal.
  - apply digit_char_inj; [apply H1; left|apply H2; left|done].
  - apply IH; [intros ??; apply H1; by right
              |intros ??; apply H2; by right|done].
Qed.

Lemma to_state_inj (X Y : list Z) :
  digits X → digits Y → to_state X = to_state Y → X ≡ₚ Y.
Proof.
  intros HX HY Heq.
  assert (merge_sort Z.le X = merge_sort Z.le Y) as Hs.
  { apply fmap_digit_char_inj; [by apply digits_sorted..|].
    by rewrite <-!to_state_digits, Heq. }
  by rewrite <-(merge_sort_Permutation Z.le X), Hs, merge_sort_Permutation.
Qed.

(** X8.  On states that are decimal digits, [to_state] can be read back:
    the characters of the string are, through [int], the states in increasing
    order, and two sets of digits with the same string have the same
    states. *)
Theorem to_state_decode (X : list Z) :
  digits X →
  Forall2 (λ c q, int_of_char c = Ok q)
    (list_ascii_of_string (to_state X)) (merge_sort Z.le X)
  ∧ ∀ Y, digits Y → to_state X = to_state Y → X ≡ₚ Y.
Proof.
  intros HX. split.
  - rewrite to_state_digits by done.
    apply Forall2_fmap_l, Forall_Forall2_diag, Forall_forall.
    intros q Hq. apply pretty_digit. by apply (digits_sorted X).
  - intros Y HY. by apply to_state_inj.
Qed.

Lemma to_state_decode_witness :
  Forall2 (λ c q, int_of_char c = Ok q)
    (list_ascii_of_string (to_state [3; 0])) (merge_sort Z.le [3; 0])
  ∧ ∀ Y, digits Y → to_state [3; 0] = to_state Y → [3; 0] ≡ₚ Y.
Proof.
  apply to_state_decode. intros q Hq.
  repeat (apply elem_of_cons in Hq as [->|Hq]; [lia|]).
  by apply elem_of_nil in Hq.
Defined.

(** ** The unit square is kept *)

Lemma bot_in_unit : in_unit bot.
Proof. repeat split; by vm_compute. Qed.

Lemma top_in_unit : in_unit top.
Proof. repeat split; by vm_compute. Qed.

Lemma complete_unit_valued (Sigma : list ascii) (Q : list Z)
    (delta : gmap key TV) :
  unit_valued delta → unit_valued (complete Sigma Q delta).
Proof.
  intros Hd k v. rewrite complete_lookup.
  destruct (delta !! k) as [v'|] eqn:Hk.
  - intros [= <-]. by eapply Hd.
  - case_decide; [|done]. intros [= <-]. apply bot_in_unit.
Qed.

Lemma deltastar_in_unit (Q : list Z) (delta : gmap key TV) :
  unit_valued delta →
  ∀ w q1 q2 v, deltastar Q delta q1 w q2 = Ok v → in_unit v.
Proof.
  intros Hd. induction w as [|a w IH]; intros q1 q2 v; cbn [deltastar].
  - intros [= <-]. case_decide; [apply top_in_unit|apply bot_in_unit].
  - apply for_in_invariant; [|apply bot_in_unit].
    intros r acc acc' _ Hacc. unfold delta_get.
    destruct (delta !! (q1, a, r)) as [x|] eqn:Hx; cbn; [|done].
    destruct (deltastar Q delta r w q2) as [y|e] eqn:Hy; cbn; [|done].
    intros [= <-]. apply TwistOr_in_unit; [done|].
    apply TwistAnd_in_unit; [by eapply Hd|by eapply IH].
Qed.

(** X9.  If every value given in [delta] lies in the unit square, so does
    every value of the completed [delta], and every value [deltastar]
    returns. *)
Theorem unit_square_kept (Sigma : list ascii) (Q : list Z)
    (delta0 : gmap key TV) :
  unit_valued delta0 →
  unit_valued (complete Sigma Q delta0)
  ∧ ∀ q1 w q2 v,
      deltastar Q (complete Sigma Q delta0) q1 w q2 = Ok v → in_unit v.
Proof.
  intros Hd. split; [by apply complete_unit_valued|].
  intros q1 w q2. by apply deltastar_in_unit, complete_unit_valued.
Qed.

Lemma example5_unit_valued : unit_valued Example5.delta0.
Proof.
  intros k v Hk. apply elem_of_list_to_map_2 in Hk. cbn in Hk.
  repeat (apply elem_of_cons in Hk as [[= -> ->]|Hk];
          [repeat split; by vm_compute|]).
  by apply elem_of_nil in Hk.
Qed.

Lemma unit_square_kept_witness :
  ∃ v, deltastar Example5.Q Example5.delta 0 "ab" 3 = Ok v ∧ in_unit v.
Proof.
  destruct (unit_square_kept Example5.Sigma Example5.Q Example5.delta0
              example5_unit_valued) as [_ H].
  destruct (deltastar Example5.Q Example5.delta 0 "ab" 3) as [v|e] eqn:E.
  - exists v. split; [done|]. by apply (H 0 "ab" 3).
  - exfalso. vm_compute in E. discriminate.
Defined.

Lemma weight_in_unit (delta : gmap key TV) (S1 : string) (a : ascii)
    (S2 : string) (v : TV) :
  unit_valued delta → weight delta S1 a S2 = Ok v → in_unit v.
Proof.
  intros Hd. unfold weight.
  apply for_in_invariant; [|apply bot_in_unit].
  intros p acc acc' _ Hacc Hin.
  eapply (for_in_invariant in_unit); [|exact Hacc|exact Hin].
  intros q val val' _ Hval.
  destruct (int_of_char p) as [ip|]; cbn; [|done].
  destruct (int_of_char q) as [iq|]; cbn; [|done].
  unfold delta_get. destruct (delta !! (ip, a, iq)) as [x|] eqn:Hx; cbn;
    [|done].
  intros [= <-]. apply TwistOr_in_unit; [done|by eapply Hd].
Qed.

(** ** The path algebra of [deltastar] *)

Global Instance tv_eq_equiv : Equivalence tv_eq.
Proof.
  split.
  - intros x. by split.
  - intros x y [??]. by split.
  - intros x y z [H1 H2] [H3 H4]. split.
    + by rewrite H1.
    + by rewrite H2.
Qed.

Global Instance TwistAnd_proper : Proper (tv_eq ==> tv_eq ==> tv_eq) TwistAnd.
Proof.
  intros x x' [Hx1 Hx2] y y' [Hy1 Hy2]. split; cbn.
  - by rewrite Hx1, Hy1.
  - by rewrite Hx2, Hy2.
Qed.

Global Instance TwistOr_proper : Proper (tv_eq ==> tv_eq ==> tv_eq) TwistOr.
Proof.
  intros x x' [Hx1 Hx2] y y' [Hy1 Hy2]. split; cbn.
  - by rewrite Hx1, Hy1.
  - by rewrite Hx2, Hy2.
Qed.

Lemma tv_eqb_eq (x y : TV) : tv_eqb x y = true ↔ tv_eq x y.
Proof.
  unfold tv_eqb, tv_eq. rewrite andb_true_iff, !Qeq_bool_iff. done.
Qed.

Lemma TwistOr_bot_l (x : TV) : in_unit x → tv_eq (TwistOr bot x) x.
Proof. intros Hx. rewrite TwistOr_comm. by apply TwistOr_bot. Qed.

Lemma TwistAnd_bot_l (x : TV) : in_unit x → tv_eq (TwistAnd bot x) bot.
Proof. intros Hx. rewrite TwistAnd_comm. by apply TwistAnd_bot. Qed.

Section Bigor.
Implicit Types (f g : Z → TV) (l : list Z).

Lemma orfold_in_unit f l : ∀ acc,
  in_unit acc → (∀ r, r ∈ l → in_unit (f r)) →
  in_unit (foldl (λ result r, TwistOr result (f r)) acc l).
Proof.
  induction l as [|r l IH]; intros acc Hacc Hf; [done|].
  cbn. apply IH.
  - apply TwistOr_in_unit; [done|]. apply Hf. left.
  - intros ??. apply Hf. by right.
Qed.

Lemma bigor_in_unit f l : (∀ r, r ∈ l → in_unit (f r)) → in_unit (bigor f l).
Proof. apply orfold_in_unit, bot_in_unit. Qed.

Lemma orfold_bigor f l : ∀ acc,
  in_unit acc → (∀ r, r ∈ l → in_unit (f r)) →
  tv_eq (foldl (λ result r, TwistOr result (f r)) acc l)
        (TwistOr acc (bigor f l)).
Proof.
  induction l as [|r l IH]; intros acc Hacc Hf.
  - cbn. symmetry. by apply TwistOr_bot.
  - assert (in_unit (f r)) by (apply Hf; left).
    assert (∀ r', r' ∈ l → in_unit (f r')) by (intros ??; apply Hf; by right).
    unfold bigor. cbn [foldl].
    rewrite IH by (try apply TwistOr_in_unit; auto using bot_in_unit).
    rewrite (IH (TwistOr bot (f r)))
      by (try apply TwistOr_in_unit; auto using bot_in_unit).
    rewrite TwistOr_bot_l by done.
    by rewrite TwistOr_assoc.
Qed.

Lemma bigor_cons f r l :
  (∀ r', r' ∈ r :: l → in_unit (f r')) →
  tv_eq (bigor f (r :: l)) (TwistOr (f r) (bigor f l)).
Proof.
  intros Hf. unfold bigor at 1. cbn [foldl].
  assert (in_unit (f r)) by (apply Hf; left).
  rewrite orfold_bigor.
  - by rewrite TwistOr_bot_l.
  - apply TwistOr_in_unit; [apply bot_in_unit|done].
  - intros ??. apply Hf. by right.
Qed.

Lemma bigor_ext f g l :
  (∀ r, r ∈ l → in_unit (f r)) → (∀ r, r ∈ l → tv_eq (f r) (g r)) →
  tv_eq (bigor f l) (bigor g l).
Proof.
  intros Hf Hfg.
  assert (Hg : ∀ r, r ∈ l → in_unit (g r)).
  { intros r Hr. destruct (Hfg r Hr) as [H1 H2]. destruct (Hf r Hr) as [[??][??]].
    repeat split; by rewrite <-?H1, <-?H2. }
  induction l as [|r l IH]; [done|].
  rewrite !bigor_cons by done.
  rewrite (Hfg r) by left. rewrite IH; [done|..];
    intros ??; [apply Hf|apply Hfg|apply Hg]; by right.
Qed.

Lemma bigor_bot l : tv_eq (bigor (λ _, bot) l) bot.
Proof.
  induction l as [|r l IH]; [done|].
  rewrite bigor_cons by (intros; apply bot_in_unit).
  rewrite IH. apply TwistOr_idemp.
Qed.

Lemma bigor_and_l x f l :
  in_unit x → (∀ r, r ∈ l → in_unit (f r)) →
  tv_eq (TwistAnd x (bigor f l)) (bigor (λ r, TwistAnd x (f r)) l).
Proof.
  intros Hx Hf. induction l as [|r l IH].
  - by apply TwistAnd_bot.
  - assert (in_unit (f r)) by (apply Hf; left).
    assert (∀ r', r' ∈ l → in_unit (f r')) by (intros ??; apply Hf; by right).
    rewrite !bigor_cons
      by (try done; intros ??; apply TwistAnd_in_unit; auto).
    rewrite <-IH by done.
    apply TwistAnd_TwistOr_distr.
Qed.

Lemma bigor_and_r x f l :
  in_unit x → (∀ r, r ∈ l → in_unit (f r)) →
  tv_eq (TwistAnd (bigor f l) x) (bigor (λ r, TwistAnd (f r) x) l).
Proof.
  intros Hx Hf. rewrite TwistAnd_comm, bigor_and_l by done.
  apply bigor_ext.
  - intros ??. apply TwistAnd_in_unit; auto.
  - intros ??. apply TwistAnd_comm.
Qed.

Lemma bigor_or f g l :
  (∀ r, r ∈ l → in_unit (f r)) → (∀ r, r ∈ l → in_unit (g r)) →
  tv_eq (bigor (λ r, TwistOr (f r) (g r)) l)
        (TwistOr (bigor f l) (bigor g l)).
Proof.
  intros Hf Hg. induction l as [|r l IH].
  - symmetry. apply TwistOr_idemp.
  - rewrite !bigor_cons
      by (try done; intros ??; apply TwistOr_in_unit; auto).
    rewrite IH by (intros ??; first [apply Hf|apply Hg]; by right).
    rewrite <-!TwistOr_assoc. f_equiv.
    rewrite !TwistOr_assoc. f_equiv. apply TwistOr_comm.
Qed.

Lemma bigor_swap (h : Z → Z → TV) l1 l2 :
  (∀ s r, s ∈ l1 → r ∈ l2 → in_unit (h s r)) →
  tv_eq (bigor (λ s, bigor (h s) l2) l1)
        (bigor (λ r, bigor (λ s, h s r) l1) l2).
Proof.
  intros Hh. induction l1 as [|s l1 IH].
  - symmetry. apply bigor_bot.
  - rewrite bigor_cons
      by (intros s' Hs'; apply bigor_in_unit; intros ??; by apply Hh).
    rewrite IH by (intros ????; apply Hh; [by right|done]).
    rewrite <-bigor_or.
    + apply bigor_ext.
      * intros r Hr. apply TwistOr_in_unit; [apply Hh; [left|done]|].
        apply bigor_in_unit. intros ??. apply Hh; [by right|done].
      * intros r Hr. symmetry. apply (bigor_cons (λ s, h s r)).
        intros ??. by apply Hh.
    + intros ??. apply Hh; [left|done].
    + intros r Hr. apply bigor_in_unit. intros ??. apply Hh; [by right|done].
Qed.

Lemma bigor_indicator f (q : Z) l :
  (∀ r, r ∈ l → in_unit (f r)) →
  tv_eq (bigor (λ r, TwistAnd (f r) (if decide (r = q) then top else bot)) l)
        (if decide (q ∈ l) then f q else bot).
Proof.
  intros Hf. induction l as [|r l IH].
  - by rewrite decide_False by apply not_elem_of_nil.
  - assert (in_unit (f r)) by (apply Hf; left).
    assert (Hl : ∀ r', r' ∈ l → in_unit (f r'))
      by (intros ??; apply Hf; by right).
    rewrite bigor_cons.
    2: { intros r' Hr'. apply TwistAnd_in_unit; [by apply Hf|].
         destruct (decide (r' = q)); [apply top_in_unit|apply bot_in_unit]. }
    rewrite IH by done. destruct (decide (r = q)) as [->|Hne].
    + rewrite TwistAnd_top by done.
      rewrite (decide_True _ _ (list_elem_of_here q l)).
      destruct (decide (q ∈ l)); [apply TwistOr_idemp|by apply TwistOr_bot].
    + rewrite TwistAnd_bot by done.
      destruct (decide (q ∈ l)) as [Hq|Hq].
      * rewrite decide_True by (by right). apply TwistOr_bot_l. by apply Hl.
      * rewrite decide_False by (by intros [?|?]%elem_of_cons).
        apply TwistOr_idemp.
Qed.
End Bigor.

Section Paths.
Variables (Q : list Z) (dl : Z → ascii → Z → TV).
Hypothesis dl_unit : ∀ q a r, in_unit (dl q a r).

Lemma spec_in_unit w : ∀ q1 q2, in_unit (deltastar_spec Q dl q1 w q2).
Proof.
  induction w as [|a w IH]; intros q1 q2; cbn [deltastar_spec].
  - case_decide; [apply top_in_unit|apply bot_in_unit].
  - apply (orfold_in_unit (λ r, TwistAnd (dl q1 a r) _)); [apply bot_in_unit|].
    intros r _. by apply TwistAnd_in_unit.
Qed.

Lemma spec_cons q1 a w q2 :
  deltastar_spec Q dl q1 (String a w) q2
  = bigor (λ r, TwistAnd (dl q1 a r) (deltastar_spec Q dl r w q2)) Q.
Proof. done. Qed.

Lemma spec_single q1 a q2 :
  tv_eq (deltastar_spec Q dl q1 (String a "") q2)
        (if decide (q2 ∈ Q) then dl q1 a q2 else bot).
Proof.
  rewrite spec_cons.
  apply (bigor_indicator (λ r, dl q1 a r)). intros ??. apply dl_unit.
Qed.

Lemma spec_app w1 : ∀ w2 q1 q2,
  q1 ∈ Q →
  tv_eq (deltastar_spec Q dl q1 (w1 +:+ w2) q2)
        (bigor (λ r, TwistAnd (deltastar_spec Q dl q1 w1 r)
                              (deltastar_spec Q dl r w2 q2)) Q).
Proof.
  induction w1 as [|a w1 IH]; intros w2 q1 q2 Hq1.
  - change ("" +:+ w2) with w2.
    etrans; [|apply bigor_ext].
    + symmetry.
      etrans; [apply (bigor_indicator
                        (λ r, deltastar_spec Q dl r w2 q2) q1)|].
      * intros ??. apply spec_in_unit.
      * by rewrite decide_True.
    + intros r _. apply TwistAnd_in_unit; [apply spec_in_unit|].
      destruct (decide (r = q1)); [apply top_in_unit|apply bot_in_unit].
    + intros r _. rewrite TwistAnd_comm. cbn [deltastar_spec].
      destruct (decide (r = q1)), (decide (q1 = r)); done.
  - change (String a w1 +:+ w2) with (String a (w1 +:+ w2)).
    rewrite spec_cons.
    (* the inner calls, by induction *)
    trans (bigor (λ s, bigor (λ r,
             TwistAnd (dl q1 a s)
               (TwistAnd (deltastar_spec Q dl s w1 r)
                         (deltastar_spec Q dl r w2 q2))) Q) Q).
    { apply bigor_ext.
      - intros r _. apply TwistAnd_in_unit; [done|apply spec_in_unit].
      - intros r Hr. rewrite (IH w2 r q2 Hr).
        apply bigor_and_l; [done|].
        intros ??. apply TwistAnd_in_unit; apply spec_in_unit. }
    (* the two loops are exchanged *)
    rewrite (bigor_swap
               (λ s r, TwistAnd (dl q1 a s)
                         (TwistAnd (deltastar_spec Q dl s w1 r)
                                   (deltastar_spec Q dl r w2 q2)))).
    2: { intros s r _ _. apply TwistAnd_in_unit; [done|].
         apply TwistAnd_in_unit; apply spec_in_unit. }
    apply bigor_ext.
    + intros r _. apply bigor_in_unit. intros s _.
      apply TwistAnd_in_unit; [done|].
      apply TwistAnd_in_unit; apply spec_in_unit.
    + intros r _. rewrite spec_cons.
      rewrite bigor_and_r; [|apply spec_in_unit|].
      2: { intros s _. apply TwistAnd_in_unit; [done|apply spec_in_unit]. }
      apply bigor_ext.
      * intros s _. apply TwistAnd_in_unit; [done|].
        apply TwistAnd_in_unit; apply spec_in_unit.
      * intros s _. apply TwistAnd_assoc.
Qed.

Lemma spec_dead p w :
  p ∈ Q →
  (∀ r, r ∈ Q → tv_eq (deltastar_spec Q dl p w r) bot) →
  ∀ w2 q, tv_eq (deltastar_spec Q dl p (w +:+ w2) q) bot.
Proof.
  intros Hp Hdead w2 q. rewrite spec_app by done.
  etrans; [apply bigor_ext|apply bigor_bot].
  - intros r _. apply TwistAnd_in_unit; apply spec_in_unit.
  - intros r Hr. rewrite (Hdead r Hr). apply TwistAnd_bot_l, spec_in_unit.
Qed.
End Paths.

Lemma entry_in_unit (delta : gmap key TV) :
  unit_valued delta → ∀ q a r, in_unit (entry delta q a r).
Proof.
  intros Hd q a r. unfold entry.
  destruct (delta !! (q, a, r)) as [v|] eqn:Hk; [by eapply Hd|].
  apply bot_in_unit.
Qed.

Lemma word_over_app (Sigma : list ascii) (w1 w2 : string) :
  word_over Sigma w1 → word_over Sigma w2 → word_over Sigma (w1 +:+ w2).
Proof.
  intros H1 H2. induction w1 as [|a w1 IH]; [done|].
  destruct H1 as [? ?]. split; [done|]. by apply IH.
Qed.

(** X10.  On a word of one symbol [deltastar] gives the entry of the
    relation: for [q1], [q2] in [Q] and [a] in [Sigma] (values in the unit
    square), [deltastar(q1, a, q2) == delta[(q1, a, q2)]]. *)
Theorem deltastar_single (Sigma : list ascii) (Q : list Z)
    (delta0 : gmap key TV) (q1 : Z) (a : ascii) (q2 : Z) :
  let delta := complete Sigma Q delta0 in
  unit_valued delta0 → q1 ∈ Q → a ∈ Sigma → q2 ∈ Q →
  ∃ v e, deltastar Q delta q1 (String a "") q2 = Ok v
         ∧ delta !! (q1, a, q2) = Some e ∧ tv_eq v e.
Proof.
  intros delta Hunit H1 Ha H2.
  assert (Htot : total Sigma Q delta) by apply complete_total.
  assert (Hd : unit_valued delta) by by apply complete_unit_valued.
  destruct (Htot q1 a q2 H1 Ha H2) as [e He].
  exists (deltastar_spec Q (entry delta) q1 (String a "") q2), e.
  split_and!; [|done|].
  - by apply (deltastar_refines Sigma).
  - rewrite spec_single by by apply entry_in_unit.
    rewrite decide_True by done. unfold entry. by rewrite He.
Qed.

Lemma deltastar_single_witness :
  ∃ v e, deltastar Example5.Q Example5.delta 1 "b" 3 = Ok v
         ∧ Example5.delta !! (1, "b"%char, 3) = Some e ∧ tv_eq v e.
Proof.
  apply (deltastar_single Example5.Sigma Example5.Q Example5.delta0
           1 "b" 3 example5_unit_valued); by_compute.
Defined.

(** X11.  [deltastar] composes along a word: for values in the unit
    square, [deltastar(q1, w1 + w2, q2)] equals the [TwistOr], over the states
    [r] of [Q], of [TwistAnd(deltastar(q1, w1, r), deltastar(r, w2, q2))]. *)
Theorem deltastar_concat (Sigma : list ascii) (Q : list Z)
    (delta0 : gmap key TV) (q1 : Z) (w1 w2 : string) (q2 : Z) :
  let delta := complete Sigma Q delta0 in
  unit_valued delta0 → q1 ∈ Q →
  word_over Sigma w1 → word_over Sigma w2 →
  ∃ (v : TV) (f g : Z → TV),
    deltastar Q delta q1 (w1 +:+ w2) q2 = Ok v
    ∧ (∀ r, r ∈ Q → deltastar Q delta q1 w1 r = Ok (f r))
    ∧ (∀ r, r ∈ Q → deltastar Q delta r w2 q2 = Ok (g r))
    ∧ tv_eq v (bigor (λ r, TwistAnd (f r) (g r)) Q).
Proof.
  intros delta Hunit H1 Hw1 Hw2.
  assert (Htot : total Sigma Q delta) by apply complete_total.
  assert (Hd : unit_valued delta) by by apply complete_unit_valued.
  exists (deltastar_spec Q (entry delta) q1 (w1 +:+ w2) q2),
    (λ r, deltastar_spec Q (entry delta) q1 w1 r),
    (λ r, deltastar_spec Q (entry delta) r w2 q2).
  split_and!.
  - apply (deltastar_refines Sigma); [done..|]. by apply word_over_app.
  - intros r _. by apply (deltastar_refines Sigma).
  - intros r Hr. by apply (deltastar_refines Sigma).
  - apply spec_app; [|done]. by apply entry_in_unit.
Qed.

Lemma example5_word_ab : word_over Example5.Sigma "ab".
Proof. cbn. split_and!; [by_compute..|done]. Qed.

Lemma deltastar_concat_witness :
  ∃ (v : TV) (f g : Z → TV),
    deltastar Example5.Q Example5.delta 0 ("ab" +:+ "ab") 3 = Ok v
    ∧ (∀ r, r ∈ Example5.Q →
         deltastar Example5.Q Example5.delta 0 "ab" r = Ok (f r))
    ∧ (∀ r, r ∈ Example5.Q →
         deltastar Example5.Q Example5.delta r "ab" 3 = Ok (g r))
    ∧ tv_eq v (bigor (λ r, TwistAnd (f r) (g r)) Example5.Q).
Proof.
  apply (deltastar_concat Example5.Sigma Example5.Q Example5.delta0
           0 "ab" "ab" 3 example5_unit_valued);
    [by_compute|apply example5_word_ab..].
Defined.

Lemma reach_dead (Sigma : list ascii) (Q : list Z) (delta : gmap key TV)
    (p : Z) (w w2 : string) :
  total Sigma Q delta → unit_valued delta → p ∈ Q →
  word_over Sigma w → word_over Sigma w2 →
  reach Q delta p w = Ok [] →
  reach Q delta p (w +:+ w2) = Ok [].
Proof.
  intros Htot Hd Hp Hw Hw2 Hdead.
  assert (Hbot : ∀ r, r ∈ Q →
            tv_eq (deltastar_spec Q (entry delta) p w r) bot).
  { intros r Hr. apply reach_members in Hdead as [_ Hmem].
    apply tv_eqb_eq.
    destruct (tv_eqb (deltastar_spec Q (entry delta) p w r) bot) eqn:Hb;
      [done|].
    exfalso. apply (not_elem_of_nil r), Hmem. split; [done|].
    eexists. split; [|exact Hb]. by apply (deltastar_refines Sigma). }
  destruct (reach_total Sigma Q delta p (w +:+ w2)) as [r Hr];
    [done..|by apply word_over_app|].
  rewrite Hr. f_equal. apply elem_of_nil_inv. intros q Hq.
  apply reach_members in Hr as [_ Hmem].
  apply Hmem in Hq as (HqQ & v & Hv & Hb).
  rewrite (deltastar_refines Sigma) in Hv by (done || by apply word_over_app).
  injection Hv as <-.
  assert (tv_eqb (deltastar_spec Q (entry delta) p (w +:+ w2) q) bot = true);
    [|congruence].
  apply tv_eqb_eq, spec_dead; [by apply entry_in_unit|done..].
Qed.

(** X12.  A word that reaches nothing stays dead: for values in the unit
    square, if [reach(p, w)] is empty then so is [reach(p, w + w2)] for every
    word [w2] over [Sigma].  (It is why [step1] may drop such a word.) *)
Theorem dead_word_extensions (Sigma : list ascii) (Q : list Z)
    (delta0 : gmap key TV) (p : Z) (w w2 : string) :
  let delta := complete Sigma Q delta0 in
  unit_valued delta0 → p ∈ Q →
  word_over Sigma w → word_over Sigma w2 →
  reach Q delta p w = Ok [] →
  reach Q delta p (w +:+ w2) = Ok [].
Proof.
  intros delta Hunit. apply reach_dead; [apply complete_total|].
  by apply complete_unit_valued.
Qed.

Lemma dead_word_extensions_witness :
  reach Example5.Q Example5.delta 0 ("aa" +:+ "ab") = Ok [].
Proof.
  apply (dead_word_extensions Example5.Sigma Example5.Q Example5.delta0
           0 "aa" "ab" example5_unit_valued).
  - by_compute.
  - cbn. split_and!; [by_compute..|done].
  - apply example5_word_ab.
  - by_compute.
Defined.

(** ** The skeleton that [step1] returns *)

Lemma snoc_init_last (w : string) (a : ascii) :
  str_last w = Ok a → snoc_letter (str_init w) a = w.
Proof.
  induction w as [|c w IH]; [done|].
  destruct w as [|c' w]; [by intros [= ->]|].
  intros Ha. change (String c (snoc_letter (str_init (String c' w)) a)
                     = String c (String c' w)).
  f_equal. by apply IH.
Qed.

Lemma word_over_init (Sigma : list ascii) (w : string) :
  word_over Sigma w → word_over Sigma (str_init w).
Proof.
  induction w as [|c w IH]; [done|].
  destruct w as [|c' w]; [done|].
  intros [? ?]. split; [done|]. by apply IH.
Qed.

Lemma linked_mono (initial : Z) (ts ts' : gset dtrans) (S : string) :
  ts ⊆ ts' → linked initial ts S → linked initial ts' S.
Proof.
  intros Hsub. induction 1 as [|S0 b S _ IH Hin]; [constructor|].
  apply (linked_step _ _ S0 b); [done|]. by apply Hsub.
Qed.

Lemma dstate_nonempty (Q : list Z) (S : string) : S ∈ dstates Q → S ≠ "".
Proof.
  intros (X & -> & [HX _]%nonempty_sublists_sound)%list_elem_of_fmap.
  by intros ?%to_state_nil_inv.
Qed.

Section Skeleton.
Variables (Sigma : list ascii) (Q : list Z) (delta : gmap key TV).
Variable initial : Z.
Hypothesis delta_total : total Sigma Q delta.
Hypothesis initial_valid : initial ∈ Q.

Lemma encode_empty : encode Q delta initial "" = to_state [initial].
Proof.
  unfold encode, reached, reach. rewrite reach_empty_loop by auto.
  by rewrite decide_True.
Qed.

Lemma prev_of_encode ws w :
  cache_ok Sigma Q delta initial ws → src_ok ws w →
  prev_of initial ws w = encode Q delta initial (str_init w).
Proof.
  intros Hws [Hnil|(v & Hv & _)]; unfold prev_of.
  - rewrite Hnil, (cache_ok_no_empty Sigma Q delta initial) by done.
    by rewrite encode_empty.
  - rewrite Hv. by destruct (Hws _ _ Hv) as [-> _].
Qed.

Lemma found_mono ts ws w a : ts ⊆ found Q delta initial ts ws w a.
Proof.
  unfold found. destruct (_ && _); [|done]. apply union_subseteq_r.
Qed.

Lemma found_new ts ws w a :
  encode Q delta initial w ≠ "" →
  (prev_of initial ws w, a, encode Q delta initial w)
  ∈ found Q delta initial ts ws w a.
Proof.
  intros Hne. unfold found.
  destruct (bool_decide (_ ∉ ts)) eqn:Hin; cbn.
  - rewrite bool_decide_eq_true_2 by done.
    apply elem_of_union_l. by apply elem_of_singleton.
  - apply bool_decide_eq_false in Hin.
    by destruct (decide ((prev_of initial ws w, a,
                          encode Q delta initial w) ∈ ts)).
Qed.

Lemma elem_of_found ts ws w a t :
  t ∈ found Q delta initial ts ws w a →
  t ∈ ts ∨ (t = (prev_of initial ws w, a, encode Q delta initial w)
            ∧ encode Q delta initial w ≠ "").
Proof.
  unfold found.
  destruct (bool_decide (_ ∉ ts) && bool_decide (_ ≠ "")) eqn:E; [|auto].
  apply andb_true_iff in E as [_ Hne%bool_decide_eq_true].
  intros [->%elem_of_singleton|?]%elem_of_union; auto.
Qed.

Lemma step1_body_shape w a s s' :
  word_over Sigma w → str_last w = Ok a →
  step1_body Q delta initial w s = Ok s' →
  transitions s'
  = found Q delta initial (transitions s) (words_states s) w a
  ∧ words_states s' = <[w := encode Q delta initial w]> (words_states s).
Proof.
  intros Hw Ha.
  rewrite (step1_body_eq Sigma Q delta initial delta_total initial_valid
             w a s Hw Ha).
  destruct (if pruned _ _ _ _ _ then _ else _) as [l'|e]; cbn; [|done].
  by intros [= <-].
Qed.

(** What one turn of the [for] loop keeps. *)
Lemma skeleton_step ws0 w l s s' :
  round_inv Sigma Q delta initial ws0 (w :: l) s →
  witnessed Sigma Q delta initial (transitions s) →
  recorded Q delta initial (transitions s) (words_states s) →
  rooted initial (transitions s) →
  step1_body Q delta initial w s = Ok s' →
  transitions s ⊆ transitions s'
  ∧ witnessed Sigma Q delta initial (transitions s')
  ∧ recorded Q delta initial (transitions s') (words_states s')
  ∧ rooted initial (transitions s')
  ∧ words_states s' !! w = Some (encode Q delta initial w)
  ∧ (∀ u v, words_states s !! u = Some v → words_states s' !! u = Some v).
Proof.
  intros [Hws _ Hpend _ _] Hwit Hrec Hroot Hbody.
  destruct (Hpend w) as [[Hne Hover] Hsrc]; [left|].
  destruct (str_last_ok Sigma w) as (a & Ha & HaS); [done..|].
  destruct (step1_body_shape w a s s' Hover Ha Hbody) as [-> ->].
  pose proof (prev_of_encode _ _ Hws Hsrc) as Hprev.
  pose proof (found_mono (transitions s) (words_states s) w a) as Hmono.
  split_and!.
  - done.
  - intros S1 b S2 [Hin|[[= -> -> ->] Hnew]]%elem_of_found;
      [by apply Hwit|].
    exists (str_init w). split_and!; [by apply word_over_init|done|done| |done].
    by rewrite (snoc_init_last w a).
  - intros u v. rewrite lookup_insert. case_decide as Hu.
    + subst u. intros [= <-] Hv. exists a. split; [done|].
      rewrite <-Hprev. by apply found_new.
    + intros Hu' Hv. destruct (Hrec u v Hu' Hv) as (b & Hb & Hin).
      exists b. split; [done|]. by apply Hmono.
  - intros S1 b S2 [Hin|[[= -> -> ->] Hnew]]%elem_of_found.
    + apply (linked_mono _ _ _ _ Hmono). by eapply Hroot.
    + apply (linked_mono _ _ _ _ Hmono).
      destruct Hsrc as [Hnil|(v & Hv & Hvne)].
      * rewrite Hprev, Hnil, encode_empty. constructor.
      * destruct (Hrec _ _ Hv Hvne) as (c & _ & Hin).
        unfold prev_of. rewrite Hv.
        apply (linked_step _ _ _ c _ (Hroot _ _ _ Hin) Hin).
  - by rewrite lookup_insert_eq.
  - intros u v Hu. by apply (lookup_insert_cached Sigma).
Qed.

Lemma skeleton_round ws0 l : ∀ s s',
  round_inv Sigma Q delta initial ws0 l s →
  witnessed Sigma Q delta initial (transitions s) →
  recorded Q delta initial (transitions s) (words_states s) →
  rooted initial (transitions s) →
  for_in l (step1_body Q delta initial) s = Ok s' →
  transitions s ⊆ transitions s'
  ∧ witnessed Sigma Q delta initial (transitions s')
  ∧ recorded Q delta initial (transitions s') (words_states s')
  ∧ rooted initial (transitions s')
  ∧ (∀ w, w ∈ l → words_states s' !! w = Some (encode Q delta initial w))
  ∧ round_inv Sigma Q delta initial ws0 [] s'.
Proof.
  induction l as [|w l IH]; intros s s' Hinv Hwit Hrec Hroot; cbn [for_in].
  - intros [= <-]. split_and!; try done. by intros w ?%elem_of_nil.
  - destruct (round_step Sigma Q delta initial delta_total initial_valid
                ws0 w l s Hinv) as (s1 & Hs1 & Hinv1).
    rewrite Hs1. cbn. intros Hrun.
    destruct (skeleton_step ws0 w l s s1 Hinv Hwit Hrec Hroot Hs1)
      as (Hsub & Hwit1 & Hrec1 & Hroot1 & Hw & Hkeep).
    destruct (IH s1 s' Hinv1 Hwit1 Hrec1 Hroot1 Hrun)
      as (Hsub' & Hwit' & Hrec' & Hroot' & Hl & Hinv').
    split_and!; try done.
    + by etrans.
    + intros u [->|Hu]%elem_of_cons; [|by apply Hl].
      (* later turns keep what is cached *)
      clear IH Hl. revert Hrun Hinv1 Hw. generalize s1. clear -delta_total
        initial_valid. revert s'.
      induction l as [|x l IH]; intros s' s1; cbn [for_in].
      * by intros [= <-].
      * intros Hrun Hinv1 Hw.
        destruct (round_step Sigma Q delta initial delta_total initial_valid
                    ws0 x l s1 Hinv1) as (s2 & Hs2 & Hinv2).
        rewrite Hs2 in Hrun. cbn in Hrun.
        apply (IH s' s2 Hrun Hinv2).
        destruct Hinv1 as [Hws _ Hpend _ _].
        destruct (Hpend x) as [[Hne Hover] _]; [left|].
        destruct (str_last_ok Sigma x) as (a & Ha & _); [done..|].
        destruct (step1_body_shape x a s1 s2 Hover Ha Hs2) as [_ ->].
        by apply (lookup_insert_cached Sigma).
Qed.

Lemma skeleton_while fuel : ∀ ts nw ws out,
  while_inv Sigma Q delta initial ts nw ws →
  witnessed Sigma Q delta initial ts →
  recorded Q delta initial ts ws →
  rooted initial ts →
  step1_while fuel Sigma Q delta initial ts nw ws = Some (Ok out) →
  ts ⊆ out ∧ witnessed Sigma Q delta initial out ∧ rooted initial out.
Proof.
  induction fuel as [|fuel IH]; intros ts nw ws out Hinv Hwit Hrec Hroot;
    (destruct nw as [|w nw]; [by intros [= <-]|]); [done|].
  cbn [step1_while].
  pose proof (while_inv_round _ _ _ _ _ _ _ Hinv) as Hround.
  destruct (for_in _ _ _) as [s|e] eqn:Hrun; [|done].
  destruct (skeleton_round ws (w :: nw) _ s Hround Hwit Hrec Hroot Hrun)
    as (Hsub & Hwit' & Hrec' & Hroot' & _ & Hend).
  intros Hout.
  destruct (IH _ _ _ _ (round_inv_while _ _ _ _ _ _ Hend)
              Hwit' Hrec' Hroot' Hout) as (Hsub' & ? & ?).
  split_and!; [|done..]. by etrans.
Qed.

Lemma skeleton_init :
  witnessed Sigma Q delta initial ∅ ∧ recorded Q delta initial ∅ ∅
  ∧ rooted initial ∅.
Proof.
  split_and!.
  - by intros S1 a S2 ?%not_elem_of_empty.
  - by intros w v ?%lookup_empty_Some.
  - by intros S1 a S2 ?%not_elem_of_empty.
Qed.

Lemma skeleton_step1 fuel out :
  step1 fuel Sigma Q delta initial = Some (Ok out) →
  witnessed Sigma Q delta initial out ∧ rooted initial out.
Proof.
  destruct skeleton_init as (Hwit & Hrec & Hroot). intros Hout.
  by destruct (skeleton_while fuel ∅ (seed Sigma) ∅ out
                 (while_inv_init _ _ _ _) Hwit Hrec Hroot Hout) as (_ & ? & ?).
Qed.

Lemma skeleton_first fuel out a :
  step1 fuel Sigma Q delta initial = Some (Ok out) →
  a ∈ Sigma → encode Q delta initial (String a "") ≠ "" →
  (to_state [initial], a, encode Q delta initial (String a "")) ∈ out.
Proof.
  destruct skeleton_init as (Hwit & Hrec & Hroot).
  unfold step1. intros Hout Ha Hne.
  assert (String a "" ∈ seed Sigma) as Hseed
    by (apply list_elem_of_fmap; by exists a).
  pose proof (while_inv_round _ _ _ _ _ _ _
                (while_inv_init Sigma Q delta initial)) as Hround.
  destruct (seed Sigma) as [|w nw] eqn:Hs; [by apply elem_of_nil in Hseed|].
  destruct fuel as [|fuel]; [done|]. cbn [step1_while] in Hout.
  destruct (for_in _ _ _) as [s|e] eqn:Hrun; [|done].
  destruct (skeleton_round ∅ (w :: nw) _ s Hround Hwit Hrec Hroot Hrun)
    as (_ & Hwit' & Hrec' & Hroot' & Hcached & Hend).
  destruct (skeleton_while fuel _ _ _ out (round_inv_while _ _ _ _ _ _ Hend)
              Hwit' Hrec' Hroot' Hout) as (Hsub & _ & _).
  apply Hsub.
  destruct (Hrec' _ _ (Hcached _ Hseed) Hne) as (b & [= <-] & Hin).
  cbn in Hin. by rewrite encode_empty in Hin.
Qed.
End Skeleton.

Lemma encode_reach (Sigma : list ascii) (Q : list Z) (delta : gmap key TV)
    (initial : Z) (w : string) :
  total Sigma Q delta → initial ∈ Q → word_over Sigma w →
  ∃ X, reach Q delta initial w = Ok X ∧ encode Q delta initial w = to_state X
       ∧ (encode Q delta initial w ≠ "" → X ≠ []).
Proof.
  intros Htot Hinit Hw. exists (reached Q delta initial w).
  split_and!; [by apply (reach_reached Sigma)|done|].
  unfold encode. intros Hne HX. apply Hne. by rewrite HX.
Qed.

(** X13.  Every transition [(S1, a, S2)] that [step1] returns comes from a
    word: there is a word [u] over [Sigma] with [S1 = to_state(reach(initial,
    u))] and [S2 = to_state(reach(initial, u + a))], both sets non-empty, and
    [a] in [Sigma]. *)
Theorem step1_transitions_witnessed (Sigma : list ascii) (Q : list Z)
    (delta : gmap key TV) (initial : Z) (fuel : nat) (out : gset dtrans)
    (S1 : string) (a : ascii) (S2 : string) :
  total Sigma Q delta → initial ∈ Q →
  step1 fuel Sigma Q delta initial = Some (Ok out) →
  (S1, a, S2) ∈ out →
  ∃ u X Y, word_over Sigma u ∧ a ∈ Sigma
    ∧ reach Q delta initial u = Ok X
    ∧ reach Q delta initial (snoc_letter u a) = Ok Y
    ∧ X ≠ [] ∧ Y ≠ [] ∧ S1 = to_state X ∧ S2 = to_state Y.
Proof.
  intros Htot Hinit Hout Hin.
  destruct (skeleton_step1 Sigma Q delta initial Htot Hinit fuel out Hout)
    as [Hwit _].
  destruct (Hwit _ _ _ Hin) as (u & Hu & Ha & HS1 & HS2 & Hne2).
  destruct (step1_sound Sigma Q delta initial Htot Hinit fuel out Hout
              _ _ _ Hin) as (Hne1%dstate_nonempty & _ & _).
  destruct (encode_reach Sigma Q delta initial u Htot Hinit Hu)
    as (X & HX & HeX & HnX).
  destruct (encode_reach Sigma Q delta initial (snoc_letter u a) Htot Hinit)
    as (Y & HY & HeY & HnY); [by apply word_over_snoc|].
  exists u, X, Y. rewrite <-HeX, <-HeY.
  split_and!; try done; [apply HnX|apply HnY]; congruence.
Qed.

Lemma step1_transitions_witnessed_witness :
  ∃ u X Y, word_over Example5.Sigma u ∧ "b"%char ∈ Example5.Sigma
    ∧ reach Example5.Q Example5.delta Example5.initial u = Ok X
    ∧ reach Example5.Q Example5.delta Example5.initial
        (snoc_letter u "b") = Ok Y
    ∧ X ≠ [] ∧ Y ≠ [] ∧ "12" = to_state X ∧ "03" = to_state Y.
Proof.
  apply (step1_transitions_witnessed Example5.Sigma Example5.Q Example5.delta
           Example5.initial 10 Example5.transitions).
  - apply complete_total.
  - by_compute.
  - exact example5_step1.
  - by_compute.
Defined.

Lemma step1_linked (Sigma : list ascii) (Q : list Z)
    (delta : gmap key TV) (initial : Z) (fuel : nat) (out : gset dtrans)
    (S : string) :
  total Sigma Q delta → initial ∈ Q →
  step1 fuel Sigma Q delta initial = Some (Ok out) →
  S ∈ states_of out → linked initial out S.
Proof.
  intros Htot Hinit Hout (S1 & a & S2 & Hin & HS)%elem_of_states_of.
  destruct (skeleton_step1 Sigma Q delta initial Htot Hinit fuel out Hout)
    as [_ Hroot].
  pose proof (Hroot _ _ _ Hin) as H1.
  destruct HS as [->| ->]; [done|]. by apply (linked_step _ _ S1 a).
Qed.

(** X14.  [step1] finds every move out of the initial state: for each
    symbol [a] of [Sigma] from which [reach(initial, a)] is not empty, the
    transition [(to_state({initial}), a, to_state(reach(initial, a)))] is in
    the result. *)
Theorem step1_first_level (Sigma : list ascii) (Q : list Z)
    (delta : gmap key TV) (initial : Z) (fuel : nat) (out : gset dtrans)
    (a : ascii) (Y : list Z) :
  total Sigma Q delta → initial ∈ Q →
  step1 fuel Sigma Q delta initial = Some (Ok out) →
  a ∈ Sigma → reach Q delta initial (String a "") = Ok Y → Y ≠ [] →
  (to_state [initial], a, to_state Y) ∈ out.
Proof.
  intros Htot Hinit Hout Ha HY Hne.
  assert (encode Q delta initial (String a "") = to_state Y) as He
    by (unfold encode, reached; by rewrite HY).
  rewrite <-He.
  apply (skeleton_first Sigma Q delta initial Htot Hinit fuel); [done..|].
  rewrite He. by intros ?%to_state_nil_inv.
Qed.

Lemma step1_first_level_witness :
  (to_state [Example5.initial], "a"%char, to_state [1; 2])
  ∈ Example5.transitions.
Proof.
  apply (step1_first_level Example5.Sigma Example5.Q Example5.delta
           Example5.initial 10 Example5.transitions).
  - apply complete_total.
  - by_compute.
  - exact example5_step1.
  - by_compute.
  - by_compute.
  - done.
Defined.

(** ** The automaton that [determinization] returns *)

Lemma for_in_body_ok {A S} (l : list A) (body : A → S → result S) :
  ∀ s r, for_in l body s = Ok r →
  ∀ x, x ∈ l → ∃ s1 s2, body x s1 = Ok s2.
Proof.
  induction l as [|y l IH]; intros s r Hrun x Hx; [by apply elem_of_nil in Hx|].
  cbn [for_in] in Hrun.
  destruct (body y s) as [s'|e] eqn:Hy; cbn in Hrun; [|done].
  apply elem_of_cons in Hx as [->|Hx]; [by exists s, s'|].
  by apply (IH s' r).
Qed.

Lemma step2_dom (delta : gmap key TV) (initial : Z) (F : list Z)
    (ts : gset dtrans) (fpda : FPDA) :
  step2 delta initial F ts = Ok fpda → dom (deltaD fpda) = ts.
Proof.
  intros Hrun.
  destruct (step2_sound delta initial F ts fpda Hrun) as (_ & _ & _ & HD).
  apply set_eq. intros t. rewrite elem_of_dom, HD.
  destruct (decide (t ∈ ts)) as [Ht|Ht]; [|split; [by intros []|done]].
  split; [done|]. intros _. unfold step2 in Hrun.
  destruct (for_in (elements ts) _ _) as [r|e] eqn:Hloop; cbn in Hrun;
    [|done].
  destruct (for_in_body_ok _ _ _ _ Hloop t) as (s1 & s2 & Hbody);
    [by apply elem_of_elements|].
  destruct t as [[S1 a] S2]. unfold weight_of. cbn [fst snd].
  change (step2_body delta (S1, a, S2) s1)
    with (value ← weight delta S1 a S2;
          Ok ({[S1; S2]} ∪ s1.1, <[(S1, a, S2) := value]> s1.2)) in Hbody.
  destruct (weight delta S1 a S2) as [v|e']; [by exists v|done].
Qed.

Lemma to_state_singleton (q : Z) : to_state [q] = pretty q.
Proof. done. Qed.

Lemma linked_root (initial : Z) (ts : gset dtrans) (S : string) :
  linked initial ts S → ∀ a S2, (S, a, S2) ∈ ts →
  ∃ b S', (to_state [initial], b, S') ∈ ts.
Proof.
  induction 1 as [|S0 b S _ IH Hin]; intros a S2 Hout; [by eauto|].
  by apply (IH b S).
Qed.

Lemma determinization_inv (fuel : nat) (Sigma : list ascii) (Q : list Z)
    (initial : Z) (F : list Z) (delta : gmap key TV) (fpda : FPDA) :
  determinization fuel Sigma Q initial F delta = Some (Ok fpda) →
  ∃ ts, step1 fuel Sigma Q (complete Sigma Q delta) initial = Some (Ok ts)
        ∧ step2 (complete Sigma Q delta) initial F ts = Ok fpda.
Proof.
  unfold determinization. cbn.
  destruct (step1 _ _ _ _ _) as [[ts|e]|]; cbn; [|done..].
  intros H. exists ts. split; [done|]. congruence.
Qed.

(** X15.  When [determinization] returns, its result is put together
    consistently: [QD] is the set of sources and targets of the weighted
    transitions; the final states are states of [QD]; no state is the empty
    string; every state of [QD] is reached from [to_state({initial})] along
    returned transitions; every symbol of a transition is in [Sigma]; and the
    initial state belongs to [QD] exactly when there is at least one
    transition. *)
Theorem determinization_shape (fuel : nat) (Sigma : list ascii) (Q : list Z)
    (initial : Z) (F : list Z) (delta : gmap key TV) (fpda : FPDA) :
  initial ∈ Q →
  determinization fuel Sigma Q initial F delta = Some (Ok fpda) →
  QD fpda = states_of (dom (deltaD fpda))
  ∧ FD fpda ⊆ QD fpda
  ∧ initD fpda = to_state [initial]
  ∧ (∀ S, S ∈ QD fpda → S ≠ "" ∧ linked initial (dom (deltaD fpda)) S)
  ∧ (∀ S1 a S2, (S1, a, S2) ∈ dom (deltaD fpda) → a ∈ Sigma)
  ∧ (initD fpda ∈ QD fpda ↔ deltaD fpda ≠ ∅).
Proof.
  intros Hinit (ts & H1 & H2)%determinization_inv.
  pose proof (complete_total Sigma Q delta) as Htot.
  rewrite (step2_dom _ _ _ _ _ H2).
  destruct (step2_sound _ _ _ _ _ H2) as (Hi & HQ & HF & HD).
  pose proof (step1_sound _ _ _ _ Htot Hinit _ _ H1) as Hok.
  split_and!.
  - done.
  - intros S [? _]%HF. by rewrite HQ.
  - done.
  - intros S. rewrite HQ. intros HS. split.
    + apply elem_of_states_of in HS as (S1 & a & S2 & Hin & HS).
      destruct (Hok _ _ _ Hin) as (?%dstate_nonempty & _ & ?%dstate_nonempty).
      by destruct HS as [-> | ->].
    + by apply (step1_linked Sigma Q (complete Sigma Q delta)
                  initial fuel).
  - intros S1 a S2 Hin. by destruct (Hok _ _ _ Hin) as (_ & ? & _).
  - rewrite Hi, HQ, <-to_state_singleton. split.
    + intros (S1 & a & S2 & Hin & _)%elem_of_states_of Hempty.
      rewrite <-(step2_dom _ _ _ _ _ H2), Hempty, dom_empty_L in Hin.
      by apply not_elem_of_empty in Hin.
    + intros Hne.
      assert (∃ t, t ∈ ts) as [[[S1 a] S2] Hin].
      { rewrite <-(step2_dom _ _ _ _ _ H2).
        destruct (map_choose _ Hne) as (t & v & Hv). exists t.
        apply elem_of_dom. by exists v. }
      destruct (skeleton_step1 _ _ _ _ Htot Hinit _ _ H1) as [_ Hroot].
      destruct (linked_root _ _ _ (Hroot _ _ _ Hin) _ _ Hin) as (b & S' & Hb).
      apply elem_of_states_of. exists (to_state [initial]), b, S'. auto.
Qed.

Lemma example5_run :
  determinization 10 Example5.Sigma Example5.Q Example5.initial Example5.F
    Example5.delta0 = Some (Ok Example5.fpda).
Proof. by_compute. Qed.

Lemma determinization_shape_witness :
  QD Example5.fpda = states_of (dom (deltaD Example5.fpda))
  ∧ FD Example5.fpda ⊆ QD Example5.fpda
  ∧ initD Example5.fpda = to_state [Example5.initial]
  ∧ (∀ S, S ∈ QD Example5.fpda →
       S ≠ "" ∧ linked Example5.initial (dom (deltaD Example5.fpda)) S)
  ∧ (∀ S1 a S2, (S1, a, S2) ∈ dom (deltaD Example5.fpda) →
       a ∈ Example5.Sigma)
  ∧ (initD Example5.fpda ∈ QD Example5.fpda ↔ deltaD Example5.fpda ≠ ∅).
Proof.
  apply (determinization_shape 10 Example5.Sigma Example5.Q Example5.initial
           Example5.F Example5.delta0 Example5.fpda).
  - by_compute.
  - exact example5_run.
Defined.

(** X16.  If every value given in [delta] lies in the unit square, so does
    every weight of the automaton [determinization] returns. *)
Theorem determinization_unit_valued (fuel : nat) (Sigma : list ascii)
    (Q : list Z) (initial : Z) (F : list Z) (delta : gmap key TV)
    (fpda : FPDA) :
  unit_valued delta →
  determinization fuel Sigma Q initial F delta = Some (Ok fpda) →
  ∀ t v, deltaD fpda !! t = Some v → in_unit v.
Proof.
  intros Hd (ts & _ & H2)%determinization_inv.
  pose proof (complete_unit_valued Sigma Q delta Hd) as Hc.
  intros [[S1 a] S2] v.
  destruct (step2_sound _ _ _ _ _ H2) as (_ & _ & _ & HD). rewrite HD.
  case_decide; [|done]. unfold weight_of. cbn [fst snd].
  destruct (weight _ S1 a S2) as [v'|e] eqn:Hw; [|done].
  intros [= <-]. by apply (weight_in_unit _ _ _ _ _ Hc Hw).
Qed.

Lemma determinization_unit_valued_witness : in_unit (1, 0)%Q.
Proof.
  apply (determinization_unit_valued 10 Example5.Sigma Example5.Q
           Example5.initial Example5.F Example5.delta0 Example5.fpda
           example5_unit_valued example5_run ("12", "b"%char, "03")).
  by_compute.
Defined.

(** ** States that are not decimal digits *)

Lemma int_of_char_raise (c : ascii) (e : exn) :
  int_of_char c = Raise e → e = ValueError.
Proof.
  unfold int_of_char. repeat (case_decide; [done|]). by intros [= <-].
Qed.

Lemma pretty_negative (q : Z) : q < 0 → ∃ s, pretty q = String "-" s.
Proof. destruct q as [|n|n]; [lia..|]. intros _. by eexists. Qed.

Lemma merge_sort_head_le (X : list Z) (m : Z) (l : list Z) :
  merge_sort Z.le X = m :: l → ∀ q, q ∈ X → m ≤ q.
Proof.
  intros E q Hq.
  pose proof (Sorted_merge_sort Z.le X) as Hs. rewrite E in Hs.
  apply Sorted_StronglySorted in Hs; [|intros ???; lia].
  apply StronglySorted_inv in Hs as [_ Hall].
  rewrite <-merge_sort_Permutation, E in Hq.
  apply elem_of_cons in Hq as [->|Hq]; [lia|].
  by apply (proj1 (Forall_forall _ _) Hall).
Qed.

Lemma to_state_negative (X : list Z) (q : Z) :
  q ∈ X → q < 0 → ∃ s, to_state X = String "-" s.
Proof.
  intros Hq Hneg. unfold to_state.
  destruct (merge_sort Z.le X) as [|m l] eqn:E.
  - exfalso. rewrite <-(merge_sort_Permutation Z.le), E in Hq.
    by apply elem_of_nil in Hq.
  - rewrite fmap_cons, concat_empty_cons.
    destruct (pretty_negative m) as [s ->]; [|by eexists].
    pose proof (merge_sort_head_le X m l E q Hq). lia.
Qed.

Lemma weight_bad_source (delta : gmap key TV) (s1 : string) (a : ascii)
    (c : ascii) (s2 : string) :
  weight delta (String "-" s1) a (String c s2) = Raise ValueError.
Proof. done. Qed.

Lemma weight_bad_target (delta : gmap key TV) (c : ascii) (s1 : string)
    (a : ascii) (s2 : string) :
  weight delta (String c s1) a (String "-" s2) = Raise ValueError.
Proof.
  unfold weight. cbn [list_ascii_of_string for_in].
  destruct (int_of_char c) as [ip|e] eqn:Hc; cbn; [done|].
  by rewrite (int_of_char_raise c e Hc).
Qed.

Lemma to_state_cons (X : list Z) :
  X ≠ [] → ∃ c s, to_state X = String c s.
Proof.
  intros HX. destruct (to_state X) as [|c s] eqn:E; [|by eauto].
  by apply to_state_nil_inv in E.
Qed.

(** X17.  A set with a negative state cannot be decoded: its string starts
    with the sign, so [any(int(s) in F for s in state)] of [is_final] raises
    [ValueError], and so does the weight loop of [step2] when the set is the
    source or the target of a transition (the other one not empty), before
    any lookup in [delta]. *)
Theorem negative_state_value_error (delta : gmap key TV) (F : list Z)
    (X Y : list Z) (a : ascii) (q : Z) :
  q ∈ X → q < 0 → Y ≠ [] →
  any_final F (to_state X) = Raise ValueError
  ∧ weight delta (to_state X) a (to_state Y) = Raise ValueError
  ∧ weight delta (to_state Y) a (to_state X) = Raise ValueError.
Proof.
  intros Hq Hneg HY.
  destruct (to_state_negative X q Hq Hneg) as [s ->].
  destruct (to_state_cons Y HY) as (c & s' & ->).
  split_and!; [done| |].
  - apply weight_bad_source.
  - apply weight_bad_target.
Qed.

Lemma negative_state_value_error_witness :
  any_final [0] (to_state [1; -2]) = Raise ValueError
  ∧ weight ∅ (to_state [1; -2]) "a" (to_state [0]) = Raise ValueError
  ∧ weight ∅ (to_state [0]) "a" (to_state [1; -2]) = Raise ValueError.
Proof.
  apply (negative_state_value_error ∅ [0] [1; -2] [0] "a" (-2)).
  - by_compute.
  - lia.
  - done.
Defined.

Lemma step2_weight_raises (delta : gmap key TV) (initial : Z) (F : list Z)
    (ts : gset dtrans) (S1 : string) (a : ascii) (S2 : string) (e : exn) :
  (S1, a, S2) ∈ ts → weight delta S1 a S2 = Raise e →
  ∃ e', step2 delta initial F ts = Raise e'.
Proof.
  intros Hin Hw. destruct (step2 delta initial F ts) as [fpda|e'] eqn:Hrun;
    [|by eauto].
  exfalso. unfold step2 in Hrun.
  destruct (for_in (elements ts) _ _) as [r|e1] eqn:Hloop; cbn in Hrun;
    [|done].
  destruct (for_in_body_ok _ _ _ _ Hloop (S1, a, S2)) as (s1 & s2 & Hbody);
    [by apply elem_of_elements|].
  change (step2_body delta (S1, a, S2) s1)
    with (value ← weight delta S1 a S2;
          Ok ({[S1; S2]} ∪ s1.1, <[(S1, a, S2) := value]> s1.2)) in Hbody.
  by rewrite Hw in Hbody.
Qed.

(** X18.  [determinization] raises when the initial state is negative, or a
    negative state is reached from it on one symbol: with [initial] in [Q],
    [a] in [Sigma] and [reach(initial, a)] not empty, a run with enough fuel
    ends in an exception instead of an automaton. *)
Theorem determinization_negative_state (fuel : nat) (Sigma : list ascii)
    (Q : list Z) (initial : Z) (F : list Z) (delta : gmap key TV)
    (a : ascii) (Y : list Z) (q : Z) :
  initial ∈ Q → a ∈ Sigma →
  reach Q (complete Sigma Q delta) initial (String a "") = Ok Y →
  Y ≠ [] → q ∈ initial :: Y → q < 0 →
  (2 ^ length Q ≤ fuel)%nat →
  ∃ e, determinization fuel Sigma Q initial F delta = Some (Raise e).
Proof.
  intros Hinit Ha HY Hne Hq Hneg Hfuel.
  pose proof (complete_total Sigma Q delta) as Htot.
  destruct (step1_ok Sigma Q _ initial Htot Hinit) as (ts & _ & Hrun).
  specialize (Hrun fuel Hfuel).
  assert (encode Q (complete Sigma Q delta) initial (String a "")
          = to_state Y) as He
    by (unfold encode, reached; by rewrite HY).
  assert ((to_state [initial], a, to_state Y) ∈ ts) as Hin.
  { rewrite <-He.
    apply (skeleton_first Sigma Q _ initial Htot Hinit fuel); [done..|].
    rewrite He. by intros ?%to_state_nil_inv. }
  assert (weight (complete Sigma Q delta) (to_state [initial]) a (to_state Y)
          = Raise ValueError) as Hw.
  { destruct (to_state_cons Y Hne) as (c & s' & HsY).
    destruct (to_state_cons [initial]) as (c0 & s0 & Hs0); [done|].
    apply elem_of_cons in Hq as [->|Hq].
    - destruct (to_state_negative [initial] initial) as [s1 Hs1];
        [by left|done|].
      rewrite Hs1, HsY. apply weight_bad_source.
    - destruct (to_state_negative Y q Hq Hneg) as [s1 Hs1].
      rewrite Hs0, Hs1. apply weight_bad_target. }
  destruct (step2_weight_raises _ initial F ts _ _ _ _ Hin Hw) as [e Hraise].
  exists e. unfold determinization. cbn. rewrite Hrun. cbn. by rewrite Hraise.
Qed.

Lemma determinization_negative_state_witness :
  ∃ e, determinization 4 ["a"%char] [0; -1] 0 [0]
         (list_to_map [((0, "a"%char, -1), (1, 0)%Q)]) = Some (Raise e).
Proof.
  apply (determinization_negative_state 4 ["a"%char] [0; -1] 0 [0]
           (list_to_map [((0, "a"%char, -1), (1, 0)%Q)]) "a" [-1] (-1)).
  - by_compute.
  - by_compute.
  - by_compute.
  - done.
  - by_compute.
  - lia.
  - cbn. lia.
Defined.

(** ** Relations without contradictory degrees *)

Lemma live_not_bot (v : TV) : live v → ¬ tv_eq v bot.
Proof.
  unfold live. intros Hv [H1 _]. rewrite H1 in Hv. by apply Qlt_irrefl in Hv.
Qed.

Lemma live_TwistAnd (x y : TV) : live (TwistAnd x y) ↔ live x ∧ live y.
Proof. apply Q.min_glb_lt_iff. Qed.

Lemma live_TwistOr (x y : TV) : live (TwistOr x y) ↔ live x ∨ live y.
Proof. apply Q.max_lt_iff. Qed.

Lemma live_orfold (f : Z → TV) (l : list Z) : ∀ acc,
  live (foldl (λ result r, TwistOr result (f r)) acc l)
  ↔ live acc ∨ ∃ r, r ∈ l ∧ live (f r).
Proof.
  induction l as [|r l IH]; intros acc; cbn [foldl].
  - split; [auto|]. by intros [?|(? & ?%elem_of_nil & _)].
  - rewrite IH, live_TwistOr. split.
    + intros [[?|?]|(r' & ? & ?)]; [by left|right..].
      * exists r. split; [left|done].
      * exists r'. split; [by right|done].
    + intros [?|(r' & [->|?]%elem_of_cons & ?)]; [by left; left|by left; right|].
      right. by exists r'.
Qed.

Lemma live_bigor (f : Z → TV) (l : list Z) :
  live (bigor f l) ↔ ∃ r, r ∈ l ∧ live (f r).
Proof.
  unfold bigor. rewrite live_orfold. split; [|auto].
  intros [H|?]; [|done]. by apply Qlt_irrefl in H.
Qed.

Lemma live_spec_nil (Q : list Z) (dl : Z → ascii → Z → TV) (q1 q2 : Z) :
  live (deltastar_spec Q dl q1 "" q2) ↔ q1 = q2.
Proof.
  cbn. case_decide; by split.
Qed.

Lemma live_spec_cons (Q : list Z) (dl : Z → ascii → Z → TV) (q1 : Z)
    (a : ascii) (w : string) (q2 : Z) :
  live (deltastar_spec Q dl q1 (String a w) q2)
  ↔ ∃ r, r ∈ Q ∧ live (dl q1 a r) ∧ live (deltastar_spec Q dl r w q2).
Proof.
  change (deltastar_spec Q dl q1 (String a w) q2)
    with (bigor (λ r, TwistAnd (dl q1 a r) (deltastar_spec Q dl r w q2)) Q).
  rewrite live_bigor. by setoid_rewrite live_TwistAnd.
Qed.

Lemma live_spec_snoc (Q : list Z) (dl : Z → ascii → Z → TV) (a : ascii)
    (q2 : Z) (w : string) : ∀ q1,
  q1 ∈ Q → q2 ∈ Q →
  live (deltastar_spec Q dl q1 (snoc_letter w a) q2)
  ↔ ∃ r, r ∈ Q ∧ live (deltastar_spec Q dl q1 w r) ∧ live (dl r a q2).
Proof.
  unfold snoc_letter. induction w as [|c w IH]; intros q1 H1 H2.
  - change ("" +:+ String a "") with (String a "").
    rewrite live_spec_cons. setoid_rewrite live_spec_nil. split.
    + intros (r & _ & Hr & ->). by exists q1.
    + intros (r & _ & -> & Hr). by exists q2.
  - change (String c w +:+ String a "") with (String c (w +:+ String a "")).
    rewrite live_spec_cons. setoid_rewrite live_spec_cons. split.
    + intros (s & Hs & Hd & (r & Hr & Hw & Ha)%IH); [|done..].
      exists r. split_and!; [done| |done]. by exists s.
    + intros (r & Hr & (s & Hs & Hd & Hw) & Ha).
      exists s. split_and!; [done..|]. apply IH; [done..|]. by exists r.
Qed.

Section Positive.
Variables (Q : list Z) (dl : Z → ascii → Z → TV).
Hypothesis dl_unit : ∀ q a r, in_unit (dl q a r).
Hypothesis dl_pos : ∀ q a r, tv_eq (dl q a r) bot ∨ live (dl q a r).

Lemma pos_TwistAnd (x y : TV) :
  in_unit x → in_unit y → tv_eq x bot ∨ live x → tv_eq y bot ∨ live y →
  tv_eq (TwistAnd x y) bot ∨ live (TwistAnd x y).
Proof.
  intros Hx Hy [Ex|Lx] [Ey|Ly].
  - left. rewrite Ex. by apply TwistAnd_bot_l.
  - left. rewrite Ex. by apply TwistAnd_bot_l.
  - left. rewrite Ey. by apply TwistAnd_bot.
  - right. by apply live_TwistAnd.
Qed.

Lemma pos_TwistOr (x y : TV) :
  tv_eq x bot ∨ live x → tv_eq y bot ∨ live y →
  tv_eq (TwistOr x y) bot ∨ live (TwistOr x y).
Proof.
  intros [Ex|Lx] [Ey|Ly].
  - left. rewrite Ex, Ey. by vm_compute.
  - right. apply live_TwistOr. by right.
  - right. apply live_TwistOr. by left.
  - right. apply live_TwistOr. by left.
Qed.

Lemma pos_spec w : ∀ q1 q2,
  tv_eq (deltastar_spec Q dl q1 w q2) bot
  ∨ live (deltastar_spec Q dl q1 w q2).
Proof.
  induction w as [|a w IH]; intros q1 q2; cbn [deltastar_spec].
  - case_decide; [by right|by left].
  - assert (∀ l acc, tv_eq acc bot ∨ live acc →
      let r := foldl (λ result r, TwistOr result
                 (TwistAnd (dl q1 a r) (deltastar_spec Q dl r w q2))) acc l in
      tv_eq r bot ∨ live r) as Hfold.
    { induction l as [|r l IHl]; intros acc Hacc; [done|].
      cbn. apply IHl. apply pos_TwistOr; [done|].
      apply pos_TwistAnd; [apply dl_unit|by apply spec_in_unit|apply dl_pos|].
      apply IH. }
    apply Hfold. by left.
Qed.

Lemma spec_not_bot w q1 q2 :
  ¬ tv_eq (deltastar_spec Q dl q1 w q2) bot
  ↔ live (deltastar_spec Q dl q1 w q2).
Proof.
  split; [|apply live_not_bot].
  intros Hne. by destruct (pos_spec w q1 q2).
Qed.
End Positive.

Lemma complete_positive (Sigma : list ascii) (Q : list Z)
    (delta : gmap key TV) :
  positive_or_bot delta → positive_or_bot (complete Sigma Q delta).
Proof.
  intros Hd k v. rewrite complete_lookup.
  destruct (delta !! k) as [v'|] eqn:Hk.
  - intros [= <-]. by eapply Hd.
  - case_decide; [|done]. intros [= <-]. by left.
Qed.

Lemma entry_positive (delta : gmap key TV) :
  positive_or_bot delta →
  ∀ q a r, tv_eq (entry delta q a r) bot ∨ live (entry delta q a r).
Proof.
  intros Hd q a r. unfold entry.
  destruct (delta !! (q, a, r)) as [v|] eqn:Hk; [by eapply Hd|by left].
Qed.

Section Successors.
Variables (Sigma : list ascii) (Q : list Z) (delta : gmap key TV).
Hypothesis delta_total : total Sigma Q delta.
Hypothesis delta_unit : unit_valued delta.
Hypothesis delta_pos : positive_or_bot delta.

Lemma reach_live p w X :
  p ∈ Q → word_over Sigma w → reach Q delta p w = Ok X →
  ∀ q, q ∈ X ↔ q ∈ Q ∧ live (deltastar_spec Q (entry delta) p w q).
Proof.
  intros Hp Hw [_ Hmem]%reach_members q. rewrite Hmem.
  rewrite (deltastar_refines Sigma) by done.
  rewrite <-(spec_not_bot Q (entry delta) (entry_in_unit delta delta_unit)
               (entry_positive delta delta_pos)).
  rewrite <-tv_eqb_eq, not_true_iff_false. split.
  - by intros [? (v & [= <-] & ?)].
  - intros [? ?]. split; [done|]. by eexists.
Qed.

Lemma entry_live r a q :
  r ∈ Q → a ∈ Sigma → q ∈ Q →
  live (entry delta r a q)
  ↔ ∃ v, delta !! (r, a, q) = Some v ∧ ¬ tv_eq v bot.
Proof.
  intros Hr Ha Hq. destruct (delta_total r a q Hr Ha Hq) as [v Hv].
  unfold entry. rewrite Hv. cbn. split.
  - intros Hl. exists v. split; [done|]. by apply live_not_bot.
  - intros (v' & [= <-] & Hne). by destruct (delta_pos _ _ Hv).
Qed.

Lemma reach_step p u a X Y :
  p ∈ Q → word_over Sigma u → a ∈ Sigma →
  reach Q delta p u = Ok X → reach Q delta p (snoc_letter u a) = Ok Y →
  ∀ q, q ∈ Y ↔
    q ∈ Q ∧ ∃ r v, r ∈ X ∧ delta !! (r, a, q) = Some v ∧ ¬ tv_eq v bot.
Proof.
  intros Hp Hu Ha HX HY q.
  rewrite (reach_live p _ Y Hp (word_over_snoc Sigma u a Hu Ha) HY).
  split.
  - intros [Hq (r & Hr & Hw & Hl)%live_spec_snoc]; [|done..].
    split; [done|]. apply entry_live in Hl as (v & Hv & Hne); [|done..].
    exists r, v. split_and!; [|done..].
    apply (reach_live p u X Hp Hu HX). by split.
  - intros [Hq (r & v & Hr & Hv & Hne)]. split; [done|].
    apply (reach_live p u X Hp Hu HX) in Hr as [Hr Hl].
    apply live_spec_snoc; [done..|]. exists r. split_and!; [done..|].
    apply entry_live; [done..|]. by exists v.
Qed.

Lemma reach_step_perm p u u' a X X' Y Y' :
  p ∈ Q → word_over Sigma u → word_over Sigma u' → a ∈ Sigma →
  reach Q delta p u = Ok X → reach Q delta p u' = Ok X' →
  reach Q delta p (snoc_letter u a) = Ok Y →
  reach Q delta p (snoc_letter u' a) = Ok Y' →
  X ≡ₚ X' → Y ≡ₚ Y'.
Proof.
  intros Hp Hu Hu' Ha HX HX' HY HY' HXX.
  apply NoDup_Permutation.
  - by apply reach_members in HY as [? _].
  - by apply reach_members in HY' as [? _].
  - intros q. rewrite (reach_step p u a X Y), (reach_step p u' a X' Y')
      by done.
    by setoid_rewrite HXX.
Qed.
End Successors.

(** X19.  When every value of [delta] lies in the unit square and is
    [(0, 1)] or has a positive first degree, [reach] follows the subset
    construction: [q] is in [reach(p, u + a)] exactly when [q] is in [Q] and
    some [r] of [reach(p, u)] has [delta[(r, a, q)] != (0, 1)]. *)
Theorem reach_successors (Sigma : list ascii) (Q : list Z)
    (delta0 : gmap key TV) (p : Z) (u : string) (a : ascii) (X Y : list Z) :
  let delta := complete Sigma Q delta0 in
  unit_valued delta0 → positive_or_bot delta0 →
  p ∈ Q → word_over Sigma u → a ∈ Sigma →
  reach Q delta p u = Ok X → reach Q delta p (snoc_letter u a) = Ok Y →
  ∀ q, q ∈ Y ↔
    q ∈ Q ∧ ∃ r v, r ∈ X ∧ delta !! (r, a, q) = Some v ∧ ¬ tv_eq v bot.
Proof.
  intros delta Hunit Hpos. apply (reach_step Sigma).
  - apply complete_total.
  - by apply complete_unit_valued.
  - by apply complete_positive.
Qed.

Lemma example5_positive : positive_or_bot Example5.delta0.
Proof.
  intros k v Hk. apply elem_of_list_to_map_2 in Hk. cbn in Hk.
  repeat (apply elem_of_cons in Hk as [[= -> ->]|Hk]; [by right|]).
  by apply elem_of_nil in Hk.
Qed.

Lemma reach_successors_witness :
  3 ∈ [0; 3] ↔
    3 ∈ Example5.Q
    ∧ ∃ r v, r ∈ [1; 2] ∧ Example5.delta !! (r, "b"%char, 3) = Some v
             ∧ ¬ tv_eq v bot.
Proof.
  apply (reach_successors Example5.Sigma Example5.Q Example5.delta0 0 "a"
           "b" [1; 2] [0; 3] example5_unit_valued example5_positive
           ltac:(by_compute) ltac:(by_compute) ltac:(by_compute)
           ltac:(by_compute) ltac:(by_compute) 3).
Defined.

Lemma encode_snoc_congr (Sigma : list ascii) (Q : list Z)
    (delta : gmap key TV) (initial : Z) (u u' : string) (a : ascii) :
  total Sigma Q delta → unit_valued delta → positive_or_bot delta →
  initial ∈ Q → digits Q →
  word_over Sigma u → word_over Sigma u' → a ∈ Sigma →
  encode Q delta initial u = encode Q delta initial u' →
  encode Q delta initial (snoc_letter u a)
  = encode Q delta initial (snoc_letter u' a).
Proof.
  intros Htot Hd Hp Hinit Hdig Hu Hu' Ha Heq.
  destruct (encode_reach Sigma Q delta initial u Htot Hinit Hu)
    as (X & HX & HeX & _).
  destruct (encode_reach Sigma Q delta initial u' Htot Hinit Hu')
    as (X' & HX' & HeX' & _).
  destruct (encode_reach Sigma Q delta initial (snoc_letter u a) Htot Hinit)
    as (Y & HY & -> & _); [by apply word_over_snoc|].
  destruct (encode_reach Sigma Q delta initial (snoc_letter u' a) Htot Hinit)
    as (Y' & HY' & -> & _); [by apply word_over_snoc|].
  apply to_state_perm.
  apply (reach_step_perm Sigma Q delta Htot Hd Hp initial u u' a X X');
    try done.
  apply to_state_inj.
  - intros q Hq. apply Hdig. eapply sublist_subseteq; [|done].
    by eapply reach_sublist.
  - intros q Hq. apply Hdig. eapply sublist_subseteq; [|done].
    by eapply reach_sublist.
  - congruence.
Qed.

(** X20.  Under the same condition on [delta], with states that are
    decimal digits, the transitions [step1] returns are deterministic: a
    source and a symbol have at most one target. *)
Theorem step1_deterministic (Sigma : list ascii) (Q : list Z)
    (delta0 : gmap key TV) (initial : Z) (fuel : nat) (out : gset dtrans)
    (S : string) (a : ascii) (S2 S2' : string) :
  let delta := complete Sigma Q delta0 in
  unit_valued delta0 → positive_or_bot delta0 →
  initial ∈ Q → digits Q →
  step1 fuel Sigma Q delta initial = Some (Ok out) →
  (S, a, S2) ∈ out → (S, a, S2') ∈ out → S2 = S2'.
Proof.
  intros delta Hunit Hpos Hinit Hdig Hout Hin Hin'.
  assert (Htot : total Sigma Q delta) by apply complete_total.
  assert (Hd : unit_valued delta) by by apply complete_unit_valued.
  assert (Hp : positive_or_bot delta) by by apply complete_positive.
  destruct (skeleton_step1 Sigma Q delta initial Htot Hinit fuel out Hout)
    as [Hwit _].
  destruct (Hwit _ _ _ Hin) as (u & Hu & Ha & HS & -> & _).
  destruct (Hwit _ _ _ Hin') as (u' & Hu' & _ & HS' & -> & _).
  apply (encode_snoc_congr Sigma); try done. congruence.
Qed.

Lemma step1_deterministic_witness : "12" = "12".
Proof.
  apply (step1_deterministic Example5.Sigma Example5.Q Example5.delta0
           Example5.initial 10 Example5.transitions "0" "a" "12" "12").
  - exact example5_unit_valued.
  - exact example5_positive.
  - by_compute.
  - exact example5_digits.
  - exact example5_step1.
  - by_compute.
  - by_compute.
Defined.

(** ** [step1] finds every transition *)

Lemma string_of_list_snoc (l : list ascii) (a : ascii) :
  string_of_list_ascii (l ++ [a]) = snoc_letter (string_of_list_ascii l) a.
Proof.
  unfold snoc_letter. induction l as [|c l IH]; [done|].
  cbn [app string_of_list_ascii]. rewrite IH. done.
Qed.

Lemma string_snoc_ind (P : string → Prop) :
  P "" → (∀ u a, P u → P (snoc_letter u a)) → ∀ w, P w.
Proof.
  intros H0 Hs w. rewrite <-(string_of_list_ascii_of_string w).
  induction (list_ascii_of_string w) as [|a l IH] using rev_ind; [done|].
  rewrite string_of_list_snoc. by apply Hs.
Qed.

Lemma word_over_snoc_inv (Sigma : list ascii) (u : string) (a : ascii) :
  word_over Sigma (snoc_letter u a) → word_over Sigma u ∧ a ∈ Sigma.
Proof.
  unfold snoc_letter. induction u as [|c u IH].
  - by intros [? _].
  - intros [? [??]%IH]. done.
Qed.

Section Exhaustive.
Variables (Sigma : list ascii) (Q : list Z) (delta : gmap key TV).
Variable initial : Z.
Hypothesis delta_total : total Sigma Q delta.
Hypothesis initial_valid : initial ∈ Q.

Lemma step1_body_words w a s s' :
  word_over Sigma w → str_last w = Ok a →
  step1_body Q delta initial w s = Ok s' →
  if pruned Q delta initial (words_states s) w
  then list_remove w (words s) = Ok (words s')
  else words s' = words s.
Proof.
  intros Hw Ha.
  rewrite (step1_body_eq Sigma Q delta initial delta_total initial_valid
             w a s Hw Ha).
  destruct (pruned _ _ _ _ _).
  - destruct (list_remove w (words s)) as [l'|e]; cbn; [|done].
    by intros [= <-].
  - cbn. by intros [= <-].
Qed.

Lemma covered_step ws0 w l s s' kept :
  round_inv Sigma Q delta initial ws0 (w :: l) s →
  words s ≡ₚ kept ++ w :: l →
  covered Sigma (words_states s) (w :: l) kept →
  step1_body Q delta initial w s = Ok s' →
  ∃ kept', words s' ≡ₚ kept' ++ l
           ∧ covered Sigma (words_states s') l kept'.
Proof.
  intros [Hws _ Hpend _ _] Hperm [Hfirst Hrep] Hbody.
  destruct (Hpend w) as [[Hne Hover] Hsrc]; [left|].
  destruct (str_last_ok Sigma w) as (a & Ha & HaS); [done..|].
  destruct (step1_body_shape Sigma Q delta initial delta_total initial_valid
              w a s s' Hover Ha Hbody) as [_ Hws'].
  pose proof (step1_body_words w a s s' Hover Ha Hbody) as Hwords.
  assert (Hkeep : ∀ u,
    is_Some (words_states s !! u) ∨ u ∈ w :: l →
    is_Some (words_states s' !! u) ∨ u ∈ l).
  { intros u [[v Hv]|[->|?]%elem_of_cons]; [left|left|by right].
    - exists v. rewrite Hws'. by apply (lookup_insert_cached Sigma).
    - rewrite Hws', lookup_insert_eq. by eexists. }
  assert (Hold : ∀ kept', kept ⊆ kept' →
    ∀ x v, words_states s !! x = Some v → v ≠ "" →
    ∃ u, words_states s' !! u = Some v
         ∧ (u ∈ kept'
            ∨ ∀ b, b ∈ Sigma → is_Some (words_states s' !! snoc_letter u b)
                               ∨ snoc_letter u b ∈ l)).
  { intros kept' Hsub x v Hx Hv.
    destruct (Hrep x v Hx Hv) as (u & Hu & Hcase).
    exists u. split; [rewrite Hws'; by apply (lookup_insert_cached Sigma)|].
    destruct Hcase as [?|Hall]; [left; by apply Hsub|right].
    intros b Hb. apply Hkeep, Hall, Hb. }
  destruct (pruned Q delta initial (words_states s) w) eqn:Hpr.
  - destruct (list_remove_ok w (words s)) as (l' & Hl' & Hp').
    { rewrite Hperm. apply elem_of_app. right. left. }
    rewrite Hl' in Hwords. injection Hwords as <-.
    exists kept. split.
    + apply (Permutation_cons_inv (a := w)). rewrite <-Hp', Hperm.
      by rewrite Permutation_middle.
    + split; [intros b Hb; apply Hkeep, Hfirst, Hb|].
      intros x v Hx Hv. rewrite Hws', lookup_insert in Hx.
      destruct (decide (w = x)) as [->|Hwx].
      * injection Hx as <-.
        apply orb_true_iff in Hpr
          as [Himg%bool_decide_eq_true|Hnil%bool_decide_eq_true]; [|done].
        apply elem_of_map_img in Himg as [x' Hx'].
        by apply (Hold kept) with x'.
      * by apply (Hold kept) with x.
  - exists (kept ++ [w]). split.
    + by rewrite Hwords, Hperm, <-app_assoc.
    + split; [intros b Hb; apply Hkeep, Hfirst, Hb|].
      intros x v Hx Hv. rewrite Hws', lookup_insert in Hx.
      destruct (decide (w = x)) as [->|Hwx].
      * injection Hx as <-. exists x. split.
        -- by rewrite Hws', lookup_insert_eq.
        -- left. apply elem_of_app. right. left.
      * apply (Hold (kept ++ [w])) with x; [|done..].
        intros ??. apply elem_of_app. by left.
Qed.

Lemma covered_round ws0 l : ∀ s s' kept,
  round_inv Sigma Q delta initial ws0 l s →
  words s ≡ₚ kept ++ l →
  covered Sigma (words_states s) l kept →
  for_in l (step1_body Q delta initial) s = Ok s' →
  ∃ kept', words s' ≡ₚ kept' ∧ covered Sigma (words_states s') [] kept'.
Proof.
  induction l as [|w l IH]; intros s s' kept Hinv Hperm Hcov; cbn [for_in].
  - intros [= <-]. exists kept. by rewrite app_nil_r in Hperm.
  - destruct (round_step Sigma Q delta initial delta_total initial_valid
                ws0 w l s Hinv) as (s1 & Hs1 & Hinv1).
    rewrite Hs1. cbn. intros Hrun.
    destruct (covered_step ws0 w l s s1 kept Hinv Hperm Hcov Hs1)
      as (kept1 & Hperm1 & Hcov1).
    by apply (IH s1 s' kept1).
Qed.

Lemma covered_next ws W kept :
  W ≡ₚ kept → covered Sigma ws [] kept →
  covered Sigma ws (add_letter Sigma W) [].
Proof.
  intros Hperm [Hfirst Hrep]. split.
  - intros a Ha. by destruct (Hfirst a Ha) as [?|?%elem_of_nil]; [left|].
  - intros x v Hx Hv. destruct (Hrep x v Hx Hv) as (u & Hu & Hcase).
    exists u. split; [done|]. right. intros a Ha.
    destruct Hcase as [Hk|Hall].
    + right. apply elem_of_add_letter. exists u, a.
      split_and!; [by rewrite Hperm|done..].
    + by destruct (Hall a Ha) as [?|?%elem_of_nil]; [left|].
Qed.

Lemma covered_while fuel : ∀ ts nw ws out,
  while_inv Sigma Q delta initial ts nw ws →
  witnessed Sigma Q delta initial ts →
  recorded Q delta initial ts ws →
  rooted initial ts →
  covered Sigma ws nw [] →
  step1_while fuel Sigma Q delta initial ts nw ws = Some (Ok out) →
  ∃ wsf, cache_ok Sigma Q delta initial wsf
         ∧ recorded Q delta initial out wsf
         ∧ covered Sigma wsf [] [].
Proof.
  induction fuel as [|fuel IH]; intros ts nw ws out Hinv Hwit Hrec Hroot Hcov;
    (destruct nw as [|w nw];
     [intros [= <-]; exists ws; by destruct Hinv|]); [done|].
  cbn [step1_while].
  pose proof (while_inv_round _ _ _ _ _ _ _ Hinv) as Hround.
  destruct (for_in _ _ _) as [s|e] eqn:Hrun; [|done].
  destruct (skeleton_round Sigma Q delta initial delta_total initial_valid
              ws (w :: nw) _ s Hround Hwit Hrec Hroot Hrun)
    as (_ & Hwit' & Hrec' & Hroot' & _ & Hend).
  destruct (covered_round ws (w :: nw) _ s [] Hround (reflexivity _) Hcov Hrun)
    as (kept & Hperm & Hcov').
  apply IH; [by eapply round_inv_while|done..|].
  by apply (covered_next _ _ kept).
Qed.

Lemma covered_init : covered Sigma ∅ (seed Sigma) [].
Proof.
  split.
  - intros a Ha. right. apply list_elem_of_fmap. by exists a.
  - by intros w v ?%lookup_empty_Some.
Qed.

Hypothesis delta_unit : unit_valued delta.
Hypothesis delta_pos : positive_or_bot delta.
Hypothesis Q_digits : digits Q.

Lemma encode_dead u a :
  word_over Sigma u → a ∈ Sigma →
  encode Q delta initial u = "" →
  encode Q delta initial (snoc_letter u a) = "".
Proof.
  intros Hu Ha He. unfold encode in *. apply to_state_nil_inv in He.
  pose proof (reach_reached Sigma Q delta initial delta_total initial_valid
                u Hu) as Hr.
  rewrite He in Hr. unfold reached, snoc_letter.
  by rewrite (reach_dead Sigma Q delta initial u (String a "")).
Qed.

Lemma closure out wsf :
  cache_ok Sigma Q delta initial wsf →
  recorded Q delta initial out wsf →
  covered Sigma wsf [] [] →
  ∀ w, word_over Sigma w → w ≠ "" → encode Q delta initial w ≠ "" →
    (∃ x, wsf !! x = Some (encode Q delta initial w))
    ∧ ∃ a, str_last w = Ok a
           ∧ (encode Q delta initial (str_init w), a,
              encode Q delta initial w) ∈ out.
Proof.
  intros Hc Hrec [Hfirst Hrep].
  induction w as [|u a IHw] using string_snoc_ind; [done|].
  intros [Hu Ha]%word_over_snoc_inv _ Hne.
  rewrite str_init_snoc, str_last_snoc.
  destruct (decide (u = "")) as [->|Hu0].
  - destruct (Hfirst a Ha) as [[v Hv]|[]%elem_of_nil].
    change (snoc_letter "" a) with (String a "") in *.
    destruct (Hc _ _ Hv) as [-> _].
    split; [by eexists|]. exists a. split; [done|].
    by destruct (Hrec _ _ Hv Hne) as (b & [= <-] & Hin).
  - assert (encode Q delta initial u ≠ "") as Hune.
    { intros He. apply Hne. by apply encode_dead. }
    destruct (IHw Hu Hu0 Hune) as [[x Hx] _].
    destruct (Hrep x _ Hx Hune) as (u' & Hu' & [[]%elem_of_nil|Hall]).
    destruct (Hall a Ha) as [[v Hv]|[]%elem_of_nil].
    destruct (Hc _ _ Hu') as [Heq [_ Hover']].
    destruct (Hc _ _ Hv) as [-> _].
    assert (encode Q delta initial (snoc_letter u' a)
            = encode Q delta initial (snoc_letter u a)) as Hcong
      by by apply (encode_snoc_congr Sigma).
    rewrite Hcong in Hv.
    split; [by eexists|]. exists a. split; [done|].
    destruct (Hrec _ _ Hv Hne) as (b & Hb & Hin).
    rewrite str_last_snoc in Hb. injection Hb as <-.
    rewrite str_init_snoc in Hin. by rewrite Heq.
Qed.

Lemma step1_closed fuel out u a :
  step1 fuel Sigma Q delta initial = Some (Ok out) →
  word_over Sigma u → a ∈ Sigma →
  encode Q delta initial (snoc_letter u a) ≠ "" →
  (encode Q delta initial u, a, encode Q delta initial (snoc_letter u a))
  ∈ out.
Proof.
  intros Hout Hu Ha Hne.
  destruct (skeleton_init Sigma Q delta initial) as (Hwit & Hrec & Hroot).
  destruct (covered_while fuel ∅ (seed Sigma) ∅ out
              (while_inv_init _ _ _ _) Hwit Hrec Hroot covered_init Hout)
    as (wsf & Hc & Hrec' & Hcov).
  destruct (closure out wsf Hc Hrec' Hcov (snoc_letter u a))
    as [_ (b & Hb & Hin)];
    [by apply word_over_snoc|apply snoc_letter_nonempty|done|].
  rewrite str_last_snoc in Hb. injection Hb as <-.
  by rewrite str_init_snoc in Hin.
Qed.
End Exhaustive.

(** X21.  Under the same condition, [step1] returns exactly the
    transitions of the words over [Sigma]: [(S1, a, S2)] is in the result if
    and only if some word [u] has [S1 = to_state(reach(initial, u))],
    [S2 = to_state(reach(initial, u + a))] and [reach(initial, u + a)] not
    empty.  Dropping a word whose state is known loses no transition. *)
Theorem step1_complete (Sigma : list ascii) (Q : list Z)
    (delta0 : gmap key TV) (initial : Z) (fuel : nat) (out : gset dtrans)
    (S1 : string) (a : ascii) (S2 : string) :
  let delta := complete Sigma Q delta0 in
  unit_valued delta0 → positive_or_bot delta0 →
  initial ∈ Q → digits Q →
  step1 fuel Sigma Q delta initial = Some (Ok out) →
  (S1, a, S2) ∈ out ↔
    ∃ u X Y, word_over Sigma u ∧ a ∈ Sigma
      ∧ reach Q delta initial u = Ok X
      ∧ reach Q delta initial (snoc_letter u a) = Ok Y
      ∧ Y ≠ [] ∧ S1 = to_state X ∧ S2 = to_state Y.
Proof.
  intros delta Hunit Hpos Hinit Hdig Hout.
  assert (Htot : total Sigma Q delta) by apply complete_total.
  assert (Hd : unit_valued delta) by by apply complete_unit_valued.
  assert (Hp : positive_or_bot delta) by by apply complete_positive.
  split.
  - intros Hin.
    destruct (skeleton_step1 Sigma Q delta initial Htot Hinit fuel out Hout)
      as [Hwit _].
    destruct (Hwit _ _ _ Hin) as (u & Hu & Ha & -> & -> & Hne2).
    destruct (encode_reach Sigma Q delta initial u Htot Hinit Hu)
      as (X & HX & HeX & _).
    destruct (encode_reach Sigma Q delta initial (snoc_letter u a) Htot Hinit)
      as (Y & HY & HeY & HnY); [by apply word_over_snoc|].
    exists u, X, Y. split_and!; try done. by apply HnY.
  - intros (u & X & Y & Hu & Ha & HX & HY & Hne & -> & ->).
    assert (encode Q delta initial u = to_state X) as <-
      by (unfold encode, reached; by rewrite HX).
    assert (encode Q delta initial (snoc_letter u a) = to_state Y) as He
      by (unfold encode, reached; by rewrite HY).
    rewrite <-He.
    apply (step1_closed Sigma Q delta initial Htot Hinit Hd Hp Hdig fuel);
      [done..|].
    rewrite He. by intros ?%to_state_nil_inv.
Qed.

Lemma step1_complete_witness :
  ("12", "b"%char, "03") ∈ Example5.transitions ↔
    ∃ u X Y, word_over Example5.Sigma u ∧ "b"%char ∈ Example5.Sigma
      ∧ reach Example5.Q Example5.delta Example5.initial u = Ok X
      ∧ reach Example5.Q Example5.delta Example5.initial
          (snoc_letter u "b") = Ok Y
      ∧ Y ≠ [] ∧ "12" = to_state X ∧ "03" = to_state Y.
Proof.
  apply (step1_complete Example5.Sigma Example5.Q Example5.delta0
           Example5.initial 10 Example5.transitions).
  - exact example5_unit_valued.
  - exact example5_positive.
  - by_compute.
  - exact example5_digits.
  - exact example5_step1.
Defined.

(** ** Contradictory degrees *)

Lemma branching_step1 :
  step1 4 Branching.Sigma Branching.Q Branching.delta Branching.initial
  = Some (Ok Branching.transitions).
Proof. by_compute. Qed.

Lemma branching_unit_valued : unit_valued Branching.delta0.
Proof.
  intros k v Hk. apply elem_of_list_to_map_2 in Hk. cbn in Hk.
  repeat (apply elem_of_cons in Hk as [[= -> ->]|Hk];
          [repeat split; by vm_compute|]).
  by apply elem_of_nil in Hk.
Qed.

Lemma branching_digits : digits Branching.Q.
Proof.
  intros q Hq. unfold Branching.Q in Hq.
  repeat (apply elem_of_cons in Hq as [->|Hq]; [lia|]).
  by apply elem_of_nil in Hq.
Qed.

(** X22.  Without the condition on the first degrees the result of [step1]
    need not be deterministic: there is an automaton with values in the unit
    square, states [0] and [1], for which [step1] returns two transitions
    with the same source and symbol and different targets. *)
Theorem step1_not_deterministic :
  ∃ (Sigma : list ascii) (Q : list Z) (delta0 : gmap key TV) (initial : Z)
    (fuel : nat) (out : gset dtrans) (S : string) (a : ascii)
    (S2 S2' : string),
    unit_valued delta0 ∧ initial ∈ Q ∧ digits Q
    ∧ step1 fuel Sigma Q (complete Sigma Q delta0) initial = Some (Ok out)
    ∧ (S, a, S2) ∈ out ∧ (S, a, S2') ∈ out ∧ S2 ≠ S2'.
Proof.
  exists Branching.Sigma, Branching.Q, Branching.delta0, Branching.initial,
    4%nat, Branching.transitions, "0", "b"%char, "01", "1".
  split_and!.
  - exact branching_unit_valued.
  - by_compute.
  - exact branching_digits.
  - exact branching_step1.
  - by_compute.
  - by_compute.
  - done.
Qed.
